(** * todo-whiteboard: the task store endpoint and the board's list operations

    The repository has two source files.

    - The route handler of the tasks resource ([GET] and [PUT] over the single
      file [data/tasks.json]), with its shape check [isTask].  It is embedded
      in [Module Route] over JSON values ([Module Json]), with the file system
      as an explicit world threaded through a small state-and-exception monad.
      A response is its status and the text of its body.
    - The [TodoBoard] component, whose event handlers [addTask], [updateTask],
      [moveForward], [moveBack] and [removeTask] compute the next task list.
      It is embedded in [Module Board] as functions from the component state
      to the next state and the list of [PUT] requests issued.

    Platform functions the source calls are modelled in [Module Json]
    ([JSON.parse], [JSON.stringify], property reads, [typeof], truthiness)
    or taken as arguments ([String.prototype.trim], the value returned by
    [crypto.randomUUID]).  Numbers are the doubles of JavaScript: a literal is
    read as the nearest double, which may be infinite, and written as
    Number::toString writes it; an object holds one member per name, in the
    order of enumeration.  Strings are the UTF-8 bytes of the text, with a
    surrogate that is no half of a pair in the three-byte layout of its code.

    [Module View] adds what the component renders from its state (the three
    columns, the buttons of a card), the handlers written inline in it and the
    events that reach the mounted component; [Module Wire] adds what goes
    between the two files: the body that [persistTasks] sends, the answer
    [fetch] gets, and [loadTasks]. *)

From Stdlib Require Import ZArith String Ascii List Bool Lia Permutation.
From Stdlib Require Import DecimalString DecimalZ DecimalN DecimalPos DecimalFacts.
Import ListNotations.

Local Open Scope list_scope.
Local Open Scope string_scope.

(** ** JSON values as JavaScript sees them *)

Module Json.

Notation "' p <- e ;; k" :=
  (match e with Some p => k | None => None end)
  (at level 61, p pattern, e at next level, right associativity).

(** *** Numbers *)

(** A number that [JSON.parse] can return: a double (IEEE 754 binary64),
    finite or not; it never returns NaN.  A finite number other than zero is
    [m * 2 ^ e] with [m] odd, [m < 2 ^ 53], [-1074 <= e] and
    [m * 2 ^ e < 2 ^ 1024] ([is_double]): every such double is written in
    this way once. *)
Inductive number :=
| Zero (negative : bool)
| Finite (negative : bool) (m : positive) (e : Z)
| Infinity (negative : bool).

Definition is_odd (m : positive) : bool :=
  match m with
  | xO _ => false
  | _ => true
  end.

Definition is_double (m : positive) (e : Z) : bool :=
  is_odd m && (Z.pos m <? 2 ^ 53)%Z && (-1074 <=? e)%Z && (Z.log2 (Z.pos m) + e <? 1024)%Z.

Definition number_eqb (a b : number) : bool :=
  match a, b with
  | Zero s, Zero s' | Infinity s, Infinity s' => Bool.eqb s s'
  | Finite s m e, Finite s' m' e' => Bool.eqb s s' && (m =? m')%positive && (e =? e')%Z
  | _, _ => false
  end.

(** [m * 2 ^ e] with the factors two of [m] moved into the exponent. *)
Fixpoint odd_part (m : positive) (e : Z) : positive * Z :=
  match m with
  | xO p => odd_part p (e + 1)
  | _ => (m, e)
  end.

(** The Number value of the positive rational [num / den]: the double
    nearest to it, the one with the even significand when two are as near.
    The quotient is taken in units of [2 ^ (b - 1074)], where [b] leaves it 53
    bits, or fewer below the normal range; what rounds to [2 ^ 1024] or more
    is infinite. *)
Definition Number_value (negative : bool) (num den : Z) : number :=
  let scaled := (num * 2 ^ 1074)%Z in
  let b := Z.max 0 (Z.log2 (scaled / den) - 52) in
  let unit := (den * 2 ^ b)%Z in
  let q := (scaled / unit)%Z in
  let r := (scaled mod unit)%Z in
  let m := if (2 * r <? unit)%Z then q
           else if (unit <? 2 * r)%Z then (q + 1)%Z
           else if Z.even q then q else (q + 1)%Z in
  if (m =? 0)%Z then Zero negative
  else if (2 ^ 2098 <=? m * 2 ^ b)%Z then Infinity negative
  else let (m', e') := odd_part (Z.to_pos m) (b - 1074) in Finite negative m' e'.

(** The Number value of a decimal literal with the digits [ds] and the
    exponent [x]: of [ds * 10 ^ x]. *)
Definition to_number (negative : bool) (ds : Decimal.uint) (x : Z) : number :=
  let s := Z.of_uint ds in
  if (s =? 0)%Z then Zero negative
  else if (0 <=? x)%Z then Number_value negative (s * 10 ^ x) 1
  else Number_value negative s (10 ^ (- x)).

(** **** Number::toString *)

(** [m * 2 ^ e] as a fraction. *)
Definition fraction (m : positive) (e : Z) : Z * Z :=
  if (0 <=? e)%Z then (Z.pos m * 2 ^ e, 1)%Z else (Z.pos m, 2 ^ (- e))%Z.

(** [m * 2 ^ e * 10 ^ x] as a fraction. *)
Definition scaled (m : positive) (e x : Z) : Z * Z :=
  let (p, q) := fraction m e in
  if (0 <=? x)%Z then (p * 10 ^ x, q)%Z else (p, q * 10 ^ (- x))%Z.

Definition count_digits (z : Z) : Z :=
  Z.of_nat (Decimal.nb_digits (Pos.to_uint (Z.to_pos z))).

(** The [n] with [10 ^ (n - 1) <= m * 2 ^ e < 10 ^ n]. *)
Definition magnitude (m : positive) (e : Z) : Z :=
  let (p, q) := scaled m e 400 in (count_digits (p / q) - 400)%Z.

(** [s * 10 ^ x] with the factors ten of [s] moved into the exponent. *)
Fixpoint without_zeros (tries : nat) (s x : Z) : Z * Z :=
  match tries with
  | O => (s, x)
  | S tries' =>
      if (s mod 10 =? 0)%Z then without_zeros tries' (s / 10)%Z (x + 1)%Z else (s, x)
  end.

(** The decimal [s * 10 ^ x], written without trailing zeros, if it reads
    back as [m * 2 ^ e]. *)
Definition candidate (m : positive) (e : Z) (s x : Z) : option (Decimal.uint * Z) :=
  if (s <=? 0)%Z then None
  else
    let (s', x') := without_zeros 20 s x in
    let ds := Pos.to_uint (Z.to_pos s') in
    if number_eqb (to_number false ds x') (Finite false m e) then Some (ds, x') else None.

(** The decimal of [k] digits nearest to [m * 2 ^ e] that reads back as it,
    if there is one: the nearest below or the nearest above. *)
Definition digits_at (m : positive) (e : Z) (k : Z) : option (Decimal.uint * Z) :=
  let n := magnitude m e in
  let (p, q) := scaled m e (k - n) in
  let below := (p / q)%Z in
  let above := (below + 1)%Z in
  let (first, second) := if (2 * (p mod q) <=? q)%Z then (below, above) else (above, below) in
  match candidate m e first (n - k) with
  | Some c => Some c
  | None => candidate m e second (n - k)
  end.

Fixpoint search (m : positive) (e : Z) (tries : nat) (k : Z) : option (Decimal.uint * Z) :=
  match tries with
  | O => None
  | S tries' =>
      match digits_at m e k with
      | Some c => Some c
      | None => search m e tries' (k + 1)
      end
  end.

(** The decimal expansion of [m * 2 ^ e], which is finite. *)
Definition expansion (m : positive) (e : Z) : Decimal.uint * Z :=
  if (0 <=? e)%Z then (Pos.to_uint (Z.to_pos (Z.pos m * 2 ^ e)), 0%Z)
  else (Pos.to_uint (Z.to_pos (Z.pos m * 5 ^ (- e))), e).

(** The digits and the exponent that Number::toString writes: the shortest
    decimal that reads back as the number and, of these, the nearest to it.
    Seventeen digits always do for a double; the expansion stands for what
    would come after. *)
Definition shortest (m : positive) (e : Z) : Decimal.uint * Z :=
  match search m e 17 1 with
  | Some c => c
  | None => expansion m e
  end.

Definition digits : Decimal.uint -> string := NilEmpty.string_of_uint.

(** The first [n] digits of [d]. *)
Fixpoint first_digits (n : nat) (d : Decimal.uint) : Decimal.uint :=
  match n with
  | O => Decimal.Nil
  | S n' =>
      match d with
      | Decimal.Nil => Decimal.Nil
      | Decimal.D0 d' => Decimal.D0 (first_digits n' d')
      | Decimal.D1 d' => Decimal.D1 (first_digits n' d')
      | Decimal.D2 d' => Decimal.D2 (first_digits n' d')
      | Decimal.D3 d' => Decimal.D3 (first_digits n' d')
      | Decimal.D4 d' => Decimal.D4 (first_digits n' d')
      | Decimal.D5 d' => Decimal.D5 (first_digits n' d')
      | Decimal.D6 d' => Decimal.D6 (first_digits n' d')
      | Decimal.D7 d' => Decimal.D7 (first_digits n' d')
      | Decimal.D8 d' => Decimal.D8 (first_digits n' d')
      | Decimal.D9 d' => Decimal.D9 (first_digits n' d')
      end
  end.

(** [n] zeros in front of [d]. *)
Definition zeros (n : nat) (d : Decimal.uint) : Decimal.uint := Nat.iter n Decimal.D0 d.

(** The digits [ds] times [10 ^ x] as Number::toString writes them, where
    [k] is the number of digits and [n = k + x]: the digits and zeros up to 21
    places, a point inside the digits, zeros after the point down to
    [0.000001], an exponent otherwise. *)
Definition format (ds : Decimal.uint) (x : Z) : string :=
  let k := Z.of_nat (Decimal.nb_digits ds) in
  let n := (k + x)%Z in
  if (k <=? n)%Z && (n <=? 21)%Z then
    digits (Decimal.app ds (zeros (Z.to_nat (n - k)) Decimal.Nil))
  else if (0 <? n)%Z && (n <=? 21)%Z then
    digits (first_digits (Z.to_nat n) ds) ++ "." ++ digits (Decimal.del_head (Z.to_nat n) ds)
  else if (-6 <? n)%Z && (n <=? 0)%Z then
    "0." ++ digits (zeros (Z.to_nat (- n)) ds)
  else
    (if (k =? 1)%Z then digits ds
     else digits (first_digits 1 ds) ++ "." ++ digits (Decimal.del_head 1 ds))
    ++ "e" ++ (if (0 <=? n - 1)%Z then "+" else "-")
    ++ digits (Pos.to_uint (Z.to_pos (Z.abs (n - 1)))).

(** What [JSON.stringify] writes for a number: Number::toString of a finite
    number, [null] for one that is not. *)
Definition number_to_string (n : number) : string :=
  match n with
  | Zero _ => "0"
  | Finite negative m e =>
      (if negative then "-" else "") ++ (let (ds, x) := shortest m e in format ds x)
  | Infinity _ => "null"
  end.

(** **** Number literals *)

Definition digit_of (c : ascii) : option (Decimal.uint -> Decimal.uint) :=
  let n := N_of_ascii c in
  if (n =? 48)%N then Some Decimal.D0
  else if (n =? 49)%N then Some Decimal.D1
  else if (n =? 50)%N then Some Decimal.D2
  else if (n =? 51)%N then Some Decimal.D3
  else if (n =? 52)%N then Some Decimal.D4
  else if (n =? 53)%N then Some Decimal.D5
  else if (n =? 54)%N then Some Decimal.D6
  else if (n =? 55)%N then Some Decimal.D7
  else if (n =? 56)%N then Some Decimal.D8
  else if (n =? 57)%N then Some Decimal.D9
  else None.

Fixpoint read_digits (s : string) : Decimal.uint * string :=
  match s with
  | EmptyString => (Decimal.Nil, s)
  | String c r =>
      match digit_of c with
      | Some d => let (ds, rest) := read_digits r in (d ds, rest)
      | None => (Decimal.Nil, s)
      end
  end.

(** [0] or a digit sequence that does not start with [0]. *)
Definition int_digits (d : Decimal.uint) : bool :=
  match d with
  | Decimal.Nil => false
  | Decimal.D0 Decimal.Nil => true
  | Decimal.D0 _ => false
  | _ => true
  end.

Definition read_sign (s : string) : bool * string :=
  match s with
  | String c r => if (c =? "-")%char then (true, r) else (false, s)
  | EmptyString => (false, s)
  end.

(** A fraction, if one follows: a point and at least one digit. *)
Definition read_fraction (s : string) : option (Decimal.uint * string) :=
  match s with
  | String c r =>
      if (c =? ".")%char then
        let (f, rest) := read_digits r in
        match f with
        | Decimal.Nil => None
        | _ => Some (f, rest)
        end
      else Some (Decimal.Nil, s)
  | EmptyString => Some (Decimal.Nil, s)
  end.

(** An exponent, if one follows: [e] or [E], a sign or none, and at least
    one digit. *)
Definition read_exponent (s : string) : option (Z * string) :=
  match s with
  | String c r =>
      if (c =? "e")%char || (c =? "E")%char then
        let (negative, r1) :=
          match r with
          | String c1 r' =>
              if (c1 =? "-")%char then (true, r')
              else if (c1 =? "+")%char then (false, r') else (false, r)
          | EmptyString => (false, r)
          end in
        let (x, rest) := read_digits r1 in
        match x with
        | Decimal.Nil => None
        | _ => Some (if negative then (- Z.of_uint x)%Z else Z.of_uint x, rest)
        end
      else Some (0%Z, s)
  | EmptyString => Some (0%Z, s)
  end.

(** A number literal after its sign: digits, then a fraction or none, then
    an exponent or none. *)
Definition parse_unsigned (negative : bool) (s : string) : option (number * string) :=
  let (i, r1) := read_digits s in
  if int_digits i then
    ' (f, r2) <- read_fraction r1 ;;
    ' (x, rest) <- read_exponent r2 ;;
    Some (to_number negative (Decimal.app i f) (x - Z.of_nat (Decimal.nb_digits f)), rest)
  else None.

Definition parse_number (s : string) : option (number * string) :=
  let (negative, s1) := read_sign s in parse_unsigned negative s1.

(** *** Values *)

(** A value that [JSON.parse] can return (TypeScript's [unknown] in the
    route).  Strings are byte strings: the UTF-8 text that
    [fs.writeFile(..., "utf8")] stores, with a surrogate that is no half of a
    pair in the three-byte layout of its code.  An object is the list of its members
    in the order in which JavaScript enumerates them, names that are array
    indices first and in ascending order, the other names in the order of
    their creation; the values of JavaScript are the terms whose objects are
    so ordered and whose numbers are doubles ([js_value]). *)
Unset Elimination Schemes.
Inductive json : Type :=
| JNull
| JBool (b : bool)
| JNum (n : number)
| JStr (s : string)
| JArr (items : list json)
| JObj (members : list (string * json)).
Set Elimination Schemes.

(** [!value] is [negb (truthy value)]. *)
Definition truthy (value : json) : bool :=
  match value with
  | JNull => false
  | JBool b => b
  | JNum (Zero _) => false
  | JNum _ => true
  | JStr s => negb (s =? "")%string
  | JArr _ | JObj _ => true
  end.

(** The results [typeof] can give on these values. *)
Inductive jstype := TObject | TBoolean | TNumber | TString.

Definition typeof (value : json) : jstype :=
  match value with
  | JNull | JArr _ | JObj _ => TObject
  | JBool _ => TBoolean
  | JNum _ => TNumber
  | JStr _ => TString
  end.

Definition jstype_eqb (a b : jstype) : bool :=
  match a, b with
  | TObject, TObject | TBoolean, TBoolean | TNumber, TNumber | TString, TString => true
  | _, _ => false
  end.

(** The member a property read finds: the last of the name, which in an
    object of JavaScript is the only one. *)
Fixpoint lookup (k : string) (members : list (string * json)) : option json :=
  match members with
  | [] => None
  | (k', v) :: rest =>
      match lookup k rest with
      | Some v' => Some v'
      | None => if (k' =? k)%string then Some v else None
      end
  end.

(** [value.k] for the property names the route reads ([id], [title],
    [detail], [status], [tasks]); [None] is [undefined].  None of these names
    is a property of an array or of [Object.prototype]. *)
Definition prop (value : json) (k : string) : option json :=
  match value with
  | JObj members => lookup k members
  | _ => None
  end.

(** [Array.isArray(x)], with the elements it narrows to. *)
Definition as_array (x : option json) : option (list json) :=
  match x with
  | Some (JArr items) => Some items
  | _ => None
  end.

(** [typeof x === "string"] *)
Definition is_string (x : option json) : bool :=
  match x with
  | Some (JStr _) => true
  | _ => false
  end.

(** *** JSON.stringify *)

Definition nl : string := String (ascii_of_nat 10) "".
Definition dquote : ascii := ascii_of_nat 34.
Definition backslash : ascii := ascii_of_nat 92.

Fixpoint pad (n : nat) : string :=
  match n with
  | O => ""
  | S n' => String " " (pad n')
  end.

Definition hex_digit (n : N) : ascii :=
  if (n <? 10)%N then ascii_of_N (48 + n) else ascii_of_N (87 + n).

(** One character of a quoted string (QuoteJSONString), surrogates apart. *)
Definition escape_char (c : ascii) : string :=
  let n := N_of_ascii c in
  if (n =? 8)%N then String backslash "b"
  else if (n =? 9)%N then String backslash "t"
  else if (n =? 10)%N then String backslash "n"
  else if (n =? 12)%N then String backslash "f"
  else if (n =? 13)%N then String backslash "r"
  else if (n =? 34)%N then String backslash (String dquote "")
  else if (n =? 92)%N then String backslash (String backslash "")
  else if (n <? 32)%N then
    String backslash (String "u" (String "0" (String "0"
      (String (hex_digit (n / 16)) (String (hex_digit (n mod 16)) "")))))
  else String c "".

Definition is_high_surrogate (n : N) : bool := (55296 <=? n)%N && (n <=? 56319)%N.
Definition is_low_surrogate (n : N) : bool := (56320 <=? n)%N && (n <=? 57343)%N.

(** A surrogate that is no half of a pair has no UTF-8 form; in a byte
    string it is kept in the three-byte layout of its code.  [surrogate] is
    the code of the surrogate of which [a b c] is the layout. *)
Definition surrogate (a b c : ascii) : option N :=
  let x := N_of_ascii a in
  let y := N_of_ascii b in
  let z := N_of_ascii c in
  if (x =? 237)%N && (160 <=? y)%N && (y <=? 191)%N && (128 <=? z)%N && (z <=? 191)%N
  then Some (53248 + (y - 128) * 64 + (z - 128))%N
  else None.

(** The text starts with the layout of a low surrogate. *)
Definition starts_low (s : string) : bool :=
  match s with
  | String a (String b (String c _)) =>
      match surrogate a b c with
      | Some n => is_low_surrogate n
      | None => false
      end
  | _ => false
  end.

(** UnicodeEscape: [\u] and four hexadecimal digits. *)
Definition unicode_escape (n : N) : string :=
  String backslash (String "u"
    (String (hex_digit (n / 4096)) (String (hex_digit ((n / 256) mod 16))
      (String (hex_digit ((n / 16) mod 16)) (String (hex_digit (n mod 16)) ""))))).

(** The characters of a quoted string (QuoteJSONString): a surrogate that
    stands alone is written as an escape, every other character by
    [escape_char].  The layouts of a high and a low surrogate side by side are
    the text of no JavaScript string, which has the two as one character of
    four bytes; they are left as they are. *)
Fixpoint escape (s : string) : string :=
  match s with
  | EmptyString => ""
  | String a s1 =>
      match s1 with
      | String b (String c s3) =>
          match surrogate a b c with
          | Some n =>
              match s3 with
              | String a' (String b' (String c' s6)) =>
                  if is_high_surrogate n && starts_low s3
                  then String a (String b (String c
                         (String a' (String b' (String c' (escape s6))))))
                  else unicode_escape n ++ escape s3
              | _ => unicode_escape n ++ escape s3
              end
          | None => escape_char a ++ escape s1
          end
      | _ => escape_char a ++ escape s1
      end
  end.

Definition quote (s : string) : string :=
  String dquote (escape s ++ String dquote "").

(** The serialized elements or members [partial], one per line at [indent],
    between [opening] and [closing] (SerializeJSONArray and
    SerializeJSONObject with a non-empty gap). *)
Fixpoint join_tail (separator : string) (partial : list string) : string :=
  match partial with
  | [] => ""
  | p :: rest => separator ++ p ++ join_tail separator rest
  end.

Definition wrap (opening closing : string) (stepback indent : nat) (partial : list string)
  : string :=
  match partial with
  | [] => opening ++ closing
  | p :: rest =>
      opening ++ nl ++ pad indent ++ p
      ++ join_tail ("," ++ nl ++ pad indent) rest
      ++ nl ++ pad stepback ++ closing
  end.

(** SerializeJSONProperty with a gap of two spaces; [indent] is the number
    of spaces of the current indentation. *)
Fixpoint serialize (indent : nat) (value : json) : string :=
  match value with
  | JNull => "null"
  | JBool true => "true"
  | JBool false => "false"
  | JNum n => number_to_string n
  | JStr s => quote s
  | JArr items =>
      wrap "[" "]" indent (2 + indent) (map (serialize (2 + indent)) items)
  | JObj members =>
      wrap "{" "}" indent (2 + indent)
        (map (fun '(k, x) => quote k ++ ": " ++ serialize (2 + indent) x) members)
  end.

(** [JSON.stringify(value, null, 2)] *)
Definition JSON_stringify (value : json) : string := serialize 0 value.

(** The same with no gap. *)
Definition wrap_compact (opening closing : string) (partial : list string) : string :=
  match partial with
  | [] => opening ++ closing
  | p :: rest => opening ++ p ++ join_tail "," rest ++ closing
  end.

(** [JSON.stringify(value)]: what [fetch] sends as a body and what
    [NextResponse.json] answers. *)
Fixpoint serialize_compact (value : json) : string :=
  match value with
  | JNull => "null"
  | JBool true => "true"
  | JBool false => "false"
  | JNum n => number_to_string n
  | JStr s => quote s
  | JArr items => wrap_compact "[" "]" (map serialize_compact items)
  | JObj members =>
      wrap_compact "{" "}"
        (map (fun '(k, x) => quote k ++ ":" ++ serialize_compact x) members)
  end.

(** *** JSON.parse *)

Definition is_ws (c : ascii) : bool :=
  let n := N_of_ascii c in
  (n =? 32)%N || (n =? 9)%N || (n =? 10)%N || (n =? 13)%N.

Fixpoint skip_ws (s : string) : string :=
  match s with
  | String c r => if is_ws c then skip_ws r else s
  | EmptyString => s
  end.

Definition hex_val (c : ascii) : option N :=
  let n := N_of_ascii c in
  if (48 <=? n)%N && (n <=? 57)%N then Some (n - 48)%N
  else if (97 <=? n)%N && (n <=? 102)%N then Some (n - 87)%N
  else if (65 <=? n)%N && (n <=? 70)%N then Some (n - 55)%N
  else None.

Definition hex4 (a b c d : ascii) : option N :=
  ' x3 <- hex_val a ;; ' x2 <- hex_val b ;; ' x1 <- hex_val c ;; ' x0 <- hex_val d ;;
  Some (((x3 * 16 + x2) * 16 + x1) * 16 + x0)%N.

Definition byte (n : N) (rest : string) : string := String (ascii_of_N n) rest.

(** The bytes of the code point [n]; of a surrogate, the three-byte layout
    of its code. *)
Definition utf8 (n : N) (rest : string) : string :=
  if (n <? 128)%N then byte n rest
  else if (n <? 2048)%N then byte (192 + n / 64) (byte (128 + n mod 64) rest)
  else if (n <? 65536)%N then
    byte (224 + n / 4096) (byte (128 + (n / 64) mod 64) (byte (128 + n mod 64) rest))
  else
    byte (240 + n / 262144)
      (byte (128 + (n / 4096) mod 64) (byte (128 + (n / 64) mod 64) (byte (128 + n mod 64) rest))).

Definition simple_escape (e : ascii) : option ascii :=
  let n := N_of_ascii e in
  if (n =? 34)%N then Some dquote
  else if (n =? 92)%N then Some backslash
  else if (n =? 47)%N then Some "/"%char
  else if (n =? 98)%N then Some (ascii_of_N 8)
  else if (n =? 102)%N then Some (ascii_of_N 12)
  else if (n =? 110)%N then Some (ascii_of_N 10)
  else if (n =? 114)%N then Some (ascii_of_N 13)
  else if (n =? 116)%N then Some (ascii_of_N 9)
  else None.

(** The characters of a string literal after its opening quote, up to and
    including the closing quote: the decoded string and the text that
    follows. *)
Fixpoint parse_chars (s : string) : option (string * string) :=
  match s with
  | EmptyString => None
  | String c r =>
      if (c =? dquote)%char then Some ("", r)
      else if (c =? backslash)%char then
        match r with
        | EmptyString => None
        | String e r1 =>
            if (e =? "u")%char then
              match r1 with
              | String h3 (String h2 (String h1 (String h0 r2))) =>
                  ' hi <- hex4 h3 h2 h1 h0 ;;
                  let single := ' (t, rest) <- parse_chars r2 ;; Some (utf8 hi t, rest) in
                  if is_high_surrogate hi then
                    match r2 with
                    | String b (String u (String l3 (String l2 (String l1 (String l0 r3))))) =>
                        match hex4 l3 l2 l1 l0 with
                        | Some lo =>
                            if (b =? backslash)%char && (u =? "u")%char && is_low_surrogate lo
                            then
                              ' (t, rest) <- parse_chars r3 ;;
                              Some (utf8 (65536 + (hi - 55296) * 1024 + (lo - 56320)) t, rest)
                            else single
                        | None => single
                        end
                    | _ => single
                    end
                  else single
              | _ => None
              end
            else
              ' ch <- simple_escape e ;;
              ' (t, rest) <- parse_chars r1 ;; Some (String ch t, rest)
        end
      else if (N_of_ascii c <? 32)%N then None
      else ' (t, rest) <- parse_chars r ;; Some (String c t, rest)
  end.

Fixpoint expect (word : string) (s : string) : option string :=
  match word, s with
  | EmptyString, _ => Some s
  | String w word', String c r => if (w =? c)%char then expect word' r else None
  | String _ _, EmptyString => None
  end.

(** **** The object a list of members makes *)

(** The array index a name is, if it is one: a canonical numeric string
    of value [2 ^ 32 - 2] at most. *)
Definition array_index (k : string) : option N :=
  match read_digits k with
  | (d, EmptyString) =>
      if int_digits d && (N.of_uint d <=? 4294967294)%N then Some (N.of_uint d) else None
  | _ => None
  end.

(** [k] is enumerated before [k'] wherever the two were created: it is an
    array index, and [k'] is none or a larger one. *)
Definition goes_before (k k' : string) : bool :=
  match array_index k, array_index k' with
  | Some i, Some i' => (i <? i')%N
  | Some _, None => true
  | None, _ => false
  end.

(** CreateDataProperty: a name that the object has gets the new value where
    it stands; a new name is put in its place among the array indices, or
    after all others. *)
Fixpoint define (k : string) (v : json) (members : list (string * json))
  : list (string * json) :=
  match members with
  | [] => [(k, v)]
  | (k', v') :: rest =>
      if (k' =? k)%string then (k, v) :: rest
      else if goes_before k k' then (k, v) :: members
      else (k', v') :: define k v rest
  end.

(** The object that has been given the members [ms] one after the other. *)
Definition object_of (ms : list (string * json)) : list (string * json) :=
  fold_left (fun members '(k, v) => define k v members) ms [].

(** The elements of an array after the first has been found to exist, up to
    and including the closing bracket. *)
Fixpoint parse_elements (pv : string -> option (json * string)) (n : nat) (s : string)
  : option (list json * string) :=
  match n with
  | O => None
  | S n' =>
      ' (v, r) <- pv s ;;
      match skip_ws r with
      | String c r1 =>
          if (c =? ",")%char then
            ' (vs, rest) <- parse_elements pv n' r1 ;; Some (v :: vs, rest)
          else if (c =? "]")%char then Some ([v], r1)
          else None
      | EmptyString => None
      end
  end.

(** The members of an object, in the order of the text. *)
Fixpoint parse_members (pv : string -> option (json * string)) (n : nat) (s : string)
  : option (list (string * json) * string) :=
  match n with
  | O => None
  | S n' =>
      match skip_ws s with
      | String q r =>
          if (q =? dquote)%char then
            ' (k, r1) <- parse_chars r ;;
            match skip_ws r1 with
            | String colon r2 =>
                if (colon =? ":")%char then
                  ' (v, r3) <- pv r2 ;;
                  match skip_ws r3 with
                  | String c r4 =>
                      if (c =? ",")%char then
                        ' (ms, rest) <- parse_members pv n' r4 ;; Some ((k, v) :: ms, rest)
                      else if (c =? "}")%char then Some ([(k, v)], r4)
                      else None
                  | EmptyString => None
                  end
                else None
            | EmptyString => None
            end
          else None
      | EmptyString => None
      end
  end.

(** One JSON value at the head of [s], after optional white space.  [fuel]
    bounds the nesting and the number of elements; [JSON_parse] gives the
    length of the text, which is always enough. *)
Fixpoint parse_value (fuel : nat) (s : string) : option (json * string) :=
  match fuel with
  | O => None
  | S fuel' =>
      match skip_ws s with
      | EmptyString => None
      | String c r =>
          if (c =? "n")%char then ' rest <- expect "ull" r ;; Some (JNull, rest)
          else if (c =? "t")%char then ' rest <- expect "rue" r ;; Some (JBool true, rest)
          else if (c =? "f")%char then ' rest <- expect "alse" r ;; Some (JBool false, rest)
          else if (c =? dquote)%char then ' (str, rest) <- parse_chars r ;; Some (JStr str, rest)
          else if (c =? "[")%char then
            match skip_ws r with
            | String c1 r1 =>
                if (c1 =? "]")%char then Some (JArr [], r1)
                else ' (vs, rest) <- parse_elements (parse_value fuel') fuel' r ;;
                     Some (JArr vs, rest)
            | EmptyString => None
            end
          else if (c =? "{")%char then
            match skip_ws r with
            | String c1 r1 =>
                if (c1 =? "}")%char then Some (JObj [], r1)
                else ' (ms, rest) <- parse_members (parse_value fuel') fuel' r ;;
                     Some (JObj (object_of ms), rest)
            | EmptyString => None
            end
          else ' (n, rest) <- parse_number (String c r) ;; Some (JNum n, rest)
      end
  end.

(** [JSON.parse(text)]; [None] is a thrown [SyntaxError]. *)
Definition JSON_parse (text : string) : option json :=
  ' (v, rest) <- parse_value (String.length text) text ;;
  match skip_ws rest with
  | EmptyString => Some v
  | String _ _ => None
  end.

(** *** The values of JavaScript, and what [JSON.stringify] keeps of them *)

(** The names are in the order of enumeration: no name twice, and none
    behind a name it goes before. *)
Fixpoint ordered (names : list string) : bool :=
  match names with
  | [] => true
  | k :: rest =>
      forallb (fun k' => negb (k' =? k)%string && negb (goes_before k' k)) rest
      && ordered rest
  end.

Definition is_number (n : number) : bool :=
  match n with
  | Finite _ m e => is_double m e
  | _ => true
  end.

(** The terms that are values of JavaScript. *)
Fixpoint js_value (v : json) : bool :=
  match v with
  | JNum n => is_number n
  | JArr items => forallb js_value items
  | JObj members =>
      ordered (map fst members) && forallb (fun m => js_value (snd m)) members
  | _ => true
  end.

(** The value as [JSON.stringify] writes it: a number that is not finite is
    written [null], and the negative zero [0]. *)
Fixpoint written (v : json) : json :=
  match v with
  | JNum (Infinity _) => JNull
  | JNum (Zero _) => JNum (Zero false)
  | JArr items => JArr (map written items)
  | JObj members => JObj (map (fun m => (fst m, written (snd m))) members)
  | _ => v
  end.

(** No number of the value is infinite or the negative zero: the value is
    written as it is. *)
Fixpoint storable (v : json) : bool :=
  match v with
  | JNum (Infinity _) | JNum (Zero true) => false
  | JArr items => forallb storable items
  | JObj members => forallb (fun m => storable (snd m)) members
  | _ => true
  end.

(** What [JSON.parse] reads from what [JSON.stringify] wrote for any term;
    on a value of JavaScript this is [written]. *)
Fixpoint reread (v : json) : json :=
  match v with
  | JNum (Infinity _) => JNull
  | JNum (Zero _) => JNum (Zero false)
  | JNum (Finite negative m e) =>
      JNum (to_number negative (fst (shortest m e)) (snd (shortest m e)))
  | JArr items => JArr (map reread items)
  | JObj members => JObj (object_of (map (fun m => (fst m, reread (snd m))) members))
  | _ => v
  end.

(** *** Measures and shapes used to reason about the parser *)

(** Structural induction through the elements and members. *)
Definition json_ind (P : json -> Prop)
  (Hnull : P JNull) (Hbool : forall b, P (JBool b)) (Hnum : forall n, P (JNum n))
  (Hstr : forall s, P (JStr s))
  (Harr : forall items, Forall P items -> P (JArr items))
  (Hobj : forall members, Forall (fun m => P (snd m)) members -> P (JObj members))
  : forall v, P v :=
  fix F (v : json) : P v :=
    match v with
    | JNull => Hnull
    | JBool b => Hbool b
    | JNum n => Hnum n
    | JStr s => Hstr s
    | JArr items =>
        Harr items
          ((fix G (l : list json) : Forall P l :=
              match l with
              | [] => Forall_nil _
              | x :: l' => Forall_cons x (F x) (G l')
              end) items)
    | JObj members =>
        Hobj members
          ((fix G (l : list (string * json)) : Forall (fun m => P (snd m)) l :=
              match l with
              | [] => Forall_nil _
              | m :: l' => Forall_cons m (F (snd m)) (G l')
              end) members)
    end.

(** Number of nodes of a value: the fuel its parse needs. *)
Fixpoint size (v : json) : nat :=
  match v with
  | JArr items => S (list_sum (map size items))
  | JObj members => S (list_sum (map (fun '(_, x) => size x) members))
  | _ => 1
  end.

(** The text starts with a character that is neither white space nor a
    closing bracket or brace. *)
Definition head_ok (s : string) : bool :=
  match s with
  | String c _ => negb (is_ws c) && negb (c =? "]")%char && negb (c =? "}")%char
  | EmptyString => false
  end.

Definition non_ws (s : string) : bool :=
  match s with
  | String c _ => negb (is_ws c)
  | EmptyString => true
  end.

(** The text starts like a number: a sign or a digit. *)
Definition number_head (s : string) : bool :=
  match s with
  | String c _ => (c =? "-")%char || match digit_of c with Some _ => true | None => false end
  | EmptyString => false
  end.

(** The text does not go on with a digit. *)
Definition no_digit (s : string) : bool :=
  match s with
  | String c _ => match digit_of c with Some _ => false | None => true end
  | EmptyString => true
  end.

(** The text cannot continue a number literal: it does not go on with a
    digit, a point or an exponent. *)
Definition ends_number (rest : string) : bool :=
  match rest with
  | EmptyString => true
  | String c _ =>
      match digit_of c with
      | Some _ => false
      | None => negb ((c =? ".")%char || (c =? "e")%char || (c =? "E")%char)
      end
  end.

(** The first digit is not zero. *)
Definition headed (d : Decimal.uint) : bool :=
  match d with
  | Decimal.Nil | Decimal.D0 _ => false
  | _ => true
  end.

(** [v] is read back from its serialization at any indentation, whatever
    follows it. *)
Definition reparses (v : json) : Prop :=
  forall fuel indent rest,
    size v <= fuel -> ends_number rest = true ->
    parse_value fuel (serialize indent v ++ rest) = Some (reread v, rest).

(** The same for its compact serialization. *)
Definition reparses_compact (v : json) : Prop :=
  forall fuel rest,
    size v <= fuel -> ends_number rest = true ->
    parse_value fuel (serialize_compact v ++ rest) = Some (reread v, rest).

(** The text does not start with the escape of a low surrogate. *)
Definition no_low_escape (r : string) : Prop :=
  forall l3 l2 l1 l0 r3 lo,
    r = String backslash (String "u" (String l3 (String l2 (String l1 (String l0 r3))))) ->
    hex4 l3 l2 l1 l0 = Some lo -> is_low_surrogate lo = false.

(** A member with its value as it is read back. *)
Definition reread_member (m : string * json) : string * json := (fst m, reread (snd m)).

(** [k'] may stand behind [k] in an object. *)
Definition behind (k k' : string) : bool :=
  negb (k' =? k)%string && negb (goes_before k' k).

(** The number with the sign replaced. *)
Definition set_sign (negative : bool) (n : number) : number :=
  match n with
  | Zero _ => Zero negative
  | Finite _ m e => Finite negative m e
  | Infinity _ => Infinity negative
  end.

(** The serialized elements, separated by commas. *)
Definition joined (partial : list string) : string :=
  match partial with
  | [] => ""
  | p :: rest => p ++ join_tail "," rest
  end.

End Json.

(** ** The route handler of the tasks resource *)

Module Route.
Import Json.

(** [data/tasks.json] as [fs.readFile] finds it. *)
Inductive file :=
| Absent
| Unreadable
| Content (text : string).

(** The file system the handlers run against: the tasks file, and what the
    next [fs.mkdir] and [fs.writeFile] will do.  A write that is rejected may
    leave the file in any state, given by [writeFile_error]. *)
Record world := {
  tasks_file : file;
  mkdir_error : bool;
  writeFile_error : option file
}.

Inductive exn :=
| ENOENT
| EACCES
| EIO
| SyntaxError
| Error (message : string).

Inductive outcome (A : Type) :=
| Ok (a : A)
| Throw (e : exn).
Arguments Ok {A} a.
Arguments Throw {A} e.

(** An async function over the file system: it settles with a value or
    rejects, and leaves a world. *)
Definition M (A : Type) : Type := world -> outcome A * world.

Definition ret {A} (a : A) : M A := fun w => (Ok a, w).

Definition throw {A} (e : exn) : M A := fun w => (Throw e, w).

Definition bind {A B} (m : M A) (k : A -> M B) : M B :=
  fun w =>
    match m w with
    | (Ok a, w') => k a w'
    | (Throw e, w') => (Throw e, w')
    end.

Definition try_catch {A} (m : M A) (handler : exn -> M A) : M A :=
  fun w =>
    match m w with
    | (Ok a, w') => (Ok a, w')
    | (Throw e, w') => handler e w'
    end.

Notation "x <- m ;; k" := (bind m (fun x => k))
  (at level 61, m at next level, right associativity).
Notation "m ;;; k" := (bind m (fun _ => k))
  (at level 61, right associativity).

(** [fs.readFile(TASKS_FILE, "utf8")] *)
Definition fs_readFile : M string :=
  fun w =>
    match tasks_file w with
    | Content text => (Ok text, w)
    | Absent => (Throw ENOENT, w)
    | Unreadable => (Throw EACCES, w)
    end.

(** [fs.mkdir(path.dirname(TASKS_FILE), { recursive: true })] *)
Definition fs_mkdir : M unit :=
  fun w => if mkdir_error w then (Throw EIO, w) else (Ok tt, w).

(** The world with the tasks file replaced. *)
Definition with_file (f : file) (w : world) : world :=
  {| tasks_file := f;
     mkdir_error := mkdir_error w;
     writeFile_error := writeFile_error w |}.

(** [fs.writeFile(TASKS_FILE, text, "utf8")]: when it resolves, the file
    holds [text] and can be read. *)
Definition fs_writeFile (text : string) : M unit :=
  fun w =>
    match writeFile_error w with
    | Some residue => (Throw EIO, with_file residue w)
    | None => (Ok tt, with_file (Content text) w)
    end.

(** [JSON.parse(text)] as a step that may throw. *)
Definition parse_json (text : string) : M json :=
  match JSON_parse text with
  | Some value => ret value
  | None => throw SyntaxError
  end.

(** The request, by the text of its body; [request.json()] parses it. *)
Record Request := { text : string }.

Definition request_json (request : Request) : M json := parse_json (text request).

(** A response, by its status and the text of its body. *)
Record Response := { status : nat; body : string }.

(** [NextResponse.json(body, { status })]: the body is [JSON.stringify] of
    the value; the status is 200 when none is given. *)
Definition NextResponse_json (value : json) (status : nat) : Response :=
  {| status := status; body := serialize_compact value |}.

Definition tasks_body (tasks : list json) : json := JObj [("tasks", JArr tasks)].
Definition message_body (message : string) : json := JObj [("message", JStr message)].

Definition isTaskStatus (value : option json) : bool :=
  match value with
  | Some (JStr s) => (s =? "todo") || (s =? "doing") || (s =? "done")
  | _ => false
  end.

Definition isTask (value : json) : bool :=
  if negb (truthy value) || negb (jstype_eqb (typeof value) TObject) then false
  else
    is_string (prop value "id")
    && is_string (prop value "title")
    && is_string (prop value "detail")
    && isTaskStatus (prop value "status").

Definition readTasksFile : M (list json) :=
  content <- fs_readFile ;;
  parsed <- parse_json content ;;
  match as_array (Some parsed) with
  | None => throw (Error "Invalid tasks data")
  | Some items =>
      if existsb (fun item => negb (isTask item)) items
      then throw (Error "Invalid tasks data")
      else ret items
  end.

Definition writeTasksFile (tasks : list json) : M unit :=
  fs_mkdir ;;;
  fs_writeFile (JSON_stringify (JArr tasks) ++ nl).

Definition GET : M Response :=
  try_catch
    (tasks <- readTasksFile ;;
     ret (NextResponse_json (tasks_body tasks) 200))
    (fun _ => ret (NextResponse_json (tasks_body []) 200)).

Definition PUT (request : Request) : M Response :=
  try_catch
    (body <- request_json request ;;
     if negb (truthy body) || negb (jstype_eqb (typeof body) TObject)
     then ret (NextResponse_json (message_body "Invalid body") 400)
     else
       match as_array (prop body "tasks") with
       | None => ret (NextResponse_json (message_body "Invalid tasks") 400)
       | Some tasks =>
           if existsb (fun item => negb (isTask item)) tasks
           then ret (NextResponse_json (message_body "Invalid tasks") 400)
           else
             writeTasksFile tasks ;;;
             ret (NextResponse_json (tasks_body tasks) 200)
       end)
    (fun _ => ret (NextResponse_json (message_body "Failed to save tasks") 500)).

(** *** Worlds, requests and values the statements are run on *)

(** The world after [fs.writeFile] has stored [text]. *)
Definition stored (text : string) (w : world) : world := with_file (Content text) w.

(** The task of the specification's example, and a task that carries two
    more members. *)
Definition example_task : json :=
  JObj [("id", JStr "1"); ("title", JStr "A"); ("detail", JStr ""); ("status", JStr "todo")].

Definition tagged_task : json :=
  JObj [("id", JStr "2"); ("priority", JNum (Finite false 3 0)); ("title", JStr "B");
        ("detail", JStr "d"); ("status", JStr "doing"); ("tags", JArr [JStr "x"; JNull])].

Definition request_of (payload : json) : Request := {| text := JSON_stringify payload |}.

Definition fresh_world : world :=
  {| tasks_file := Absent; mkdir_error := false; writeFile_error := None |}.

(** A request whose body is cut off after its first character. *)
Definition truncated_request : Request := {| text := "{" |}.

(** A world whose tasks file holds [text]. *)
Definition holding (text : string) : world :=
  {| tasks_file := Content text; mkdir_error := false; writeFile_error := None |}.

(** The task of the specification's second example: it has no [detail]. *)
Definition task_without_detail : json :=
  JObj [("id", JStr "1"); ("title", JStr "A"); ("status", JStr "todo")].

(** The text of a member whose value has the text [value]. *)
Definition member (name value : string) : string := quote name ++ ":" ++ value.

(** The four members of the example task, as text. *)
Definition example_members : string :=
  member "id" (quote "1") ++ "," ++ member "title" (quote "A") ++ ","
  ++ member "detail" (quote "") ++ "," ++ member "status" (quote "todo").

(** A request as a client other than the board may send it: the task names
    [id] twice and has two more members, a number with an exponent and an
    integer that no double holds. *)
Definition weighted_request : Request :=
  {| text := "{" ++ member "tasks"
               ("[{" ++ member "id" (quote "0") ++ "," ++ example_members ++ ","
                ++ member "weight" "1e2" ++ "," ++ member "n" "9007199254740993" ++ "}]")
             ++ "}" |}.

(** The task [request.json()] makes of it: 100 is [25 * 2 ^ 2], and the
    double nearest to the integer is [2 ^ 53]. *)
Definition weighted_task : json :=
  JObj [("id", JStr "1"); ("title", JStr "A"); ("detail", JStr ""); ("status", JStr "todo");
        ("weight", JNum (Finite false 25 2)); ("n", JNum (Finite false 1 53))].

(** A request whose task has a member too large for a double, and the task
    [request.json()] makes of it. *)
Definition overflowing_request : Request :=
  {| text := "{" ++ member "tasks" ("[{" ++ example_members ++ "," ++ member "weight" "1e999" ++ "}]")
             ++ "}" |}.

Definition heavy_task : json :=
  JObj [("id", JStr "1"); ("title", JStr "A"); ("detail", JStr ""); ("status", JStr "todo");
        ("weight", JNum (Infinity false))].

(** The same task with [null] for the weight. *)
Definition weightless_task : json :=
  JObj [("id", JStr "1"); ("title", JStr "A"); ("detail", JStr ""); ("status", JStr "todo");
        ("weight", JNull)].

(** A request whose task has a member below every double and a negative
    zero, the task [request.json()] makes of it, and what is written of it. *)
Definition sinking_request : Request :=
  {| text := "{" ++ member "tasks"
               ("[{" ++ example_members ++ "," ++ member "floor" "-1e999" ++ ","
                ++ member "offset" "-0" ++ "}]")
             ++ "}" |}.

Definition sunk_task : json :=
  JObj [("id", JStr "1"); ("title", JStr "A"); ("detail", JStr ""); ("status", JStr "todo");
        ("floor", JNum (Infinity true)); ("offset", JNum (Zero true))].

Definition surfaced_task : json :=
  JObj [("id", JStr "1"); ("title", JStr "A"); ("detail", JStr ""); ("status", JStr "todo");
        ("floor", JNull); ("offset", JNum (Zero false))].



End Route.

(** ** The board component *)

Module Board.

Inductive TaskStatus := todo | doing | done.

Record Task := {
  id : string;
  title : string;
  detail : string;
  status : TaskStatus
}.

(** [Partial<Pick<Task, "title" | "detail">>] *)
Record Patch := {
  patch_title : option string;
  patch_detail : option string
}.

(** The component's [useState] cells. *)
Record State := {
  tasks : list Task;
  newTitle : string;
  newDetail : string;
  loading : bool;
  saving : bool;
  mounted : bool;
  activeTask : option Task;
  dialogOpen : bool
}.

(** A [PUT /api/tasks] issued by [fetch], by the task list of its body. *)
Definition Request : Type := list Task.

(** An event handler: the state after its setters have run, and the requests
    it has issued.  A handler reads the state of the render it closes over,
    which is its argument. *)
Definition Handler : Type := State -> State * list Request.

Definition and_then (h1 h2 : Handler) : Handler :=
  fun st =>
    let (st1, r1) := h1 st in
    let (st2, r2) := h2 st1 in
    (st2, (r1 ++ r2)%list).

Notation "h1 >> h2" := (and_then h1 h2) (at level 62, left associativity).

Definition skip : Handler := fun st => (st, []).

Definition setTasks (v : list Task) : Handler :=
  fun st =>
    ({| tasks := v; newTitle := newTitle st; newDetail := newDetail st;
        loading := loading st; saving := saving st; mounted := mounted st;
        activeTask := activeTask st; dialogOpen := dialogOpen st |}, []).

Definition setNewTitle (v : string) : Handler :=
  fun st =>
    ({| tasks := tasks st; newTitle := v; newDetail := newDetail st;
        loading := loading st; saving := saving st; mounted := mounted st;
        activeTask := activeTask st; dialogOpen := dialogOpen st |}, []).

Definition setNewDetail (v : string) : Handler :=
  fun st =>
    ({| tasks := tasks st; newTitle := newTitle st; newDetail := v;
        loading := loading st; saving := saving st; mounted := mounted st;
        activeTask := activeTask st; dialogOpen := dialogOpen st |}, []).

Definition setSaving (v : bool) : Handler :=
  fun st =>
    ({| tasks := tasks st; newTitle := newTitle st; newDetail := newDetail st;
        loading := loading st; saving := v; mounted := mounted st;
        activeTask := activeTask st; dialogOpen := dialogOpen st |}, []).

Definition setLoading (v : bool) : Handler :=
  fun st =>
    ({| tasks := tasks st; newTitle := newTitle st; newDetail := newDetail st;
        loading := v; saving := saving st; mounted := mounted st;
        activeTask := activeTask st; dialogOpen := dialogOpen st |}, []).

Definition setMounted (v : bool) : Handler :=
  fun st =>
    ({| tasks := tasks st; newTitle := newTitle st; newDetail := newDetail st;
        loading := loading st; saving := saving st; mounted := v;
        activeTask := activeTask st; dialogOpen := dialogOpen st |}, []).

(** [setActiveTask] with an updater function, as [updateTask] calls it; a
    plain value is the constant updater. *)
Definition setActiveTask (f : option Task -> option Task) : Handler :=
  fun st =>
    ({| tasks := tasks st; newTitle := newTitle st; newDetail := newDetail st;
        loading := loading st; saving := saving st; mounted := mounted st;
        activeTask := f (activeTask st); dialogOpen := dialogOpen st |}, []).

Definition setDialogOpen (v : bool) : Handler :=
  fun st =>
    ({| tasks := tasks st; newTitle := newTitle st; newDetail := newDetail st;
        loading := loading st; saving := saving st; mounted := mounted st;
        activeTask := activeTask st; dialogOpen := v |}, []).

Definition fetch_PUT (body : list Task) : Handler := fun st => (st, [body]).

(** [persistTasks] up to its [await]: the list is set, the saving flag
    raised and the request issued.  [persistSettled] is its [finally]. *)
Definition persistTasks (nextTasks : list Task) : Handler :=
  setTasks nextTasks >> setSaving true >> fetch_PUT nextTasks.

Definition persistSettled : Handler := setSaving false.

(** [{ ...task, ...patch }] *)
Definition spread_patch (task : Task) (patch : Patch) : Task :=
  {| id := id task;
     title := match patch_title patch with Some v => v | None => title task end;
     detail := match patch_detail patch with Some v => v | None => detail task end;
     status := status task |}.

(** [{ ...task, status: s }] *)
Definition with_status (task : Task) (s : TaskStatus) : Task :=
  {| id := id task; title := title task; detail := detail task; status := s |}.

(** [activeTask?.id === id] *)
Definition active_is (st : State) (i : string) : bool :=
  match activeTask st with
  | Some t => (id t =? i)%string
  | None => false
  end.

Section Handlers.

(** [String.prototype.trim] *)
Variable trim : string -> string.

(** [uuid] is what [crypto.randomUUID()] returns in this call. *)
Definition addTask (uuid : string) : Handler :=
  fun st =>
    let title := trim (newTitle st) in
    let detail := trim (newDetail st) in
    if (title =? "")%string then (st, [])
    else
      let nextTasks :=
        {| id := uuid; title := title; detail := detail; status := todo |} :: tasks st in
      (persistTasks nextTasks >> setNewTitle "" >> setNewDetail "") st.

End Handlers.

Definition updateTask (i : string) (patch : Patch) : Handler :=
  fun st =>
    let nextTasks :=
      map (fun task => if (id task =? i)%string then spread_patch task patch else task)
          (tasks st) in
    (persistTasks nextTasks
     >> (if active_is st i
         then setActiveTask (fun prev =>
                match prev with
                | Some p => Some (spread_patch p patch)
                | None => prev
                end)
         else skip)) st.

Definition moveForward (i : string) : Handler :=
  fun st =>
    let nextTasks :=
      map (fun task =>
             if negb (id task =? i)%string then task
             else
               match status task with
               | todo => with_status task doing
               | doing => with_status task done
               | done => task
               end)
          (tasks st) in
    persistTasks nextTasks st.

Definition moveBack (i : string) : Handler :=
  fun st =>
    let nextTasks :=
      map (fun task =>
             if negb (id task =? i)%string then task
             else
               match status task with
               | done => with_status task doing
               | doing => with_status task todo
               | todo => task
               end)
          (tasks st) in
    persistTasks nextTasks st.

Definition removeTask (i : string) : Handler :=
  fun st =>
    let nextTasks := filter (fun task => negb (id task =? i)%string) (tasks st) in
    (persistTasks nextTasks
     >> (if active_is st i
         then setDialogOpen false >> setActiveTask (fun _ => None)
         else skip)) st.

(** The operations the board offers on the task list. *)
Inductive action :=
| AddTask (uuid : string)
| UpdateTask (i : string) (patch : Patch)
| MoveForward (i : string)
| MoveBack (i : string)
| RemoveTask (i : string).

Definition run (trim : string -> string) (a : action) : Handler :=
  match a with
  | AddTask uuid => addTask trim uuid
  | UpdateTask i patch => updateTask i patch
  | MoveForward i => moveForward i
  | MoveBack i => moveBack i
  | RemoveTask i => removeTask i
  end.

(** A [trim] for white space in the ASCII range (tab, line feed, vertical
    tab, form feed, carriage return, space), used to run the handlers on
    concrete inputs. *)
Definition is_space (c : ascii) : bool :=
  let n := N_of_ascii c in
  ((9 <=? n)%N && (n <=? 13)%N) || (n =? 32)%N.

Fixpoint trimStart (s : string) : string :=
  match s with
  | String c r => if is_space c then trimStart r else s
  | EmptyString => s
  end.

Fixpoint trimEnd (s : string) : string :=
  match s with
  | EmptyString => EmptyString
  | String c r =>
      match trimEnd r with
      | EmptyString => if is_space c then EmptyString else String c EmptyString
      | t => String c t
      end
  end.

Definition ascii_trim (s : string) : string := trimEnd (trimStart s).

(** Relations the statements about the list use. *)

(** [after] is [before] without its tasks of id [i], the others in order. *)
Inductive removed (i : string) : list Task -> list Task -> Prop :=
| removed_nil : removed i [] []
| removed_drop t before after :
    id t = i -> removed i before after -> removed i (t :: before) after
| removed_keep t before after :
    id t <> i -> removed i before after -> removed i (t :: before) (t :: after).

(** One step along [todo - doing - done], or none. *)
Definition one_step (s s' : TaskStatus) : Prop :=
  match s, s' with
  | todo, done | done, todo => False
  | _, _ => True
  end.

(** *** A board the statements are run on *)

(** A board of three tasks with the detail dialog open on the second, and
    the same board with a blank title typed into the form. *)
Definition t_design : Task := {| id := "a"; title := "Design"; detail := ""; status := todo |}.
Definition t_build : Task := {| id := "b"; title := "Build"; detail := "api"; status := doing |}.
Definition t_ship : Task := {| id := "c"; title := "Ship"; detail := ""; status := done |}.

Definition board (typedTitle typedDetail : string) : State :=
  {| tasks := [t_design; t_build; t_ship];
     newTitle := typedTitle; newDetail := typedDetail;
     loading := false; saving := false; mounted := true;
     activeTask := Some t_build; dialogOpen := true |}.

(** The component as it mounts: the initial values of its [useState] cells. *)
Definition mounting : State :=
  {| tasks := []; newTitle := ""; newDetail := "";
     loading := true; saving := false; mounted := false;
     activeTask := None; dialogOpen := false |}.

End Board.

(** ** What the board renders, and the handlers written inline in it *)

Module View.
Import Board.

Record Column := { key : TaskStatus; label : string }.

Definition columns : list Column :=
  [ {| key := todo; label := "待办事项" |};
    {| key := doing; label := "进行中" |};
    {| key := done; label := "已完成" |} ].

(** [a === b] on statuses *)
Definition status_eqb (a b : TaskStatus) : bool :=
  match a, b with
  | todo, todo | doing, doing | done, done => true
  | _, _ => false
  end.

(** [tasks.filter((task) => task.status === column.key)] *)
Definition column_items (column : Column) (tasks : list Task) : list Task :=
  filter (fun task => status_eqb (status task) (key column)) tasks.

(** The three cards of the board: each column with its items; the badge
    shows the number of items. *)
Definition render_columns (tasks : list Task) : list (Column * list Task) :=
  map (fun column => (column, column_items column tasks)) columns.

(** [task.status !== "todo" && <Button onClick={() => moveBack(task.id)}>] *)
Definition shows_back (task : Task) : bool := negb (status_eqb (status task) todo).

(** [task.status !== "done" && <Button onClick={() => moveForward(task.id)}>] *)
Definition shows_forward (task : Task) : bool := negb (status_eqb (status task) done).

(** [nextActionLabel]: a record over the statuses other than [done]. *)
Definition nextActionLabel (s : TaskStatus) : option string :=
  match s with
  | todo => Some "开始开发"
  | doing => Some "标记完成"
  | done => None
  end.

(** [onClick] of a card's detail button *)
Definition openDetail (task : Task) : Handler :=
  setActiveTask (fun _ => Some task) >> setDialogOpen true.

(** [onOpenChange] of the dialog *)
Definition onOpenChange (open : bool) : Handler :=
  setDialogOpen open >> (if negb open then setActiveTask (fun _ => None) else skip).

(** [onClick] of the dialog's footer button *)
Definition closeDialog : Handler := setDialogOpen false.

(** [loadTasks] settling: [setTasks] with the list of the answer when it
    holds one, and [setLoading(false)] in its [finally]. *)
Definition loadSettled (loaded : option (list Task)) : Handler :=
  (match loaded with
   | Some items => setTasks items
   | None => skip
   end) >> setLoading false.

(** What can happen to the mounted component: the effect that marks it
    mounted, the request of [loadTasks] settling, with the list it sets if it
    sets one, one of the five operations, a click that opens the dialog on a
    task, the dialog reporting that it opens or closes, the footer button,
    typing into the form, and a request of [persistTasks] settling. *)
Inductive event :=
| Mounted
| LoadSettled (loaded : option (list Task))
| Operation (a : action)
| OpenDetail (task : Task)
| OpenChange (open : bool)
| CloseDialog
| TypeTitle (v : string)
| TypeDetail (v : string)
| PersistSettled.

Definition step (trim : string -> string) (e : event) : Handler :=
  match e with
  | Mounted => setMounted true
  | LoadSettled loaded => loadSettled loaded
  | Operation a => run trim a
  | OpenDetail task => openDetail task
  | OpenChange open => onOpenChange open
  | CloseDialog => closeDialog
  | TypeTitle v => setNewTitle v
  | TypeDetail v => setNewDetail v
  | PersistSettled => persistSettled
  end.

(** The state after the events, one after the other. *)
Definition after (trim : string -> string) (events : list event) (st : State) : State :=
  fold_left (fun st' e => fst (step trim e st')) events st.

(** The states the statements speak of. *)

(** An open dialog has a task to show. *)
Definition dialog_has_task (st : State) : Prop :=
  dialogOpen st = true -> activeTask st <> None.

(** The task of the dialog is, by its id, a task of the list. *)
Definition active_in_list (st : State) : Prop :=
  forall a, activeTask st = Some a -> In (id a) (map id (tasks st)).

(** The dialog holds a task as the list holds it. *)
Definition active_in_sync (st : State) : Prop :=
  forall a, activeTask st = Some a -> In a (tasks st).

(** [shown] is [list] with some of its elements left out, the others in the
    order of [list]. *)
Inductive in_order_of {A : Type} : list A -> list A -> Prop :=
| in_order_nil : in_order_of [] []
| in_order_skip x shown list : in_order_of shown list -> in_order_of shown (x :: list)
| in_order_keep x shown list : in_order_of shown list -> in_order_of (x :: shown) (x :: list).

(** A board whose dialog is closed. *)
Definition quiet_board : State :=
  {| tasks := [t_design; t_build; t_ship];
     newTitle := ""; newDetail := "";
     loading := false; saving := false; mounted := true;
     activeTask := None; dialogOpen := false |}.

(** The task that [addTask] makes of the title [Plan] and the id [u1]. *)
Definition t_plan : Task := {| id := "u1"; title := "Plan"; detail := ""; status := todo |}.

(** A task is added and opened in the dialog before the request of
    [loadTasks] is answered, with an empty list. *)
Definition late_load : list event :=
  [Mounted; TypeTitle "Plan"; Operation (AddTask "u1"); OpenDetail t_plan;
   LoadSettled (Some [])].

End View.

(** ** Between the board and the route: the requests [fetch] sends and the
    answers it gets *)

Module Wire.
Import Json Board.

Definition status_name (s : TaskStatus) : string :=
  match s with
  | todo => "todo"
  | doing => "doing"
  | done => "done"
  end.

Definition status_of_name (s : string) : option TaskStatus :=
  if (s =? "todo")%string then Some todo
  else if (s =? "doing")%string then Some doing
  else if (s =? "done")%string then Some done
  else None.

(** A [Task] of the board as the JavaScript object it is: the four members
    in the order in which [addTask] writes them and every spread keeps them. *)
Definition task_to_json (task : Task) : json :=
  JObj [("id", JStr (id task)); ("title", JStr (title task));
        ("detail", JStr (detail task)); ("status", JStr (status_name (status task)))].

(** The request [persistTasks] sends for a list:
    [body: JSON.stringify({ tasks: nextTasks })]. *)
Definition put_request (nextTasks : list Task) : Route.Request :=
  {| Route.text := serialize_compact (Route.tasks_body (map task_to_json nextTasks)) |}.

(** What [fetch] resolves to, or that it rejects. *)
Inductive fetched :=
| Rejected
| Answered (ok : bool) (body : string).

(** A response of the route on the wire: [response.ok] is a status from 200
    to 299. *)
Definition on_wire (response : Route.Response) : fetched :=
  Answered ((200 <=? Route.status response)%nat && (Route.status response <=? 299)%nat)
           (Route.body response).

(** [fetch("/api/tasks", { cache: "no-store" })] against a world.  A handler
    that throws is answered by the framework with an error status. *)
Definition fetch_GET (w : Route.world) : fetched :=
  match Route.GET w with
  | (Route.Ok response, _) => on_wire response
  | (Route.Throw _, _) => Answered false ""
  end.

(** [fetch("/api/tasks", { method: "PUT", ... })] against a world: the
    answer and the world the route leaves. *)
Definition fetch_PUT (nextTasks : list Task) (w : Route.world) : fetched * Route.world :=
  match Route.PUT (put_request nextTasks) w with
  | (Route.Ok response, w') => (on_wire response, w')
  | (Route.Throw _, w') => (Answered false "", w')
  end.

(** A call of a state setter by [loadTasks]; [setTasks] is given whatever
    array the answer holds. *)
Inductive call :=
| SetTasks (items : list json)
| SetLoading (v : bool).

(** How an async function ends: it returns, or it throws and its promise
    rejects. *)
Inductive completion := Returned | Thrown.

(** The [try] block of [loadTasks], given what its [fetch] came to: the
    setters it calls and how it ends.  [fetch] rejecting and [response.json()]
    throwing are not caught. *)
Definition loadTasks_try (response : fetched) : list call * completion :=
  match response with
  | Rejected => ([], Thrown)
  | Answered ok body =>
      if negb ok then ([], Returned)
      else
        match JSON_parse body with
        | None => ([], Thrown)
        | Some data =>
            if negb (truthy data) || negb (jstype_eqb (typeof data) TObject)
            then ([], Returned)
            else
              match as_array (prop data "tasks") with
              | Some items => ([SetTasks items], Returned)
              | None => ([], Returned)
              end
        end
  end.

(** [loadTasks]: the [try] block, then the [finally] that clears [loading],
    however the block ended. *)
Definition loadTasks (response : fetched) : list call * completion :=
  let (calls, ending) := loadTasks_try response in
  ((calls ++ [SetLoading false])%list, ending).

(** [items as Task[]], element by element: the cast checks nothing, and the
    objects [Task] describes are the ones [task_to_json] makes.  [None] is a
    value that the type does not describe and the state of [Module Board]
    cannot hold. *)
Definition as_Task (value : json) : option Task :=
  match value with
  | JObj [(k1, JStr i); (k2, JStr t); (k3, JStr d); (k4, JStr s)] =>
      if (k1 =? "id")%string && (k2 =? "title")%string
         && (k3 =? "detail")%string && (k4 =? "status")%string
      then ' st <- status_of_name s ;;
           Some {| id := i; title := t; detail := d; status := st |}
      else None
  | _ => None
  end.

Fixpoint as_Tasks (items : list json) : option (list Task) :=
  match items with
  | [] => Some []
  | x :: rest =>
      ' t <- as_Task x ;;
      ' ts <- as_Tasks rest ;;
      Some (t :: ts)
  end.

(** The calls on a state of the board, where the state can hold what
    [setTasks] is given. *)
Definition apply_call (c : call) (st : State) : option State :=
  match c with
  | SetTasks items => ' ts <- as_Tasks items ;; Some (fst (setTasks ts st))
  | SetLoading v => Some (fst (setLoading v st))
  end.

Fixpoint apply_calls (calls : list call) (st : State) : option State :=
  match calls with
  | [] => Some st
  | c :: rest => ' st' <- apply_call c st ;; apply_calls rest st'
  end.

(** The last value a list of calls gives to [loading], if it sets it. *)
Fixpoint last_loading (calls : list call) : option bool :=
  match calls with
  | [] => None
  | c :: rest =>
      match last_loading rest with
      | Some v => Some v
      | None => match c with SetLoading v => Some v | SetTasks _ => None end
      end
  end.

(** An answer that is well-formed JSON with a [tasks] array the board's
    [Task] type does not describe: a task with a member more. *)
Definition foreign_answer : fetched :=
  Answered true (serialize_compact (Route.tasks_body [Route.tagged_task])).

End Wire.

(** ** Notions the statements about the store and the operations use *)

Module Store.
Import Json Route.

(** The task list the store holds, when [readTasksFile] can read one. *)
Definition document (w : world) : option (list json) :=
  match fst (readTasksFile w) with
  | Ok tasks => Some tasks
  | Throw _ => None
  end.

End Store.

Module Compose.
Import Board.

(** The id an operation is given; [addTask] is given none. *)
Definition target (a : action) : option string :=
  match a with
  | AddTask _ => None
  | UpdateTask i _ | MoveForward i | MoveBack i | RemoveTask i => Some i
  end.

Definition merge (first second : Patch) : Patch :=
  {| patch_title := match patch_title second with
                    | Some v => Some v
                    | None => patch_title first
                    end;
     patch_detail := match patch_detail second with
                     | Some v => Some v
                     | None => patch_detail first
                     end |}.

(** What an operation other than [addTask] makes of one task of the list. *)
Definition on_task (a : action) (t : Task) : list Task :=
  match a with
  | AddTask _ => [t]
  | UpdateTask i patch => [if (id t =? i)%string then spread_patch t patch else t]
  | MoveForward i =>
      [if negb (id t =? i)%string then t
       else match status t with
            | todo => with_status t doing
            | doing => with_status t done
            | done => t
            end]
  | MoveBack i =>
      [if negb (id t =? i)%string then t
       else match status t with
            | done => with_status t doing
            | doing => with_status t todo
            | todo => t
            end]
  | RemoveTask i => if negb (id t =? i)%string then [t] else []
  end.

End Compose.


(** ** Numbers: what is read is a double, and a double is read back from
    what Number::toString writes *)

Module NumberFacts.
Import Json.

Local Open Scope Z_scope.

Lemma odd_part_spec m : forall e,
  is_odd (fst (odd_part m e)) = true /\
  e <= snd (odd_part m e) /\
  Z.pos m = Z.pos (fst (odd_part m e)) * 2 ^ (snd (odd_part m e) - e).
Proof.
  induction m as [p IH|p IH|]; intros e; cbn [odd_part fst snd is_odd].
  - rewrite Z.sub_diag. repeat split; lia.
  - destruct (IH (e + 1)) as [Hodd [Hle Hval]]. repeat split; [exact Hodd | lia |].
    replace (snd (odd_part p (e + 1)) - e)
      with (Z.succ (snd (odd_part p (e + 1)) - (e + 1))) by lia.
    rewrite Z.pow_succ_r by lia. lia.
  - rewrite Z.sub_diag. repeat split; lia.
Qed.

Lemma to_pos_double z : 0 < z -> Z.to_pos (2 * z) = xO (Z.to_pos z).
Proof. destruct z; first [lia | reflexivity]. Qed.

Lemma odd_part_shift m j x :
  is_odd m = true -> 0 <= j ->
  odd_part (Z.to_pos (Z.pos m * 2 ^ j)) x = (m, x + j).
Proof.
  intros Hodd Hj. revert x. pattern j. apply natlike_ind; [| |exact Hj].
  - intros x. rewrite Z.pow_0_r, Z.mul_1_r, Z.add_0_r. cbn [Z.to_pos].
    destruct m; try discriminate; reflexivity.
  - intros i Hi IH x. rewrite Z.pow_succ_r by assumption.
    replace (Z.pos m * (2 * 2 ^ i)) with (2 * (Z.pos m * 2 ^ i)) by ring.
    rewrite to_pos_double by (apply Z.mul_pos_pos; [lia | apply Z.pow_pos_nonneg; lia]).
    cbn [odd_part]. rewrite IH. f_equal. lia.
Qed.

Lemma odd_below m : is_odd m = true -> Z.pos m <= 2 ^ 53 -> Z.pos m < 2 ^ 53.
Proof.
  intros Hodd Hle. destruct (Z.eq_dec (Z.pos m) (2 ^ 53)) as [E|N]; [|lia].
  exfalso. injection E as ->. discriminate Hodd.
Qed.

(** The quotient that [Number_value] rounds has 53 bits at most. *)
Lemma quotient_bound S den :
  0 <= S -> 0 < den ->
  let b := Z.max 0 (Z.log2 (S / den) - 52) in
  0 <= S / (den * 2 ^ b) < 2 ^ 53.
Proof.
  intros HS Hden b.
  assert (Hb : 0 <= b) by (unfold b; lia).
  assert (Hpow : 0 < 2 ^ b) by (apply Z.pow_pos_nonneg; lia).
  rewrite <- Z.div_div by lia.
  assert (HN : 0 <= S / den) by (apply Z.div_pos; lia).
  split; [apply Z.div_pos; lia|].
  apply Z.div_lt_upper_bound; [lia|].
  destruct (Z.eq_dec (S / den) 0) as [E|NZ].
  - rewrite E. apply Z.mul_pos_pos; [lia | reflexivity].
  - pose proof (Z.log2_spec (S / den) ltac:(lia)) as [_ Hup].
    rewrite <- Z.pow_add_r by lia.
    eapply Z.lt_le_trans; [exact Hup|].
    apply Z.pow_le_mono_r; [lia|]. unfold b. lia.
Qed.

Lemma rounded_bound q r unit :
  0 <= q < 2 ^ 53 ->
  0 <= (if 2 * r <? unit then q else if unit <? 2 * r then q + 1
        else if Z.even q then q else q + 1) <= 2 ^ 53.
Proof.
  intros H. destruct (2 * r <? unit); [lia|].
  destruct (unit <? 2 * r); [lia|]. destruct (Z.even q); lia.
Qed.

(** The Number value of a fraction is a double. *)
Lemma Number_value_is_number negative num den :
  0 <= num -> 0 < den -> is_number (Number_value negative num den) = true.
Proof.
  intros Hnum Hden. unfold Number_value.
  set (S := num * 2 ^ 1074).
  set (b := Z.max 0 (Z.log2 (S / den) - 52)).
  set (unit := den * 2 ^ b).
  set (m := if 2 * (S mod unit) <? unit then S / unit
            else if unit <? 2 * (S mod unit) then S / unit + 1
            else if Z.even (S / unit) then S / unit else S / unit + 1).
  assert (HS : 0 <= S) by (unfold S; apply Z.mul_nonneg_nonneg; [lia | apply Z.pow_nonneg; lia]).
  assert (Hb : 0 <= b) by (unfold b; lia).
  pose proof (quotient_bound S den HS Hden) as Hq. cbv zeta in Hq. fold b in Hq. fold unit in Hq.
  pose proof (rounded_bound (S / unit) (S mod unit) unit Hq) as Hm. fold m in Hm.
  destruct (Z.eqb_spec m 0) as [E0|N0]; [reflexivity|].
  destruct (Z.leb_spec (2 ^ 2098) (m * 2 ^ b)) as [Hover|Hfit]; [reflexivity|].
  destruct (odd_part (Z.to_pos m) (b - 1074)) as [m' e'] eqn:Hop.
  pose proof (odd_part_spec (Z.to_pos m) (b - 1074)) as [Hodd [Hle Hval]].
  rewrite Hop in Hodd, Hle, Hval. cbn [fst snd] in Hodd, Hle, Hval.
  rewrite Z2Pos.id in Hval by lia.
  cbn [is_number]. unfold is_double. rewrite Hodd. cbn [andb].
  assert (Hp : 0 < 2 ^ (e' - (b - 1074))) by (apply Z.pow_pos_nonneg; lia).
  assert (Hm' : Z.pos m' <= 2 ^ 53) by nia.
  apply odd_below in Hm'; [|exact Hodd].
  apply andb_true_intro. split; [apply andb_true_intro; split|].
  - now apply Z.ltb_lt.
  - apply Z.leb_le. lia.
  - apply Z.ltb_lt.
    assert (Hv : Z.pos m' * 2 ^ (e' + 1074) = m * 2 ^ b).
    { rewrite Hval. replace (e' + 1074) with ((e' - (b - 1074)) + b) by lia.
      rewrite Z.pow_add_r by lia. ring. }
    assert (Hlog : Z.log2 (Z.pos m' * 2 ^ (e' + 1074)) < 2098).
    { apply Z.log2_lt_pow2; [|rewrite Hv; exact Hfit].
      apply Z.mul_pos_pos; [lia | apply Z.pow_pos_nonneg; lia]. }
    rewrite Z.log2_mul_pow2 in Hlog by lia. lia.
Qed.

(** A double is its own Number value. *)
Lemma Number_value_exact negative m e num den :
  is_double m e = true -> 0 < den ->
  num * 2 ^ 1074 = den * (Z.pos m * 2 ^ (e + 1074)) ->
  Number_value negative num den = Finite negative m e.
Proof.
  intros Hd Hden Hnum. unfold is_double in Hd.
  apply andb_prop in Hd. destruct Hd as [Hd Hmag].
  apply andb_prop in Hd. destruct Hd as [Hd Hexp].
  apply andb_prop in Hd. destruct Hd as [Hodd Hm].
  apply Z.ltb_lt in Hm, Hmag. apply Z.leb_le in Hexp.
  unfold Number_value. rewrite Hnum.
  set (Y := Z.pos m * 2 ^ (e + 1074)).
  assert (HY : 0 < Y) by (apply Z.mul_pos_pos; [lia | apply Z.pow_pos_nonneg; lia]).
  rewrite (Z.mul_comm den Y), Z.div_mul by lia.
  assert (HL : Z.log2 Y = Z.log2 (Z.pos m) + (e + 1074))
    by (unfold Y; rewrite Z.log2_mul_pow2 by lia; lia).
  assert (Hlm : Z.log2 (Z.pos m) < 53) by (apply Z.log2_lt_pow2; lia).
  pose proof (Z.log2_nonneg (Z.pos m)) as Hl0.
  set (b := Z.max 0 (Z.log2 Y - 52)).
  assert (Hb : 0 <= b <= e + 1074) by (unfold b; lia).
  set (j := e + 1074 - b).
  assert (HYb : Y = Z.pos m * 2 ^ j * 2 ^ b).
  { unfold Y, j. rewrite <- Z.mul_assoc, <- Z.pow_add_r by lia. f_equal. f_equal. lia. }
  assert (Hpb : 0 < 2 ^ b) by (apply Z.pow_pos_nonneg; lia).
  assert (Hpj : 0 < 2 ^ j) by (apply Z.pow_pos_nonneg; unfold j; lia).
  assert (Hunit : Y * den = Z.pos m * 2 ^ j * (den * 2 ^ b)) by (rewrite HYb; ring).
  rewrite Hunit.
  rewrite Z.div_mul, Z.mod_mul by nia.
  replace (2 * 0 <? den * 2 ^ b) with true by (symmetry; apply Z.ltb_lt; nia).
  destruct (Z.eqb_spec (Z.pos m * 2 ^ j) 0) as [E|_]; [nia|].
  rewrite <- HYb.
  destruct (Z.leb_spec (2 ^ 2098) Y) as [Hover|_].
  - exfalso. assert (Z.log2 Y < 2098) by lia.
    apply Z.log2_lt_pow2 in H; lia.
  - rewrite odd_part_shift by (assumption || (unfold j; lia)).
    f_equal. unfold j. lia.
Qed.

Lemma Number_value_sign negative num den :
  Number_value negative num den = set_sign negative (Number_value false num den).
Proof.
  unfold Number_value. cbv zeta.
  repeat match goal with |- context [if ?c then _ else _] => destruct c end;
    try reflexivity; now destruct (odd_part _ _).
Qed.

Lemma to_number_sign negative ds x :
  to_number negative ds x = set_sign negative (to_number false ds x).
Proof.
  unfold to_number. destruct (Z.of_uint ds =? 0); [reflexivity|].
  destruct (0 <=? x); apply Number_value_sign.
Qed.

Lemma of_uint_nonneg ds : 0 <= Z.of_uint ds.
Proof. unfold Z.of_uint. lia. Qed.

(** What a number literal is read as is a double. *)
Lemma to_number_is_number negative ds x : is_number (to_number negative ds x) = true.
Proof.
  unfold to_number. pose proof (of_uint_nonneg ds).
  destruct (Z.eqb_spec (Z.of_uint ds) 0); [reflexivity|].
  destruct (0 <=? x) eqn:Hx.
  - apply Number_value_is_number; [|lia].
    apply Z.mul_nonneg_nonneg; [lia | apply Z.pow_nonneg; lia].
  - apply Number_value_is_number; [lia|]. apply Z.pow_pos_nonneg; [lia|].
    apply Z.leb_gt in Hx. lia.
Qed.

Lemma number_eqb_eq a b : number_eqb a b = true -> a = b.
Proof.
  destruct a as [s|s m e|s], b as [s'|s' m' e'|s']; cbn; try discriminate.
  - intros H. apply Bool.eqb_prop in H. now subst.
  - intros H. apply andb_prop in H. destruct H as [H He].
    apply andb_prop in H. destruct H as [Hs Hm].
    apply Bool.eqb_prop in Hs. apply Pos.eqb_eq in Hm. apply Z.eqb_eq in He. now subst.
  - intros H. apply Bool.eqb_prop in H. now subst.
Qed.

Lemma of_to_uint p : Z.of_uint (Pos.to_uint p) = Z.pos p.
Proof. unfold Z.of_uint. now rewrite DecimalPos.Unsigned.of_to. Qed.

(** The decimal expansion of a double reads back as the double. *)
Lemma expansion_reads_back m e :
  is_double m e = true ->
  to_number false (fst (expansion m e)) (snd (expansion m e)) = Finite false m e.
Proof.
  intros Hd. pose proof Hd as Hd'. unfold is_double in Hd'.
  apply andb_prop in Hd'. destruct Hd' as [Hd' _].
  apply andb_prop in Hd'. destruct Hd' as [_ Hexp]. apply Z.leb_le in Hexp.
  unfold expansion, to_number.
  destruct (Z.leb_spec 0 e) as [He|He]; cbn [fst snd].
  - assert (Hpos : 0 < Z.pos m * 2 ^ e)
      by (apply Z.mul_pos_pos; [lia | apply Z.pow_pos_nonneg; lia]).
    rewrite of_to_uint, Z2Pos.id by exact Hpos.
    destruct (Z.eqb_spec (Z.pos m * 2 ^ e) 0); [lia|]. cbn [Z.leb Z.compare].
    apply Number_value_exact; [exact Hd | lia|].
    rewrite Z.pow_0_r, Z.pow_add_r by lia. ring.
  - assert (Hpos : 0 < Z.pos m * 5 ^ (- e))
      by (apply Z.mul_pos_pos; [lia | apply Z.pow_pos_nonneg; lia]).
    rewrite of_to_uint, Z2Pos.id by exact Hpos.
    destruct (Z.eqb_spec (Z.pos m * 5 ^ (- e)) 0); [lia|].
    destruct (Z.leb_spec 0 e); [lia|].
    apply Number_value_exact; [exact Hd | apply Z.pow_pos_nonneg; lia|].
    change 10 with (2 * 5). rewrite Z.pow_mul_l.
    replace 1074 with ((- e) + (e + 1074)) at 1 by lia.
    rewrite Z.pow_add_r by lia. ring.
Qed.

Lemma candidate_reads_back m e s x ds x' :
  candidate m e s x = Some (ds, x') ->
  to_number false ds x' = Finite false m e /\ exists p, ds = Pos.to_uint p.
Proof.
  unfold candidate. destruct (s <=? 0); [discriminate|].
  destruct (without_zeros 20 s x) as [s' x0].
  destruct (number_eqb _ _) eqn:E; [|discriminate].
  intros [= <- <-]. split; [now apply number_eqb_eq | eauto].
Qed.

Lemma digits_at_reads_back m e k ds x :
  digits_at m e k = Some (ds, x) ->
  to_number false ds x = Finite false m e /\ exists p, ds = Pos.to_uint p.
Proof.
  unfold digits_at. destruct (scaled m e (k - magnitude m e)) as [p q].
  destruct (2 * (p mod q) <=? q).
  - destruct (candidate m e (p / q) _) as [c|] eqn:E1.
    + intros [= ->]. eapply candidate_reads_back; eassumption.
    + apply candidate_reads_back.
  - destruct (candidate m e (p / q + 1) _) as [c|] eqn:E1.
    + intros [= ->]. eapply candidate_reads_back; eassumption.
    + apply candidate_reads_back.
Qed.

Lemma search_reads_back m e tries : forall k ds x,
  search m e tries k = Some (ds, x) ->
  to_number false ds x = Finite false m e /\ exists p, ds = Pos.to_uint p.
Proof.
  induction tries as [|t IH]; intros k ds x; cbn [search]; [discriminate|].
  destruct (digits_at m e k) as [c|] eqn:E.
  - intros [= ->]. eapply digits_at_reads_back; eassumption.
  - apply IH.
Qed.

(** The digits of Number::toString are those of a positive integer. *)
Lemma shortest_digits m e : exists p, fst (shortest m e) = Pos.to_uint p.
Proof.
  unfold shortest. destruct (search m e 17 1) as [[ds x]|] eqn:E.
  - apply search_reads_back in E. exact (proj2 E).
  - unfold expansion. destruct (0 <=? e); cbn [fst]; eauto.
Qed.

(** What Number::toString writes for a double reads back as the double. *)
Lemma shortest_reads_back negative m e :
  is_double m e = true ->
  to_number negative (fst (shortest m e)) (snd (shortest m e)) = Finite negative m e.
Proof.
  intros Hd. rewrite to_number_sign.
  assert (H : to_number false (fst (shortest m e)) (snd (shortest m e)) = Finite false m e).
  { unfold shortest. destruct (search m e 17 1) as [[ds x]|] eqn:E.
    - apply search_reads_back in E. exact (proj1 E).
    - now apply expansion_reads_back. }
  now rewrite H.
Qed.

Local Close Scope Z_scope.

Lemma append_assoc (a b c : string) : (a ++ b) ++ c = a ++ (b ++ c).
Proof. induction a as [|x a IH]; simpl; [reflexivity | now rewrite IH]. Qed.

Lemma read_digits_digits d rest :
  no_digit rest = true -> read_digits (digits d ++ rest) = (d, rest).
Proof.
  intros Hrest. unfold digits.
  induction d as [|d IH|d IH|d IH|d IH|d IH|d IH|d IH|d IH|d IH|d IH];
    simpl; try (rewrite IH; reflexivity).
  destruct rest as [|c r]; [reflexivity|].
  simpl in Hrest |- *. destruct (digit_of c); [discriminate | reflexivity].
Qed.

Lemma ends_number_no_digit rest : ends_number rest = true -> no_digit rest = true.
Proof.
  destruct rest as [|c r]; [reflexivity|]. simpl.
  destruct (digit_of c); [discriminate | reflexivity].
Qed.

Lemma read_fraction_none rest :
  ends_number rest = true -> read_fraction rest = Some (Decimal.Nil, rest).
Proof.
  destruct rest as [|c r]; [reflexivity|]. simpl.
  destruct (digit_of c); [discriminate|].
  destruct (c =? ".")%char; [discriminate | reflexivity].
Qed.

Lemma read_exponent_none rest :
  ends_number rest = true -> read_exponent rest = Some (0%Z, rest).
Proof.
  destruct rest as [|c r]; [reflexivity|]. simpl.
  destruct (digit_of c); [discriminate|].
  destruct (c =? ".")%char; [discriminate|].
  destruct (c =? "e")%char; [discriminate|].
  destruct (c =? "E")%char; [discriminate | reflexivity].
Qed.

Lemma nb_digits_nonnil d : d <> Decimal.Nil -> 0 < Decimal.nb_digits d.
Proof. destruct d; [congruence | simpl; lia ..]. Qed.

Lemma read_fraction_digits f rest :
  f <> Decimal.Nil -> no_digit rest = true ->
  read_fraction ("." ++ digits f ++ rest) = Some (f, rest).
Proof.
  intros Hf Hrest. cbn. rewrite read_digits_digits by assumption.
  destruct f; [congruence | reflexivity ..].
Qed.

Lemma to_uint_headed p : headed (Pos.to_uint p) = true.
Proof.
  pose proof (DecimalPos.Unsigned.to_of (Pos.to_uint p)) as H.
  rewrite DecimalPos.Unsigned.of_to in H. simpl in H.
  pose proof (DecimalFacts.nzhead_nonzero (Pos.to_uint p)) as Hnz.
  pose proof (DecimalPos.Unsigned.to_uint_nonzero p) as Hzero.
  rewrite H. unfold Decimal.unorm.
  destruct (Decimal.nzhead (Pos.to_uint p)) eqn:E; try reflexivity.
  - exfalso. apply Hzero. rewrite H. unfold Decimal.unorm. now rewrite E.
  - exfalso. eapply Hnz. reflexivity.
Qed.

Lemma headed_nonnil d : headed d = true -> d <> Decimal.Nil.
Proof. destruct d; [discriminate | congruence ..]. Qed.

Lemma headed_int_digits d : headed d = true -> int_digits d = true.
Proof. destruct d; try discriminate; reflexivity. Qed.

Lemma read_exponent_digits (x : Z) rest :
  x <> 0%Z -> no_digit rest = true ->
  read_exponent ("e" ++ (if (0 <=? x)%Z then "+" else "-")
                 ++ digits (Pos.to_uint (Z.to_pos (Z.abs x))) ++ rest)
  = Some (x, rest).
Proof.
  intros Hx Hrest.
  assert (Hnil : Pos.to_uint (Z.to_pos (Z.abs x)) <> Decimal.Nil)
    by apply DecimalPos.Unsigned.to_uint_nonnil.
  destruct (Z.leb_spec 0 x) as [H|H]; cbn;
    rewrite read_digits_digits by assumption;
    rewrite of_to_uint, Z2Pos.id by lia;
    destruct (Pos.to_uint (Z.to_pos (Z.abs x))); try congruence; f_equal; f_equal; lia.
Qed.

(** [to_number] looks at the value of the digits only. *)
Lemma to_number_value negative a b x y :
  Z.of_uint a = Z.of_uint b -> x = y -> to_number negative a x = to_number negative b y.
Proof. intros E ->. unfold to_number. now rewrite E. Qed.

Lemma headed_app d d' : headed d = true -> headed (Decimal.app d d') = true.
Proof.
  intros H.
  assert (E : DecimalFacts.to_list (Decimal.app d d')
              = (DecimalFacts.to_list d ++ DecimalFacts.to_list d')%list)
    by apply DecimalFacts.app_spec.
  destruct d; try discriminate H; cbn [DecimalFacts.to_list app] in E;
    destruct (Decimal.app _ d'); cbn [DecimalFacts.to_list] in E;
    try discriminate E; reflexivity.
Qed.

Lemma app_first_rest n : forall d,
  n <= Decimal.nb_digits d ->
  Decimal.app (first_digits n d) (Decimal.del_head n d) = d.
Proof.
  induction n as [|n IH]; intros d Hn.
  - cbn. apply DecimalFacts.app_nil_l.
  - destruct d; cbn [Decimal.nb_digits] in Hn; [lia|..];
      cbn [first_digits Decimal.del_head];
      apply DecimalFacts.to_list_inj; rewrite DecimalFacts.app_spec;
      cbn [DecimalFacts.to_list app]; f_equal;
      rewrite <- DecimalFacts.app_spec; f_equal; apply IH; lia.
Qed.

Lemma nb_digits_del_head n : forall d,
  n <= Decimal.nb_digits d ->
  Decimal.nb_digits (Decimal.del_head n d) = Decimal.nb_digits d - n.
Proof.
  induction n as [|n IH]; intros d Hn; [cbn; lia|].
  destruct d; cbn [Decimal.nb_digits] in Hn |- *; [lia|..]; cbn [Decimal.del_head];
    rewrite IH by lia; lia.
Qed.

Lemma headed_first_digits n d : headed d = true -> headed (first_digits (S n) d) = true.
Proof. destruct d; try discriminate; reflexivity. Qed.

Lemma of_uint_zeros n d : Z.of_uint (zeros n d) = Z.of_uint d.
Proof. induction n as [|n IH]; [reflexivity|]. cbn. exact IH. Qed.

Lemma nb_digits_zeros n d : Decimal.nb_digits (zeros n d) = n + Decimal.nb_digits d.
Proof. apply DecimalFacts.nb_digits_iter_D0. Qed.

Lemma iter_mul_10 n z : Nat.iter n (Z.mul 10) z = (z * 10 ^ Z.of_nat n)%Z.
Proof.
  induction n as [|n IH].
  - cbn. lia.
  - rewrite Nat2Z.inj_succ, Z.pow_succ_r by lia.
    rewrite DecimalPos.Unsigned.nat_iter_S, IH. ring.
Qed.

Lemma of_uint_app_zeros d n :
  Z.of_uint (Decimal.app d (zeros n Decimal.Nil)) = (Z.of_uint d * 10 ^ Z.of_nat n)%Z.
Proof. unfold zeros. rewrite DecimalZ.of_uint_iter_D0. apply iter_mul_10. Qed.

Lemma del_head_nonnil n d :
  n < Decimal.nb_digits d -> Decimal.del_head n d <> Decimal.Nil.
Proof.
  intros H E. pose proof (nb_digits_del_head n d ltac:(lia)) as L.
  rewrite E in L. cbn in L. lia.
Qed.

Local Open Scope Z_scope.

Section Formats.

Variables (negative : bool) (ds : Decimal.uint) (rest : string).
Hypothesis Hds : headed ds = true.
Hypothesis Hrest : ends_number rest = true.

Let k := Z.of_nat (Decimal.nb_digits ds).

Lemma digits_count_positive : 1 <= k.
Proof.
  pose proof (nb_digits_nonnil ds (headed_nonnil _ Hds)). unfold k. lia.
Qed.

(** The digits with zeros after them. *)
Lemma parse_digits_and_zeros x :
  0 <= x ->
  parse_unsigned negative (digits (Decimal.app ds (zeros (Z.to_nat x) Decimal.Nil)) ++ rest)
  = Some (to_number negative ds x, rest).
Proof.
  intros Hx. unfold parse_unsigned.
  rewrite read_digits_digits by now apply ends_number_no_digit.
  rewrite (headed_int_digits _ (headed_app _ _ Hds)).
  rewrite read_fraction_none, read_exponent_none by assumption.
  rewrite DecimalFacts.app_nil_r. f_equal. f_equal.
  unfold to_number. rewrite of_uint_app_zeros, Z2Nat.id by lia.
  cbn [Decimal.nb_digits Z.of_nat].
  pose proof (of_uint_nonneg ds).
  assert (Hp : 0 < 10 ^ x) by (apply Z.pow_pos_nonneg; lia).
  destruct (Z.eqb_spec (Z.of_uint ds) 0) as [E|N].
  - rewrite E. reflexivity.
  - destruct (Z.eqb_spec (Z.of_uint ds * 10 ^ x) 0); [nia|].
    replace (0 <=? x) with true by (symmetry; apply Z.leb_le; lia).
    cbn [Z.sub Z.opp Z.add Z.leb Z.compare]. now rewrite Z.pow_0_r, Z.mul_1_r.
Qed.

(** A point inside the digits. *)
Lemma parse_point_inside n :
  0 < n < k ->
  parse_unsigned negative
    ((digits (first_digits (Z.to_nat n) ds) ++ "."
      ++ digits (Decimal.del_head (Z.to_nat n) ds)) ++ rest)
  = Some (to_number negative ds (n - k), rest).
Proof.
  intros Hn. unfold parse_unsigned, k in *.
  rewrite !append_assoc. rewrite read_digits_digits by reflexivity.
  destruct (Z.to_nat n) as [|n'] eqn:En; [lia|].
  rewrite (headed_int_digits _ (headed_first_digits n' _ Hds)).
  rewrite read_fraction_digits
    by ((now apply ends_number_no_digit) || (apply del_head_nonnil; lia)).
  rewrite read_exponent_none by assumption.
  rewrite app_first_rest by lia. f_equal. f_equal. f_equal.
  rewrite nb_digits_del_head by lia. lia.
Qed.

(** Zeros between the point and the digits. *)
Lemma parse_zeros_and_digits n :
  n <= 0 ->
  parse_unsigned negative (("0." ++ digits (zeros (Z.to_nat (- n)) ds)) ++ rest)
  = Some (to_number negative ds (n - k), rest).
Proof.
  intros Hn. unfold parse_unsigned, k.
  change (("0." ++ ?s) ++ rest)%string with (String "0" ("." ++ s ++ rest)).
  change (read_digits (String "0" ("." ++ ?s))) with (Decimal.D0 Decimal.Nil, "." ++ s)%string.
  cbv iota. cbn [int_digits].
  rewrite read_fraction_digits.
  - rewrite read_exponent_none by assumption. f_equal. f_equal.
    apply to_number_value.
    + change (Decimal.app (Decimal.D0 Decimal.Nil) ?d) with (Decimal.D0 d).
      change (Z.of_uint (Decimal.D0 ?d)) with (Z.of_uint d). apply of_uint_zeros.
    + rewrite nb_digits_zeros. lia.
  - intros E. pose proof (nb_digits_zeros (Z.to_nat (- n)) ds) as L.
    rewrite E in L. pose proof digits_count_positive. unfold k in *. cbn in L. lia.
  - now apply ends_number_no_digit.
Qed.

(** One digit, a point and the others if there are any, and an exponent. *)
Lemma parse_with_exponent n :
  n <> 1 ->
  parse_unsigned negative
    (((if k =? 1 then digits ds
       else digits (first_digits 1 ds) ++ "." ++ digits (Decimal.del_head 1 ds))
      ++ "e" ++ (if 0 <=? n - 1 then "+" else "-")
      ++ digits (Pos.to_uint (Z.to_pos (Z.abs (n - 1))))) ++ rest)
  = Some (to_number negative ds (n - k), rest).
Proof.
  intros Hn. pose proof digits_count_positive as Hk. unfold parse_unsigned.
  pose proof (ends_number_no_digit _ Hrest) as Hnd.
  destruct (Z.eqb_spec k 1) as [Ek|Nk].
  - rewrite !append_assoc. rewrite read_digits_digits by reflexivity.
    rewrite (headed_int_digits _ Hds).
    change (read_fraction ("e" ++ ?s)) with (Some (Decimal.Nil, "e" ++ s)%string). cbv iota.
    rewrite read_exponent_digits by (assumption || lia).
    rewrite DecimalFacts.app_nil_r. f_equal. f_equal. f_equal.
    cbn [Decimal.nb_digits Z.of_nat]. lia.
  - unfold k in *. rewrite !append_assoc. rewrite read_digits_digits by reflexivity.
    rewrite (headed_int_digits _ (headed_first_digits 0 _ Hds)).
    rewrite read_fraction_digits by (reflexivity || (apply del_head_nonnil; lia)).
    rewrite read_exponent_digits by (assumption || lia).
    rewrite app_first_rest by lia. f_equal. f_equal. f_equal.
    rewrite nb_digits_del_head by lia. lia.
Qed.

(** A number that Number::toString has written is read back from the digits
    it was written with. *)
Lemma parse_unsigned_format x :
  parse_unsigned negative (format ds x ++ rest) = Some (to_number negative ds x, rest).
Proof.
  pose proof digits_count_positive as Hk. unfold format. fold k.
  destruct (Z.leb_spec k (k + x)) as [H1|H1];
    destruct (Z.leb_spec (k + x) 21) as [H2|H2];
    destruct (Z.ltb_spec 0 (k + x)) as [H3|H3];
    destruct (Z.ltb_spec (-6) (k + x)) as [H4|H4];
    destruct (Z.leb_spec (k + x) 0) as [H5|H5]; cbn [andb]; try lia.
  all: try (replace (k + x - k) with x by lia; apply parse_digits_and_zeros; lia).
  all: first [ rewrite parse_with_exponent by lia
             | rewrite parse_point_inside by lia
             | rewrite parse_zeros_and_digits by lia ];
    f_equal; f_equal; f_equal; lia.
Qed.

End Formats.

Local Close Scope Z_scope.

Lemma parse_unsigned_head negative s r :
  parse_unsigned negative s = Some r -> read_sign s = (false, s).
Proof.
  destruct s as [|c s']; [reflexivity|]. unfold parse_unsigned, read_sign.
  destruct (Ascii.eqb_spec c "-") as [->|_]; [cbn; discriminate | reflexivity].
Qed.

(** What was written for a finite number is read back by [parse_number]. *)
Lemma parse_number_written (negative : bool) ds x rest :
  headed ds = true -> ends_number rest = true ->
  parse_number ((if negative then "-" else "") ++ format ds x ++ rest)
  = Some (to_number negative ds x, rest).
Proof.
  intros Hds Hrest. unfold parse_number. destruct negative.
  - change (read_sign ("-" ++ ?s)) with (true, s). cbv iota.
    now apply parse_unsigned_format.
  - change ("" ++ format ds x ++ rest) with (format ds x ++ rest).
    pose proof (parse_unsigned_format false ds rest Hds Hrest x) as H.
    rewrite (parse_unsigned_head false _ _ H). exact H.
Qed.

Lemma parse_number_finite negative m e rest :
  ends_number rest = true ->
  parse_number (number_to_string (Finite negative m e) ++ rest)
  = Some (to_number negative (fst (shortest m e)) (snd (shortest m e)), rest).
Proof.
  intros Hrest. cbn [number_to_string].
  destruct (shortest_digits m e) as [p Hp].
  destruct (shortest m e) as [ds x]. cbn [fst snd] in *. subst ds.
  rewrite append_assoc. apply parse_number_written; [apply to_uint_headed | assumption].
Qed.

Lemma parse_number_zero negative rest :
  ends_number rest = true ->
  parse_number (number_to_string (Zero negative) ++ rest) = Some (Zero false, rest).
Proof.
  intros Hrest. cbn [number_to_string]. unfold parse_number.
  change (read_sign ("0" ++ rest)) with (false, String "0" rest).
  cbv iota. unfold parse_unsigned.
  change (String "0" rest) with (digits (Decimal.D0 Decimal.Nil) ++ rest).
  rewrite read_digits_digits by now apply ends_number_no_digit.
  cbn [int_digits]. now rewrite read_fraction_none, read_exponent_none.
Qed.

(** A text that [parse_number] reads starts with a sign or a digit, and what
    it reads is a double. *)
Lemma parse_number_head s r : parse_number s = Some r -> number_head s = true.
Proof.
  destruct s as [|c s']; [discriminate|]. unfold parse_number, read_sign, number_head.
  destruct (c =? "-")%char; [reflexivity|]. cbn [orb].
  unfold parse_unsigned. cbn [read_digits].
  destruct (digit_of c); [reflexivity | discriminate].
Qed.

Lemma parse_number_is_number s n rest :
  parse_number s = Some (n, rest) -> is_number n = true.
Proof.
  unfold parse_number. destruct (read_sign s) as [negative s1]. unfold parse_unsigned.
  destruct (read_digits s1) as [i r1]. destruct (int_digits i); [|discriminate].
  destruct (read_fraction r1) as [[f r2]|]; [|discriminate].
  destruct (read_exponent r2) as [[x r3]|]; [|discriminate].
  intros [= <- _]. apply to_number_is_number.
Qed.

End NumberFacts.

(** ** Objects: the members in the order of enumeration *)

Module ObjectFacts.
Import Json.

Lemma ordered_cons k names :
  ordered (k :: names) = forallb (behind k) names && ordered names.
Proof. reflexivity. Qed.

Lemma goes_before_asym a b : goes_before a b = true -> goes_before b a = false.
Proof.
  unfold goes_before. destruct (array_index a) as [i|], (array_index b) as [j|];
    try discriminate; try reflexivity.
  intros H. apply N.ltb_lt in H. apply N.ltb_ge. lia.
Qed.

Lemma goes_before_trans a b c :
  goes_before a b = true -> goes_before b c = true -> goes_before a c = true.
Proof.
  unfold goes_before.
  destruct (array_index a) as [i|], (array_index b) as [j|], (array_index c) as [l|];
    try discriminate; try reflexivity.
  intros H1 H2. apply N.ltb_lt in H1, H2. apply N.ltb_lt. lia.
Qed.

Lemma goes_before_irrefl a : goes_before a a = false.
Proof.
  unfold goes_before. destruct (array_index a); [|reflexivity]. apply N.ltb_irrefl.
Qed.

Lemma define_names k v ms x :
  In x (map fst (define k v ms)) -> x = k \/ In x (map fst ms).
Proof.
  induction ms as [|[k' v'] ms IH]; cbn [define].
  - intros [<-|[]]. now left.
  - destruct (String.eqb_spec k' k) as [->|N].
    + cbn. intros [<-|H]; auto.
    + destruct (goes_before k k').
      * cbn. intros [<-|[<-|H]]; auto.
      * cbn. intros [<-|H]; [auto|]. destruct (IH H); auto.
Qed.

Lemma define_members k v ms m : In m (define k v ms) -> m = (k, v) \/ In m ms.
Proof.
  induction ms as [|[k' v'] ms IH]; cbn [define].
  - intros [<-|[]]. now left.
  - destruct (k' =? k)%string.
    + intros [<-|H]; [now left | right; now right].
    + destruct (goes_before k k').
      * intros [<-|H]; [now left | now right].
      * intros [<-|H]; [right; now left|]. destruct (IH H); [now left | right; now right].
Qed.

Lemma define_ordered k v ms :
  ordered (map fst ms) = true -> ordered (map fst (define k v ms)) = true.
Proof.
  induction ms as [|[k' v'] ms IH]; intros Hord; [reflexivity|].
  cbn [map fst] in Hord. rewrite ordered_cons in Hord.
  apply andb_prop in Hord. destruct Hord as [Hk' Hrest].
  rewrite forallb_forall in Hk'.
  cbn [define]. destruct (String.eqb_spec k' k) as [->|N].
  - cbn [map fst]. rewrite ordered_cons. apply andb_true_intro. split; [|exact Hrest].
    now apply forallb_forall.
  - destruct (goes_before k k') eqn:G.
    + cbn [map fst]. rewrite !ordered_cons.
      apply andb_true_intro. split; [|apply andb_true_intro; split;
                                       [now apply forallb_forall | exact Hrest]].
      apply forallb_forall. intros x [<-|Hx].
      * unfold behind. rewrite (goes_before_asym _ _ G).
        destruct (String.eqb_spec k' k); [contradiction | reflexivity].
      * specialize (Hk' x Hx). unfold behind in Hk' |- *.
        apply andb_prop in Hk'. destruct Hk' as [Hne Hnb].
        apply negb_true_iff in Hnb.
        apply andb_true_intro. split; apply negb_true_iff.
        -- apply String.eqb_neq. intros ->. congruence.
        -- destruct (goes_before x k) eqn:Gx; [|reflexivity].
           rewrite (goes_before_trans _ _ _ Gx G) in Hnb. discriminate.
    + cbn [map fst]. rewrite ordered_cons.
      apply andb_true_intro. split; [|now apply IH].
      apply forallb_forall. intros x Hx.
      destruct (define_names _ _ _ _ Hx) as [->|Hin]; [|now apply Hk'].
      unfold behind. rewrite G.
      destruct (String.eqb_spec k k'); [congruence | reflexivity].
Qed.

Lemma fold_define_ordered ms : forall acc,
  ordered (map fst acc) = true ->
  ordered (map fst (fold_left (fun members '(k, v) => define k v members) ms acc)) = true.
Proof.
  induction ms as [|[k v] ms IH]; intros acc Hacc; [exact Hacc|].
  cbn [fold_left]. apply IH. now apply define_ordered.
Qed.

(** The object that [object_of] makes has its names in the order of
    enumeration, and holds members it was given only. *)
Lemma object_of_ordered ms : ordered (map fst (object_of ms)) = true.
Proof. now apply fold_define_ordered. Qed.

Lemma fold_define_members ms : forall acc m,
  In m (fold_left (fun members '(k, v) => define k v members) ms acc) ->
  In m acc \/ In m ms.
Proof.
  induction ms as [|[k v] ms IH]; intros acc m; cbn [fold_left]; [auto|].
  intros H. destruct (IH _ _ H) as [H1|H1]; [|right; now right].
  destruct (define_members _ _ _ _ H1) as [->|H2]; [right; now left | now left].
Qed.

Lemma object_of_members ms m : In m (object_of ms) -> In m ms.
Proof. intros H. destruct (fold_define_members ms [] m H) as [[]|H']. exact H'. Qed.

Lemma define_behind k v ms :
  forallb (fun k' => behind k' k) (map fst ms) = true -> define k v ms = (ms ++ [(k, v)])%list.
Proof.
  induction ms as [|[k' v'] ms IH]; intros H; [reflexivity|].
  cbn [map fst forallb] in H. apply andb_prop in H. destruct H as [Hb Hrest].
  unfold behind in Hb. apply andb_prop in Hb. destruct Hb as [Hne Hnb].
  apply negb_true_iff in Hne, Hnb.
  cbn [define]. rewrite String.eqb_sym, Hne, Hnb. cbn [app]. now rewrite IH.
Qed.

Lemma ordered_app_behind l1 k l2 :
  ordered (l1 ++ k :: l2)%list = true -> forallb (fun k' => behind k' k) l1 = true.
Proof.
  induction l1 as [|a l1 IH]; [reflexivity|].
  cbn [app]. rewrite ordered_cons. intros H.
  apply andb_prop in H. destruct H as [Ha Hrest].
  cbn [forallb]. rewrite (IH Hrest), andb_true_r.
  rewrite forallb_forall in Ha. apply Ha. apply in_or_app. right. now left.
Qed.

Lemma fold_define_id ms : forall acc,
  ordered (map fst (acc ++ ms)%list) = true ->
  fold_left (fun members '(k, v) => define k v members) ms acc = (acc ++ ms)%list.
Proof.
  induction ms as [|[k v] ms IH]; intros acc H; [now rewrite List.app_nil_r|].
  cbn [fold_left]. rewrite define_behind.
  - rewrite IH; rewrite <- List.app_assoc; [reflexivity | exact H].
  - rewrite List.map_app in H. cbn [map fst] in H. now apply ordered_app_behind in H.
Qed.

(** An object of JavaScript is the object its own members make. *)
Lemma object_of_id ms : ordered (map fst ms) = true -> object_of ms = ms.
Proof. intros H. now apply (fold_define_id ms []). Qed.

(** A property read finds in the object what it finds in the members the
    object was made of. *)
Lemma lookup_absent k members :
  (forall k' v, In (k', v) members -> k' <> k) -> lookup k members = None.
Proof.
  induction members as [|[k' v] ms IH]; intros H; simpl; [reflexivity|].
  rewrite IH by (intros k0 v0 Hin; apply (H k0 v0); now right).
  destruct (String.eqb_spec k' k) as [E|_]; [|reflexivity].
  exfalso. apply (H k' v); [now left | exact E].
Qed.

Lemma lookup_not_named k members : ~ In k (map fst members) -> lookup k members = None.
Proof.
  intros H. apply lookup_absent. intros k' v Hin ->. apply H.
  apply in_map_iff. exists (k, v). split; [reflexivity | exact Hin].
Qed.

Lemma lookup_In k members v : lookup k members = Some v -> In (k, v) members.
Proof.
  induction members as [|[k' v'] ms IH]; cbn [lookup]; [discriminate|].
  destruct (lookup k ms) as [x|].
  - intros [= <-]. right. now apply IH.
  - destruct (String.eqb_spec k' k) as [->|_]; [|discriminate].
    intros [= <-]. now left.
Qed.

Lemma behind_all_not_named k names :
  forallb (behind k) names = true -> ~ In k names.
Proof.
  intros H Hin. rewrite forallb_forall in H. specialize (H k Hin).
  unfold behind in H. now rewrite String.eqb_refl in H.
Qed.

Lemma lookup_define k k' v members :
  ordered (map fst members) = true ->
  lookup k (define k' v members) = if (k' =? k)%string then Some v else lookup k members.
Proof.
  induction members as [|[k0 v0] ms IH]; intros Hord; [reflexivity|].
  cbn [map fst] in Hord. rewrite ordered_cons in Hord.
  apply andb_prop in Hord. destruct Hord as [Hk0 Hrest].
  cbn [define]. destruct (String.eqb_spec k0 k') as [->|N].
  - cbn [lookup]. destruct (String.eqb_spec k' k) as [->|N']; [|reflexivity].
    now rewrite (lookup_not_named k ms) by now apply behind_all_not_named.
  - destruct (goes_before k' k0) eqn:G.
    + change (lookup k ((k', v) :: (k0, v0) :: ms))
        with (match lookup k ((k0, v0) :: ms) with
              | Some x => Some x
              | None => if (k' =? k)%string then Some v else None
              end).
      destruct (String.eqb_spec k' k) as [->|N']; [|now destruct (lookup k ((k0, v0) :: ms))].
      rewrite lookup_not_named; [reflexivity|].
      cbn [map fst]. intros [E|Hin]; [congruence|].
      rewrite forallb_forall in Hk0. specialize (Hk0 k Hin).
      unfold behind in Hk0. rewrite G in Hk0. now rewrite andb_false_r in Hk0.
    + cbn [lookup]. rewrite (IH Hrest).
      destruct (String.eqb_spec k' k) as [->|N']; [reflexivity|].
      reflexivity.
Qed.

Lemma lookup_fold_define k ms : forall acc,
  ordered (map fst acc) = true ->
  lookup k (fold_left (fun members '(k', v) => define k' v members) ms acc)
  = match lookup k ms with
    | Some v => Some v
    | None => lookup k acc
    end.
Proof.
  induction ms as [|[k' v] ms IH]; intros acc Hacc; [reflexivity|].
  cbn [fold_left lookup]. rewrite IH by now apply define_ordered.
  rewrite lookup_define by assumption.
  destruct (lookup k ms); [reflexivity|]. now destruct (k' =? k)%string.
Qed.

Lemma lookup_object_of k ms : lookup k (object_of ms) = lookup k ms.
Proof.
  unfold object_of. rewrite lookup_fold_define by reflexivity.
  now destruct (lookup k ms).
Qed.

Lemma lookup_map (f : json -> json) k ms :
  lookup k (map (fun m => (fst m, f (snd m))) ms) = option_map f (lookup k ms).
Proof.
  induction ms as [|[k' v] ms IH]; [reflexivity|].
  cbn [map lookup fst snd]. rewrite IH.
  destruct (lookup k ms); [reflexivity|].
  now destruct (k' =? k)%string.
Qed.

End ObjectFacts.

(** ** [JSON.parse] reads back what [JSON.stringify] writes *)

Module JsonFacts.
Import Json NumberFacts ObjectFacts.

Lemma length_append (a b : string) : String.length (a ++ b) = String.length a + String.length b.
Proof. induction a as [|x a IH]; simpl; [reflexivity | now rewrite IH]. Qed.

Lemma append_empty (a : string) : a ++ "" = a.
Proof. induction a as [|x a IH]; simpl; [reflexivity | now rewrite IH]. Qed.

Lemma skip_ws_pad n s : skip_ws (pad n ++ s) = skip_ws s.
Proof. induction n as [|n IH]; simpl; [reflexivity | exact IH]. Qed.

Lemma parse_chars_escape_char c t :
  parse_chars (escape_char c ++ t) =
  ' (u, rest) <- parse_chars t ;; Some (String c u, rest).
Proof.
  destruct c as [[|] [|] [|] [|] [|] [|] [|] [|]]; reflexivity.
Qed.

(** *** Surrogates *)

Lemma surrogate_inv a b c n :
  surrogate a b c = Some n ->
  (N_of_ascii a = 237 /\ 160 <= N_of_ascii b <= 191 /\ 128 <= N_of_ascii c <= 191 /\
   n = 53248 + (N_of_ascii b - 128) * 64 + (N_of_ascii c - 128))%N.
Proof.
  unfold surrogate. cbv zeta.
  destruct (N.eqb_spec (N_of_ascii a) 237) as [Ha|_]; [|discriminate].
  destruct (N.leb_spec 160 (N_of_ascii b)) as [Hb|_]; [|discriminate].
  destruct (N.leb_spec (N_of_ascii b) 191) as [Hb'|_]; [|discriminate].
  destruct (N.leb_spec 128 (N_of_ascii c)) as [Hc|_]; [|discriminate].
  destruct (N.leb_spec (N_of_ascii c) 191) as [Hc'|_]; [|discriminate].
  cbn [andb]. intros E. apply (f_equal (fun o => match o with Some x => x | None => n end)) in E.
  symmetry in E. auto.
Qed.

Lemma hex_val_hex_digit d : (d < 16)%N -> hex_val (hex_digit d) = Some d.
Proof.
  intros H.
  assert (E : (d = 0 \/ d = 1 \/ d = 2 \/ d = 3 \/ d = 4 \/ d = 5 \/ d = 6 \/ d = 7 \/
               d = 8 \/ d = 9 \/ d = 10 \/ d = 11 \/ d = 12 \/ d = 13 \/ d = 14 \/ d = 15)%N)
    by lia.
  repeat (destruct E as [->|E]; [reflexivity|]). subst. reflexivity.
Qed.

Lemma hex4_unicode n :
  (n < 65536)%N ->
  hex4 (hex_digit (n / 4096)) (hex_digit ((n / 256) mod 16))
       (hex_digit ((n / 16) mod 16)) (hex_digit (n mod 16)) = Some n.
Proof.
  intros H. unfold hex4.
  rewrite !hex_val_hex_digit
    by (zify; Z.to_euclidean_division_equations; lia).
  f_equal. zify. Z.to_euclidean_division_equations. lia.
Qed.

Lemma surrogate_below a b c n : surrogate a b c = Some n -> (2048 <= n < 65536)%N.
Proof. intros H. apply surrogate_inv in H. lia. Qed.

(** The bytes of a surrogate are its layout. *)
Lemma utf8_surrogate a b c n t :
  surrogate a b c = Some n -> utf8 n t = String a (String b (String c t)).
Proof.
  intros H. pose proof (surrogate_below _ _ _ _ H) as Hn.
  apply surrogate_inv in H. destruct H as [Ha [Hb [Hc ->]]].
  unfold utf8.
  destruct (N.ltb_spec (53248 + (N_of_ascii b - 128) * 64 + (N_of_ascii c - 128)) 128);
    [lia|].
  destruct (N.ltb_spec (53248 + (N_of_ascii b - 128) * 64 + (N_of_ascii c - 128)) 2048);
    [lia|].
  destruct (N.ltb_spec (53248 + (N_of_ascii b - 128) * 64 + (N_of_ascii c - 128)) 65536);
    [|lia].
  unfold byte.
  replace (224 + (53248 + (N_of_ascii b - 128) * 64 + (N_of_ascii c - 128)) / 4096)%N
    with (N_of_ascii a) by (zify; Z.to_euclidean_division_equations; lia).
  replace (128 + ((53248 + (N_of_ascii b - 128) * 64 + (N_of_ascii c - 128)) / 64) mod 64)%N
    with (N_of_ascii b) by (zify; Z.to_euclidean_division_equations; lia).
  replace (128 + (53248 + (N_of_ascii b - 128) * 64 + (N_of_ascii c - 128)) mod 64)%N
    with (N_of_ascii c) by (zify; Z.to_euclidean_division_equations; lia).
  now rewrite !ascii_N_embedding.
Qed.

(** A byte of a character outside ASCII is read as it is. *)
Lemma parse_chars_raw x t :
  (128 <=? N_of_ascii x)%N = true ->
  parse_chars (String x t) = ' (u, rest) <- parse_chars t ;; Some (String x u, rest).
Proof.
  destruct x as [[|] [|] [|] [|] [|] [|] [|] [|]]; intros H;
    first [discriminate H | reflexivity].
Qed.

(** An escape of four digits is read as one character, unless it is a high
    surrogate and the escape of a low one follows. *)
Lemma parse_chars_unicode h3 h2 h1 h0 hi r2 :
  hex4 h3 h2 h1 h0 = Some hi ->
  (is_high_surrogate hi = true -> no_low_escape r2) ->
  parse_chars (String backslash (String "u" (String h3 (String h2 (String h1 (String h0 r2))))))
  = ' (t, rest) <- parse_chars r2 ;; Some (utf8 hi t, rest).
Proof.
  intros Hhex Hno.
  change (parse_chars (String backslash (String "u" (String h3 (String h2 (String h1 (String h0 r2)))))))
    with (' hi' <- hex4 h3 h2 h1 h0 ;;
          let single := ' (t, rest) <- parse_chars r2 ;; Some (utf8 hi' t, rest) in
          if is_high_surrogate hi' then
            match r2 with
            | String b (String u (String l3 (String l2 (String l1 (String l0 r3))))) =>
                match hex4 l3 l2 l1 l0 with
                | Some lo =>
                    if (b =? backslash)%char && (u =? "u")%char && is_low_surrogate lo
                    then
                      ' (t, rest) <- parse_chars r3 ;;
                      Some (utf8 (65536 + (hi' - 55296) * 1024 + (lo - 56320)) t, rest)
                    else single
                | None => single
                end
            | _ => single
            end
          else single).
  rewrite Hhex. cbv zeta.
  destruct (is_high_surrogate hi); [|reflexivity].
  specialize (Hno eq_refl).
  destruct r2 as [|b [|u [|l3 [|l2 [|l1 [|l0 r3]]]]]]; try reflexivity.
  destruct (hex4 l3 l2 l1 l0) as [lo|] eqn:Hlo; [|reflexivity].
  destruct (Ascii.eqb_spec b backslash) as [->|]; [|reflexivity].
  destruct (Ascii.eqb_spec u "u"%char) as [->|]; [|reflexivity].
  now rewrite (Hno _ _ _ _ _ _ eq_refl Hlo).
Qed.

Lemma escape_char_no_low a rest : no_low_escape (escape_char a ++ rest).
Proof.
  destruct a as [[|] [|] [|] [|] [|] [|] [|] [|]];
    intros l3 l2 l1 l0 r3 lo E Hhex; vm_compute in E; try discriminate E;
    inversion E; subst; vm_compute in Hhex; inversion Hhex; reflexivity.
Qed.

Lemma backslash_code : N_of_ascii backslash = 92%N.
Proof. reflexivity. Qed.

(** What is written for a string that does not start with a low surrogate
    does not start with the escape of one. *)
Lemma escape_no_low s rest :
  starts_low s = false -> no_low_escape (escape s ++ String dquote rest).
Proof.
  intros Hlow. destruct s as [|a s1].
  { intros l3 l2 l1 l0 r3 lo E _. cbn [escape append] in E. discriminate E. }
  assert (Hchar : no_low_escape ((escape_char a ++ escape s1) ++ String dquote rest))
    by (rewrite append_assoc; apply escape_char_no_low).
  destruct s1 as [|b [|c s3]]; try exact Hchar.
  cbn [escape]. cbn [starts_low] in Hlow.
  destruct (surrogate a b c) as [n|] eqn:Hs; [|exact Hchar].
  assert (Hlone : no_low_escape ((unicode_escape n ++ escape s3) ++ String dquote rest)).
  { intros l3 l2 l1 l0 r3 lo E Hhex. cbn [unicode_escape append] in E.
    injection E as <- <- <- <- _.
    rewrite hex4_unicode in Hhex by (apply surrogate_below in Hs; lia).
    now injection Hhex as <-. }
  destruct s3 as [|a' [|b' [|c' s6]]]; try exact Hlone.
  destruct (is_high_surrogate n && starts_low (String a' (String b' (String c' s6))));
    [|exact Hlone].
  intros l3 l2 l1 l0 r3 lo E _. cbn [append] in E. injection E as E _.
  apply surrogate_inv in Hs. destruct Hs as [Ha _].
  apply (f_equal N_of_ascii) in E. rewrite Ha, backslash_code in E. discriminate E.
Qed.

Lemma surrogate_bytes a b c n :
  surrogate a b c = Some n ->
  (128 <=? N_of_ascii a)%N = true /\ (128 <=? N_of_ascii b)%N = true /\
  (128 <=? N_of_ascii c)%N = true.
Proof.
  intros H. apply surrogate_inv in H. destruct H as [Ha [Hb [Hc _]]].
  repeat split; apply N.leb_le; lia.
Qed.

Lemma parse_chars_escape_bounded n : forall s rest,
  String.length s <= n -> parse_chars (escape s ++ String dquote rest) = Some (s, rest).
Proof.
  induction n as [|n IH]; intros s rest Hlen.
  { destruct s; [reflexivity | cbn in Hlen; lia]. }
  destruct s as [|a s1]; [reflexivity|].
  cbn [String.length] in Hlen.
  assert (Hchar : parse_chars ((escape_char a ++ escape s1) ++ String dquote rest)
                  = Some (String a s1, rest))
    by (rewrite append_assoc, parse_chars_escape_char, IH by lia; reflexivity).
  destruct s1 as [|b [|c s3]]; try exact Hchar.
  cbn [escape]. cbn [String.length] in Hlen.
  destruct (surrogate a b c) as [hi|] eqn:Hs; [|exact Hchar].
  assert (Hlone : (is_high_surrogate hi = true -> starts_low s3 = false) ->
                  parse_chars ((unicode_escape hi ++ escape s3) ++ String dquote rest)
                  = Some (String a (String b (String c s3)), rest)).
  { intros Hno.
    change ((unicode_escape hi ++ escape s3) ++ String dquote rest)
      with (String backslash (String "u"
              (String (hex_digit (hi / 4096)) (String (hex_digit ((hi / 256) mod 16))
                (String (hex_digit ((hi / 16) mod 16)) (String (hex_digit (hi mod 16))
                  (escape s3 ++ String dquote rest))))))).
    rewrite (parse_chars_unicode _ _ _ _ hi)
      by (first [apply hex4_unicode; apply surrogate_below in Hs; lia
                | intros Hhigh; apply escape_no_low; now apply Hno]).
    rewrite IH by lia. now rewrite (utf8_surrogate a b c). }
  destruct s3 as [|a' [|b' [|c' s6]]]; try (apply Hlone; reflexivity).
  destruct (is_high_surrogate hi && starts_low (String a' (String b' (String c' s6)))) eqn:Hpair.
  - apply andb_prop in Hpair. destruct Hpair as [_ Hlow]. cbn [starts_low] in Hlow.
    destruct (surrogate a' b' c') as [lo|] eqn:Hs'; [|discriminate].
    destruct (surrogate_bytes _ _ _ _ Hs) as [Ha [Hb Hc]].
    destruct (surrogate_bytes _ _ _ _ Hs') as [Ha' [Hb' Hc']].
    cbn [append String.length] in *.
    rewrite !parse_chars_raw by assumption.
    now rewrite IH by lia.
  - apply Hlone. intros Hhigh. now rewrite Hhigh in Hpair.
Qed.

Lemma parse_chars_escape s rest :
  parse_chars (escape s ++ String dquote rest) = Some (s, rest).
Proof. now apply (parse_chars_escape_bounded (String.length s)). Qed.

Lemma parse_chars_quote s rest :
  exists t, quote s ++ rest = String dquote t /\ parse_chars t = Some (s, rest).
Proof.
  eexists. split.
  - unfold quote. simpl. rewrite append_assoc. reflexivity.
  - simpl. apply parse_chars_escape.
Qed.

Lemma size_pos v : 1 <= size v.
Proof. destruct v; simpl; lia. Qed.

(** What is written for a finite number starts with a sign or a digit. *)
Lemma number_head_append s rest : number_head s = true -> number_head (s ++ rest) = true.
Proof. destruct s as [|c r]; [discriminate | exact (fun H => H)]. Qed.

Lemma finite_head negative m e rest :
  number_head (number_to_string (Finite negative m e) ++ rest) = true.
Proof.
  apply number_head_append.
  pose proof (parse_number_finite negative m e "" eq_refl) as H.
  rewrite append_empty in H. now apply parse_number_head in H.
Qed.

Lemma number_head_ok s : number_head s = true -> head_ok s = true.
Proof.
  destruct s as [|c r]; [discriminate|].
  destruct c as [[|] [|] [|] [|] [|] [|] [|] [|]]; simpl; intros H; try reflexivity; discriminate H.
Qed.

Lemma parse_value_number fuel s :
  number_head s = true ->
  parse_value (S fuel) s = ' (n, rest) <- parse_number s ;; Some (JNum n, rest).
Proof.
  destruct s as [|c r]; [discriminate|].
  destruct c as [[|] [|] [|] [|] [|] [|] [|] [|]]; simpl; intros H; try reflexivity; discriminate H.
Qed.

(** A number is read back as [reread] has it. *)
Lemma parse_value_written_number fuel n rest :
  ends_number rest = true ->
  parse_value (S fuel) (number_to_string n ++ rest) = Some (reread (JNum n), rest).
Proof.
  intros Hrest. destruct n as [s|s m e|s].
  - rewrite parse_value_number by reflexivity. now rewrite parse_number_zero.
  - rewrite parse_value_number by apply finite_head. now rewrite parse_number_finite.
  - reflexivity.
Qed.

Lemma number_to_string_head_ok n rest : head_ok (number_to_string n ++ rest) = true.
Proof.
  destruct n as [s|s m e|s]; [reflexivity | | reflexivity].
  apply number_head_ok, finite_head.
Qed.

Lemma serialize_head indent v rest : head_ok (serialize indent v ++ rest) = true.
Proof.
  destruct v as [|[|]|n|s|items|members]; try reflexivity.
  - apply number_to_string_head_ok.
  - simpl. destruct items; reflexivity.
  - simpl. destruct members as [|[k x] ms]; reflexivity.
Qed.

Lemma skip_ws_head s : head_ok s = true -> skip_ws s = s.
Proof.
  destruct s as [|c r]; [reflexivity|]. simpl.
  destruct (is_ws c); [discriminate | reflexivity].
Qed.

Lemma skip_ws_line n s : head_ok s = true -> skip_ws (nl ++ pad n ++ s) = s.
Proof. intros H. simpl. rewrite skip_ws_pad. now apply skip_ws_head. Qed.

Lemma parse_value_ws fuel s s' : skip_ws s = skip_ws s' -> parse_value fuel s = parse_value fuel s'.
Proof. intros E. destruct fuel; simpl; [reflexivity | now rewrite E]. Qed.

Lemma parse_value_line fuel n s :
  head_ok s = true -> parse_value fuel (nl ++ pad n ++ s) = parse_value fuel s.
Proof.
  intros H. apply parse_value_ws. rewrite skip_ws_line by assumption.
  symmetry. now apply skip_ws_head.
Qed.

Lemma skip_ws_non_ws s : non_ws s = true -> skip_ws s = s.
Proof.
  destruct s as [|c r]; [reflexivity|]. simpl.
  destruct (is_ws c); [discriminate | reflexivity].
Qed.

Lemma skip_ws_line_non_ws n s : non_ws s = true -> skip_ws (nl ++ pad n ++ s) = s.
Proof. intros H. simpl. rewrite skip_ws_pad. now apply skip_ws_non_ws. Qed.

Lemma wrap_cons opening closing stepback indent p ps rest :
  wrap opening closing stepback indent (p :: ps) ++ rest =
  opening ++ nl ++ pad indent ++ p
  ++ join_tail ("," ++ nl ++ pad indent) ps ++ nl ++ pad stepback ++ closing ++ rest.
Proof. unfold wrap. now rewrite !append_assoc. Qed.

Lemma join_tail_cons indent p ps rest :
  join_tail ("," ++ nl ++ pad indent) (p :: ps) ++ rest =
  "," ++ nl ++ pad indent ++ p ++ join_tail ("," ++ nl ++ pad indent) ps ++ rest.
Proof. cbn [join_tail]. now rewrite !append_assoc. Qed.

Lemma member_text k s rest :
  (quote k ++ ": " ++ s) ++ rest =
  String dquote (escape k ++ String dquote (String ":" (String " " (s ++ rest)))).
Proof. unfold quote. cbn [append]. now rewrite !append_assoc. Qed.

Lemma not_closing_bracket {A} s (a : string -> option A) (b : option A) :
  head_ok s = true ->
  match s with
  | String c r => if (c =? "]")%char then a r else b
  | EmptyString => None
  end = b.
Proof.
  destruct s as [|c r]; [discriminate|]. simpl. intros H.
  destruct (c =? "]")%char; [|reflexivity].
  rewrite andb_false_r in H. discriminate H.
Qed.

Lemma parse_elements_serialized f inner outer rest xs :
  forall x n,
    Forall reparses (x :: xs) ->
    list_sum (map size (x :: xs)) <= f ->
    list_sum (map size (x :: xs)) <= n ->
    parse_elements (parse_value f) n
      (nl ++ pad inner ++ serialize inner x
       ++ join_tail ("," ++ nl ++ pad inner) (map (serialize inner) xs)
       ++ nl ++ pad outer ++ "]" ++ rest)
    = Some (map reread (x :: xs), rest).
Proof.
  induction xs as [|y ys IH]; intros x n Hall Hf Hn;
    inversion Hall as [|? ? Hx Hxs]; subst;
    cbn [map list_sum fold_right] in Hf, Hn; pose proof (size_pos x);
    (destruct n as [|n]; [lia|]); cbn [parse_elements];
    rewrite parse_value_line by apply serialize_head.
  - cbn [map join_tail]. rewrite (Hx f inner) by (reflexivity || lia).
    change ("" ++ nl ++ pad outer ++ "]" ++ rest) with (nl ++ pad outer ++ "]" ++ rest).
    rewrite skip_ws_line_non_ws by reflexivity. reflexivity.
  - cbn [map]. rewrite join_tail_cons.
    rewrite (Hx f inner) by (reflexivity || lia).
    pose proof (IH y n Hxs) as E. cbn [map list_sum fold_right] in E.
    transitivity
      (' (vs, rest0) <- parse_elements (parse_value f) n
           (nl ++ pad inner ++ serialize inner y
            ++ join_tail ("," ++ nl ++ pad inner) (map (serialize inner) ys)
            ++ nl ++ pad outer ++ "]" ++ rest) ;;
       Some (reread x :: vs, rest0)); [reflexivity|].
    rewrite E by lia. reflexivity.
Qed.

Lemma parse_members_step pv n inner k s tail :
  parse_members pv (S n) (nl ++ pad inner ++ (quote k ++ ": " ++ s) ++ tail) =
  ' (v, r3) <- pv (String " " (s ++ tail)) ;;
  match skip_ws r3 with
  | String c r4 =>
      if (c =? ",")%char then
        ' (ms, rest) <- parse_members pv n r4 ;; Some ((k, v) :: ms, rest)
      else if (c =? "}")%char then Some ([(k, v)], r4)
      else None
  | EmptyString => None
  end.
Proof.
  cbn [parse_members]. rewrite member_text, skip_ws_line_non_ws by reflexivity.
  rewrite Ascii.eqb_refl, parse_chars_escape. reflexivity.
Qed.

Lemma parse_value_space fuel s : parse_value fuel (String " " s) = parse_value fuel s.
Proof. now apply parse_value_ws. Qed.

Lemma parse_members_serialized f inner outer rest ms :
  forall k x n,
    Forall (fun m => reparses (snd m)) ((k, x) :: ms) ->
    list_sum (map (fun '(_, v) => size v) ((k, x) :: ms)) <= f ->
    list_sum (map (fun '(_, v) => size v) ((k, x) :: ms)) <= n ->
    parse_members (parse_value f) n
      (nl ++ pad inner ++ (quote k ++ ": " ++ serialize inner x)
       ++ join_tail ("," ++ nl ++ pad inner)
            (map (fun '(k', v) => quote k' ++ ": " ++ serialize inner v) ms)
       ++ nl ++ pad outer ++ "}" ++ rest)
    = Some (map reread_member ((k, x) :: ms), rest).
Proof.
  induction ms as [|[k' y] ys IH]; intros k x n Hall Hf Hn;
    inversion Hall as [|? ? Hx Hxs]; subst; cbn [snd] in Hx;
    cbn [map list_sum fold_right] in Hf, Hn; pose proof (size_pos x);
    (destruct n as [|n]; [lia|]);
    rewrite parse_members_step, parse_value_space.
  - cbn [map join_tail]. rewrite (Hx f inner) by (reflexivity || lia).
    change ("" ++ nl ++ pad outer ++ "}" ++ rest) with (nl ++ pad outer ++ "}" ++ rest).
    rewrite skip_ws_line_non_ws by reflexivity. reflexivity.
  - cbn [map]. rewrite join_tail_cons.
    rewrite (Hx f inner) by (reflexivity || lia).
    pose proof (IH k' y n Hxs) as E. cbn [map list_sum fold_right] in E.
    transitivity
      (' (vs, rest0) <- parse_members (parse_value f) n
           (nl ++ pad inner ++ (quote k' ++ ": " ++ serialize inner y)
            ++ join_tail ("," ++ nl ++ pad inner)
                 (map (fun '(k', v) => quote k' ++ ": " ++ serialize inner v) ys)
            ++ nl ++ pad outer ++ "}" ++ rest) ;;
       Some ((k, reread x) :: vs, rest0)); [reflexivity|].
    rewrite E by lia. reflexivity.
Qed.

Lemma size_fuel v fuel : size v <= fuel -> exists f, fuel = S f.
Proof. pose proof (size_pos v). destruct fuel as [|f]; [lia | eauto]. Qed.

(** Every term is read back from its serialization, as [reread] has it. *)
Theorem parse_serialize v : reparses v.
Proof.
  induction v as [|b|n|s|items IH|members IH] using json_ind;
    intros fuel indent rest Hfuel Hrest;
    destruct (size_fuel _ _ Hfuel) as [f ->].
  - reflexivity.
  - destruct b; reflexivity.
  - cbn [serialize]. now apply parse_value_written_number.
  - destruct (parse_chars_quote s rest) as [t [E Ht]].
    cbn [serialize]. rewrite E.
    change (parse_value (S f) (String dquote t))
      with (' (str, r) <- parse_chars t ;; Some (JStr str, r)).
    now rewrite Ht.
  - destruct items as [|x xs]; [reflexivity|].
    cbn [serialize map]. rewrite wrap_cons.
    cbn [size] in Hfuel. apply le_S_n in Hfuel.
    transitivity
      (match skip_ws (nl ++ pad (2 + indent) ++ serialize (2 + indent) x
                      ++ join_tail ("," ++ nl ++ pad (2 + indent)) (map (serialize (2 + indent)) xs)
                      ++ nl ++ pad indent ++ "]" ++ rest) with
       | String c1 r1 =>
           if (c1 =? "]")%char then Some (JArr [], r1)
           else ' (vs, r) <- parse_elements (parse_value f) f
                  (nl ++ pad (2 + indent) ++ serialize (2 + indent) x
                   ++ join_tail ("," ++ nl ++ pad (2 + indent)) (map (serialize (2 + indent)) xs)
                   ++ nl ++ pad indent ++ "]" ++ rest) ;;
                Some (JArr vs, r)
       | EmptyString => None
       end); [reflexivity|].
    rewrite skip_ws_line by apply serialize_head.
    rewrite not_closing_bracket by apply serialize_head.
    now rewrite parse_elements_serialized.
  - destruct members as [|[k x] ms]; [reflexivity|].
    cbn [serialize map]. rewrite wrap_cons.
    cbn [size] in Hfuel. apply le_S_n in Hfuel.
    transitivity
      (match skip_ws (nl ++ pad (2 + indent) ++ (quote k ++ ": " ++ serialize (2 + indent) x)
                      ++ join_tail ("," ++ nl ++ pad (2 + indent))
                           (map (fun '(k', v) => quote k' ++ ": " ++ serialize (2 + indent) v) ms)
                      ++ nl ++ pad indent ++ "}" ++ rest) with
       | String c1 r1 =>
           if (c1 =? "}")%char then Some (JObj [], r1)
           else ' (vs, r) <- parse_members (parse_value f) f
                  (nl ++ pad (2 + indent) ++ (quote k ++ ": " ++ serialize (2 + indent) x)
                   ++ join_tail ("," ++ nl ++ pad (2 + indent))
                        (map (fun '(k', v) => quote k' ++ ": " ++ serialize (2 + indent) v) ms)
                   ++ nl ++ pad indent ++ "}" ++ rest) ;;
                Some (JObj (object_of vs), r)
       | EmptyString => None
       end); [reflexivity|].
    rewrite member_text, skip_ws_line_non_ws by reflexivity.
    cbv iota. change (dquote =? "}")%char with false. cbv iota.
    rewrite <- member_text.
    now rewrite parse_members_serialized.
Qed.

Lemma length_join_tail separator ps :
  list_sum (map String.length ps) <= String.length (join_tail separator ps).
Proof.
  induction ps as [|p ps IH]; cbn [map list_sum fold_right join_tail]; [apply Nat.le_0_l|].
  rewrite !length_append. unfold list_sum in IH. lia.
Qed.

Lemma length_wrap opening closing stepback indent ps :
  String.length opening + list_sum (map String.length ps)
  <= String.length (wrap opening closing stepback indent ps).
Proof.
  destruct ps as [|p ps]; unfold wrap; cbn [map list_sum fold_right].
  - rewrite length_append. lia.
  - rewrite !length_append.
    pose proof (length_join_tail ("," ++ nl ++ pad indent) ps) as H.
    unfold list_sum in H. lia.
Qed.

Lemma length_number_to_string n : 1 <= String.length (number_to_string n).
Proof.
  pose proof (number_to_string_head_ok n "") as H. rewrite append_empty in H.
  destruct (number_to_string n); [discriminate | simpl; lia].
Qed.

Lemma size_le_length v : forall indent, size v <= String.length (serialize indent v).
Proof.
  induction v as [|b|n|s|items IH|members IH] using json_ind; intros indent.
  - simpl. lia.
  - destruct b; simpl; lia.
  - apply length_number_to_string.
  - simpl. lia.
  - cbn [serialize size].
    assert (list_sum (map size items)
            <= list_sum (map String.length (map (serialize (2 + indent)) items))) as H'.
    { induction IH as [|x xs Hx _ IHxs]; cbn [map list_sum fold_right]; [lia|].
      specialize (Hx (2 + indent)). unfold list_sum in IHxs. lia. }
    pose proof (length_wrap "[" "]" indent (2 + indent) (map (serialize (2 + indent)) items)) as H.
    change (String.length "[") with 1 in H. lia.
  - cbn [serialize size].
    assert (list_sum (map (fun '(_, x) => size x) members)
            <= list_sum (map String.length
                   (map (fun '(k, x) => quote k ++ ": " ++ serialize (2 + indent) x) members))) as H'.
    { induction IH as [|[k x] xs Hx _ IHxs]; cbn [map list_sum fold_right]; [lia|].
      specialize (Hx (2 + indent)). cbn [snd] in Hx. rewrite !length_append.
      unfold list_sum in IHxs. lia. }
    pose proof (length_wrap "{" "}" indent (2 + indent)
                  (map (fun '(k, x) => quote k ++ ": " ++ serialize (2 + indent) x) members)) as H.
    change (String.length "{") with 1 in H. lia.
Qed.

(** [JSON.parse] reads what [JSON.stringify(value, null, 2)] wrote, with or
    without the trailing newline of the tasks file. *)
Theorem JSON_parse_stringify v :
  JSON_parse (JSON_stringify v) = Some (reread v) /\
  JSON_parse (JSON_stringify v ++ nl) = Some (reread v).
Proof.
  unfold JSON_parse, JSON_stringify. split.
  - rewrite <- (append_empty (serialize 0 v)) at 2.
    rewrite parse_serialize; [reflexivity | | reflexivity].
    apply size_le_length.
  - rewrite parse_serialize; [reflexivity | | reflexivity].
    rewrite length_append. pose proof (size_le_length v 0). lia.
Qed.

(** *** The compact serialization *)

Lemma wrap_compact_cons opening closing p ps rest :
  wrap_compact opening closing (p :: ps) ++ rest =
  opening ++ p ++ join_tail "," ps ++ closing ++ rest.
Proof. unfold wrap_compact. now rewrite !append_assoc. Qed.

Lemma join_comma_cons p ps rest :
  join_tail "," (p :: ps) ++ rest = String "," (p ++ join_tail "," ps ++ rest).
Proof. cbn [join_tail]. now rewrite !append_assoc. Qed.

Lemma serialize_compact_head v rest : head_ok (serialize_compact v ++ rest) = true.
Proof.
  destruct v as [|[|]|n|s|items|members]; try reflexivity.
  - apply number_to_string_head_ok.
  - simpl. destruct items; reflexivity.
  - simpl. destruct members as [|[k x] ms]; reflexivity.
Qed.

Lemma compact_member_text k s rest :
  (quote k ++ ":" ++ s) ++ rest =
  String dquote (escape k ++ String dquote (String ":" (s ++ rest))).
Proof. unfold quote. cbn [append]. now rewrite !append_assoc. Qed.

Lemma parse_elements_compact f rest xs :
  forall x n,
    Forall reparses_compact (x :: xs) ->
    list_sum (map size (x :: xs)) <= f ->
    list_sum (map size (x :: xs)) <= n ->
    parse_elements (parse_value f) n
      (serialize_compact x ++ join_tail "," (map serialize_compact xs) ++ "]" ++ rest)
    = Some (map reread (x :: xs), rest).
Proof.
  induction xs as [|y ys IH]; intros x n Hall Hf Hn;
    inversion Hall as [|? ? Hx Hxs]; subst;
    cbn [map list_sum fold_right] in Hf, Hn; pose proof (size_pos x);
    (destruct n as [|n]; [lia|]); cbn [parse_elements].
  - cbn [map join_tail]. rewrite (Hx f) by (reflexivity || lia). reflexivity.
  - cbn [map]. rewrite join_comma_cons.
    rewrite (Hx f) by (reflexivity || lia).
    pose proof (IH y n Hxs) as E. cbn [map list_sum fold_right] in E.
    transitivity
      (' (vs, rest0) <- parse_elements (parse_value f) n
           (serialize_compact y ++ join_tail "," (map serialize_compact ys) ++ "]" ++ rest) ;;
       Some (reread x :: vs, rest0)); [reflexivity|].
    rewrite E by lia. reflexivity.
Qed.

Lemma parse_members_compact_step pv n k s tail :
  parse_members pv (S n) ((quote k ++ ":" ++ s) ++ tail) =
  ' (v, r3) <- pv (s ++ tail) ;;
  match skip_ws r3 with
  | String c r4 =>
      if (c =? ",")%char then
        ' (ms, rest) <- parse_members pv n r4 ;; Some ((k, v) :: ms, rest)
      else if (c =? "}")%char then Some ([(k, v)], r4)
      else None
  | EmptyString => None
  end.
Proof.
  cbn [parse_members]. rewrite compact_member_text.
  change (skip_ws (String dquote ?z)) with (String dquote z). cbv iota.
  rewrite Ascii.eqb_refl, parse_chars_escape. reflexivity.
Qed.

Lemma parse_members_compact f rest ms :
  forall k x n,
    Forall (fun m => reparses_compact (snd m)) ((k, x) :: ms) ->
    list_sum (map (fun '(_, v) => size v) ((k, x) :: ms)) <= f ->
    list_sum (map (fun '(_, v) => size v) ((k, x) :: ms)) <= n ->
    parse_members (parse_value f) n
      ((quote k ++ ":" ++ serialize_compact x)
       ++ join_tail "," (map (fun '(k', v) => quote k' ++ ":" ++ serialize_compact v) ms)
       ++ "}" ++ rest)
    = Some (map reread_member ((k, x) :: ms), rest).
Proof.
  induction ms as [|[k' y] ys IH]; intros k x n Hall Hf Hn;
    inversion Hall as [|? ? Hx Hxs]; subst; cbn [snd] in Hx;
    cbn [map list_sum fold_right] in Hf, Hn; pose proof (size_pos x);
    (destruct n as [|n]; [lia|]);
    rewrite parse_members_compact_step.
  - cbn [map join_tail]. rewrite (Hx f) by (reflexivity || lia). reflexivity.
  - cbn [map]. rewrite join_comma_cons.
    rewrite (Hx f) by (reflexivity || lia).
    pose proof (IH k' y n Hxs) as E. cbn [map list_sum fold_right] in E.
    transitivity
      (' (vs, rest0) <- parse_members (parse_value f) n
           ((quote k' ++ ":" ++ serialize_compact y)
            ++ join_tail "," (map (fun '(k', v) => quote k' ++ ":" ++ serialize_compact v) ys)
            ++ "}" ++ rest) ;;
       Some ((k, reread x) :: vs, rest0)); [reflexivity|].
    rewrite E by lia. reflexivity.
Qed.

Theorem parse_serialize_compact v : reparses_compact v.
Proof.
  induction v as [|b|n|s|items IH|members IH] using json_ind;
    intros fuel rest Hfuel Hrest;
    destruct (size_fuel _ _ Hfuel) as [f ->].
  - reflexivity.
  - destruct b; reflexivity.
  - cbn [serialize_compact]. now apply parse_value_written_number.
  - destruct (parse_chars_quote s rest) as [t [E Ht]].
    cbn [serialize_compact]. rewrite E.
    change (parse_value (S f) (String dquote t))
      with (' (str, r) <- parse_chars t ;; Some (JStr str, r)).
    now rewrite Ht.
  - destruct items as [|x xs]; [reflexivity|].
    cbn [serialize_compact map]. rewrite wrap_compact_cons.
    cbn [size] in Hfuel. apply le_S_n in Hfuel.
    transitivity
      (match skip_ws (serialize_compact x ++ join_tail "," (map serialize_compact xs)
                      ++ "]" ++ rest) with
       | String c1 r1 =>
           if (c1 =? "]")%char then Some (JArr [], r1)
           else ' (vs, r) <- parse_elements (parse_value f) f
                  (serialize_compact x ++ join_tail "," (map serialize_compact xs)
                   ++ "]" ++ rest) ;;
                Some (JArr vs, r)
       | EmptyString => None
       end); [reflexivity|].
    rewrite skip_ws_head by apply serialize_compact_head.
    rewrite not_closing_bracket by apply serialize_compact_head.
    now rewrite parse_elements_compact.
  - destruct members as [|[k x] ms]; [reflexivity|].
    cbn [serialize_compact map]. rewrite wrap_compact_cons.
    cbn [size] in Hfuel. apply le_S_n in Hfuel.
    transitivity
      (match skip_ws ((quote k ++ ":" ++ serialize_compact x)
                      ++ join_tail "," (map (fun '(k', v) => quote k' ++ ":" ++ serialize_compact v) ms)
                      ++ "}" ++ rest) with
       | String c1 r1 =>
           if (c1 =? "}")%char then Some (JObj [], r1)
           else ' (vs, r) <- parse_members (parse_value f) f
                  ((quote k ++ ":" ++ serialize_compact x)
                   ++ join_tail "," (map (fun '(k', v) => quote k' ++ ":" ++ serialize_compact v) ms)
                   ++ "}" ++ rest) ;;
                Some (JObj (object_of vs), r)
       | EmptyString => None
       end); [reflexivity|].
    rewrite compact_member_text.
    change (skip_ws (String dquote ?z)) with (String dquote z).
    cbv iota. change (dquote =? "}")%char with false. cbv iota.
    rewrite <- compact_member_text.
    now rewrite parse_members_compact.
Qed.

Lemma length_wrap_compact opening closing ps :
  String.length opening + list_sum (map String.length ps)
  <= String.length (wrap_compact opening closing ps).
Proof.
  destruct ps as [|p ps]; unfold wrap_compact; cbn [map list_sum fold_right].
  - rewrite length_append. lia.
  - rewrite !length_append.
    pose proof (length_join_tail "," ps) as H.
    unfold list_sum in H. lia.
Qed.

Lemma size_le_length_compact v : size v <= String.length (serialize_compact v).
Proof.
  induction v as [|b|n|s|items IH|members IH] using json_ind.
  - simpl. lia.
  - destruct b; simpl; lia.
  - apply length_number_to_string.
  - simpl. lia.
  - cbn [serialize_compact size].
    assert (list_sum (map size items)
            <= list_sum (map String.length (map serialize_compact items))) as H'.
    { induction IH as [|x xs Hx _ IHxs]; cbn [map list_sum fold_right]; [lia|].
      unfold list_sum in IHxs. lia. }
    pose proof (length_wrap_compact "[" "]" (map serialize_compact items)) as H.
    change (String.length "[") with 1 in H. lia.
  - cbn [serialize_compact size].
    assert (list_sum (map (fun '(_, x) => size x) members)
            <= list_sum (map String.length
                   (map (fun '(k, x) => quote k ++ ":" ++ serialize_compact x) members))) as H'.
    { induction IH as [|[k x] xs Hx _ IHxs]; cbn [map list_sum fold_right]; [lia|].
      cbn [snd] in Hx. rewrite !length_append.
      unfold list_sum in IHxs. lia. }
    pose proof (length_wrap_compact "{" "}"
                  (map (fun '(k, x) => quote k ++ ":" ++ serialize_compact x) members)) as H.
    change (String.length "{") with 1 in H. lia.
Qed.

(** [JSON.parse(JSON.stringify(value))] *)
Theorem JSON_parse_compact v : JSON_parse (serialize_compact v) = Some (reread v).
Proof.
  unfold JSON_parse.
  rewrite <- (append_empty (serialize_compact v)) at 2.
  rewrite parse_serialize_compact; [reflexivity | | reflexivity].
  apply size_le_length_compact.
Qed.

(** *** Values of JavaScript *)

(** What [JSON.parse] returns is a value of JavaScript. *)
Lemma parse_elements_js_value pv :
  (forall s v rest, pv s = Some (v, rest) -> js_value v = true) ->
  forall n s vs rest,
    parse_elements pv n s = Some (vs, rest) -> forallb js_value vs = true.
Proof.
  intros Hpv. induction n as [|n IH]; intros s vs rest; cbn [parse_elements]; [discriminate|].
  destruct (pv s) as [[v r]|] eqn:Ev; [|discriminate].
  destruct (skip_ws r) as [|c r1]; [discriminate|].
  destruct (c =? ",")%char.
  - destruct (parse_elements pv n r1) as [[vs' rest']|] eqn:E; [|discriminate].
    intros [= <- <-]. cbn [forallb]. now rewrite (Hpv _ _ _ Ev), (IH _ _ _ E).
  - destruct (c =? "]")%char; [|discriminate].
    intros [= <- <-]. cbn [forallb]. now rewrite (Hpv _ _ _ Ev).
Qed.

Lemma parse_members_js_value pv :
  (forall s v rest, pv s = Some (v, rest) -> js_value v = true) ->
  forall n s ms rest,
    parse_members pv n s = Some (ms, rest) ->
    forallb (fun m => js_value (snd m)) ms = true.
Proof.
  intros Hpv. induction n as [|n IH]; intros s ms rest; cbn [parse_members]; [discriminate|].
  destruct (skip_ws s) as [|q r]; [discriminate|].
  destruct (q =? dquote)%char; [|discriminate].
  destruct (parse_chars r) as [[k r1]|]; [|discriminate].
  destruct (skip_ws r1) as [|colon r2]; [discriminate|].
  destruct (colon =? ":")%char; [|discriminate].
  destruct (pv r2) as [[v r3]|] eqn:Ev; [|discriminate].
  destruct (skip_ws r3) as [|c r4]; [discriminate|].
  destruct (c =? ",")%char.
  - destruct (parse_members pv n r4) as [[ms' rest']|] eqn:E; [|discriminate].
    intros [= <- <-]. cbn [forallb snd]. now rewrite (Hpv _ _ _ Ev), (IH _ _ _ E).
  - destruct (c =? "}")%char; [|discriminate].
    intros [= <- <-]. cbn [forallb snd]. now rewrite (Hpv _ _ _ Ev).
Qed.

Lemma object_of_js_value ms :
  forallb (fun m => js_value (snd m)) ms = true ->
  js_value (JObj (object_of ms)) = true.
Proof.
  intros H. cbn [js_value]. rewrite object_of_ordered. cbn [andb].
  apply forallb_forall. intros m Hm. apply object_of_members in Hm.
  rewrite forallb_forall in H. now apply H.
Qed.

Lemma parse_value_js_value fuel : forall s v rest,
  parse_value fuel s = Some (v, rest) -> js_value v = true.
Proof.
  induction fuel as [|fuel IH]; intros s v rest; cbn [parse_value]; [discriminate|].
  destruct (skip_ws s) as [|c r]; [discriminate|].
  destruct (c =? "n")%char.
  { destruct (expect "ull" r); [|discriminate]. now intros [= <- _]. }
  destruct (c =? "t")%char.
  { destruct (expect "rue" r); [|discriminate]. now intros [= <- _]. }
  destruct (c =? "f")%char.
  { destruct (expect "alse" r); [|discriminate]. now intros [= <- _]. }
  destruct (c =? dquote)%char.
  { destruct (parse_chars r) as [[str rest']|]; [|discriminate]. now intros [= <- _]. }
  destruct (c =? "[")%char.
  { destruct (skip_ws r) as [|c1 r1]; [discriminate|].
    destruct (c1 =? "]")%char; [now intros [= <- _]|].
    destruct (parse_elements (parse_value fuel) fuel r) as [[vs rest']|] eqn:E; [|discriminate].
    intros [= <- _]. cbn [js_value]. exact (parse_elements_js_value _ IH _ _ _ _ E). }
  destruct (c =? "{")%char.
  { destruct (skip_ws r) as [|c1 r1]; [discriminate|].
    destruct (c1 =? "}")%char; [now intros [= <- _]|].
    destruct (parse_members (parse_value fuel) fuel r) as [[ms rest']|] eqn:E; [|discriminate].
    intros [= <- _]. apply object_of_js_value.
    exact (parse_members_js_value _ IH _ _ _ _ E). }
  destruct (parse_number (String c r)) as [[n rest']|] eqn:E; [|discriminate].
  intros [= <- _]. cbn [js_value]. exact (parse_number_is_number _ _ _ E).
Qed.

Theorem JSON_parse_js_value text v : JSON_parse text = Some v -> js_value v = true.
Proof.
  unfold JSON_parse.
  destruct (parse_value (String.length text) text) as [[v' rest]|] eqn:E; [|discriminate].
  destruct (skip_ws rest); [|discriminate].
  intros [= <-]. exact (parse_value_js_value _ _ _ _ E).
Qed.

(** On a value of JavaScript, what is read back is what was written. *)
Lemma reread_written v : js_value v = true -> reread v = written v.
Proof.
  induction v as [|b|n|s|items IH|members IH] using json_ind; intros Hv; try reflexivity.
  - destruct n as [s|s m e|s]; try reflexivity.
    cbn [reread written]. cbn [js_value is_number] in Hv.
    now rewrite shortest_reads_back.
  - cbn [reread written]. f_equal. cbn [js_value] in Hv.
    induction IH as [|x xs Hx _ IHxs]; [reflexivity|].
    cbn [forallb] in Hv. apply andb_prop in Hv. destruct Hv as [H1 H2].
    cbn [map]. now rewrite Hx, IHxs.
  - cbn [reread written]. f_equal. cbn [js_value] in Hv.
    apply andb_prop in Hv. destruct Hv as [Hord Hall].
    assert (E : map (fun m => (fst m, reread (snd m))) members
                = map (fun m => (fst m, written (snd m))) members).
    { clear Hord. induction IH as [|x xs Hx _ IHxs]; [reflexivity|].
      cbn [forallb] in Hall. apply andb_prop in Hall. destruct Hall as [H1 H2].
      cbn [map]. now rewrite Hx, IHxs. }
    rewrite E. apply object_of_id. rewrite map_map. cbn [fst].
    now rewrite (map_ext _ fst) by reflexivity.
Qed.

Lemma written_written v : written (written v) = written v.
Proof.
  induction v as [|b|n|s|items IH|members IH] using json_ind; try reflexivity.
  - destruct n; reflexivity.
  - cbn [written]. f_equal. rewrite map_map.
    induction IH as [|x xs Hx _ IHxs]; [reflexivity|]. cbn [map]. now rewrite Hx, IHxs.
  - cbn [written]. f_equal. rewrite map_map. cbn [fst snd].
    induction IH as [|x xs Hx _ IHxs]; [reflexivity|]. cbn [map]. now rewrite Hx, IHxs.
Qed.

Lemma written_storable v : storable v = true -> written v = v.
Proof.
  induction v as [|b|n|s|items IH|members IH] using json_ind; intros Hv; try reflexivity.
  - destruct n as [[|]|s m e|s]; try reflexivity; discriminate Hv.
  - cbn [written]. f_equal. cbn [storable] in Hv.
    induction IH as [|x xs Hx _ IHxs]; [reflexivity|].
    cbn [forallb] in Hv. apply andb_prop in Hv. destruct Hv as [H1 H2].
    cbn [map]. now rewrite Hx, IHxs.
  - cbn [written]. f_equal. cbn [storable] in Hv.
    induction IH as [|[k x] xs Hx _ IHxs]; [reflexivity|].
    cbn [forallb snd] in Hv. apply andb_prop in Hv. destruct Hv as [H1 H2].
    cbn [map fst snd] in *. now rewrite Hx, IHxs.
Qed.

Lemma storable_written v : storable (written v) = true.
Proof.
  induction v as [|b|n|s|items IH|members IH] using json_ind; try reflexivity.
  - destruct n; reflexivity.
  - cbn [written storable]. rewrite forallb_forall. intros y Hy.
    apply in_map_iff in Hy. destruct Hy as [x [<- Hx]].
    rewrite Forall_forall in IH. now apply IH.
  - cbn [written storable]. rewrite forallb_forall. intros y Hy.
    apply in_map_iff in Hy. destruct Hy as [x [<- Hx]]. cbn [snd].
    rewrite Forall_forall in IH. now apply IH.
Qed.

Lemma js_value_written v : js_value v = true -> js_value (written v) = true.
Proof.
  induction v as [|b|n|s|items IH|members IH] using json_ind; intros Hv; try reflexivity.
  - destruct n; try reflexivity. exact Hv.
  - cbn [written js_value] in *. rewrite forallb_forall in *. intros y Hy.
    apply in_map_iff in Hy. destruct Hy as [x [<- Hx]].
    rewrite Forall_forall in IH. apply IH; [exact Hx | now apply Hv].
  - cbn [written js_value] in *. apply andb_prop in Hv. destruct Hv as [Hord Hall].
    rewrite map_map. cbn [fst]. rewrite (map_ext _ fst) by reflexivity. rewrite Hord.
    cbn [andb]. rewrite forallb_forall in *. intros y Hy.
    apply in_map_iff in Hy. destruct Hy as [x [<- Hx]]. cbn [snd].
    rewrite Forall_forall in IH. apply IH; [exact Hx | now apply Hall].
Qed.

(** [JSON.stringify] writes a value and what it keeps of the value alike. *)
Lemma serialize_written v : forall indent, serialize indent (written v) = serialize indent v.
Proof.
  induction v as [|b|n|s|items IH|members IH] using json_ind; intros indent; try reflexivity.
  - destruct n; reflexivity.
  - cbn [written serialize]. f_equal. rewrite map_map.
    induction IH as [|x xs Hx _ IHxs]; [reflexivity|]. cbn [map]. now rewrite Hx, IHxs.
  - cbn [written serialize]. f_equal. rewrite map_map.
    induction IH as [|[k x] xs Hx _ IHxs]; [reflexivity|].
    cbn [map fst snd] in *. now rewrite Hx, IHxs.
Qed.

Lemma serialize_compact_written v : serialize_compact (written v) = serialize_compact v.
Proof.
  induction v as [|b|n|s|items IH|members IH] using json_ind; try reflexivity.
  - destruct n; reflexivity.
  - cbn [written serialize_compact]. f_equal. rewrite map_map.
    induction IH as [|x xs Hx _ IHxs]; [reflexivity|]. cbn [map]. now rewrite Hx, IHxs.
  - cbn [written serialize_compact]. f_equal. rewrite map_map.
    induction IH as [|[k x] xs Hx _ IHxs]; [reflexivity|].
    cbn [map fst snd] in *. now rewrite Hx, IHxs.
Qed.

(** The round trip on the values of JavaScript. *)
Theorem JSON_parse_written v :
  js_value v = true ->
  JSON_parse (JSON_stringify v) = Some (written v) /\
  JSON_parse (JSON_stringify v ++ nl) = Some (written v) /\
  JSON_parse (serialize_compact v) = Some (written v).
Proof.
  intros Hv. rewrite <- (reread_written v Hv).
  destruct (JSON_parse_stringify v) as [H1 H2].
  repeat split; [exact H1 | exact H2 | apply JSON_parse_compact].
Qed.

(** What is read back is a value of JavaScript, whatever term was written. *)
Lemma js_value_reread v : js_value (reread v) = true.
Proof. exact (JSON_parse_js_value _ _ (JSON_parse_compact v)). Qed.

Lemma serialize_compact_reread v :
  serialize_compact (reread (reread v)) = serialize_compact (reread v).
Proof.
  rewrite (reread_written (reread v)) by apply js_value_reread.
  apply serialize_compact_written.
Qed.

Lemma map_reread_written items :
  forallb js_value items = true -> map reread items = map written items.
Proof.
  intros H. apply map_ext_in. intros v Hv. apply reread_written.
  rewrite forallb_forall in H. now apply H.
Qed.

Lemma map_written_storable items :
  forallb storable items = true -> map written items = items.
Proof.
  intros H. rewrite <- (map_id items) at 2. apply map_ext_in. intros v Hv.
  apply written_storable. rewrite forallb_forall in H. now apply H.
Qed.

Lemma map_written_written items : map written (map written items) = map written items.
Proof. rewrite map_map. apply map_ext. intros v. apply written_written. Qed.

Lemma js_value_map_written items :
  forallb js_value items = true -> forallb js_value (map written items) = true.
Proof.
  intros H. rewrite forallb_forall in *. intros y Hy.
  apply in_map_iff in Hy. destruct Hy as [x [<- Hx]]. apply js_value_written. now apply H.
Qed.

(** The value of a member of a value of JavaScript is one. *)
Lemma js_value_prop v k x : js_value v = true -> prop v k = Some x -> js_value x = true.
Proof.
  destruct v as [| | | | |members]; try discriminate. cbn [prop js_value].
  intros H Hk. apply andb_prop in H. destruct H as [_ H].
  rewrite forallb_forall in H. exact (H _ (lookup_In _ _ _ Hk)).
Qed.

(** *** Texts that share a prefix or a suffix *)

Lemma append_cancel_l a x y : a ++ x = a ++ y -> x = y.
Proof. induction a as [|c a IH]; cbn [append]; [auto|]. intros [= H]. now apply IH. Qed.

Lemma append_cancel_r c : forall x y, x ++ c = y ++ c -> x = y.
Proof.
  induction x as [|a x IH]; intros [|b y] H; cbn [append] in H.
  - reflexivity.
  - exfalso. apply (f_equal String.length) in H. cbn [String.length] in H.
    rewrite length_append in H. lia.
  - exfalso. apply (f_equal String.length) in H. cbn [String.length] in H.
    rewrite length_append in H. lia.
  - injection H as <- H. f_equal. now apply IH.
Qed.

Lemma wrap_compact_joined opening closing partial :
  wrap_compact opening closing partial = opening ++ joined partial ++ closing.
Proof. destruct partial as [|p ps]; cbn [wrap_compact joined]; [reflexivity|]. now rewrite append_assoc. Qed.

Lemma join_tail_app separator a b :
  join_tail separator (a ++ b)%list = join_tail separator a ++ join_tail separator b.
Proof.
  induction a as [|p a IH]; [reflexivity|].
  cbn [app join_tail]. now rewrite IH, !append_assoc.
Qed.

Lemma joined_app p a q b :
  joined ((p :: a) ++ q :: b)%list = joined (p :: a) ++ "," ++ joined (q :: b).
Proof.
  cbn [app joined]. rewrite join_tail_app. cbn [join_tail]. now rewrite !append_assoc.
Qed.

End JsonFacts.

(** ** The store endpoint: what [GET] and [PUT] answer *)

Module RouteFacts.
Import Json Route ObjectFacts JsonFacts.

Lemma some_not_task tasks :
  existsb (fun item => negb (isTask item)) tasks = negb (forallb isTask tasks).
Proof.
  induction tasks as [|x xs IH]; simpl; [reflexivity|].
  rewrite IH. now destruct (isTask x).
Qed.

Lemma writeTasksFile_inv tasks w w' :
  writeTasksFile tasks w = (Ok tt, w') ->
  mkdir_error w = false /\ writeFile_error w = None /\
  w' = stored (JSON_stringify (JArr tasks) ++ nl) w.
Proof.
  unfold writeTasksFile, bind, fs_mkdir, fs_writeFile.
  destruct (mkdir_error w) eqn:Hm; [discriminate|].
  destruct (writeFile_error w) eqn:Hw; [discriminate|].
  intros E. inversion E. repeat split.
Qed.

Lemma writeTasksFile_ok tasks w :
  mkdir_error w = false -> writeFile_error w = None ->
  writeTasksFile tasks w = (Ok tt, stored (JSON_stringify (JArr tasks) ++ nl) w).
Proof.
  destruct w as [f m e]. simpl. intros -> ->. reflexivity.
Qed.

Lemma writeTasksFile_throws tasks w :
  mkdir_error w = true \/ writeFile_error w <> None ->
  exists e w', writeTasksFile tasks w = (Throw e, w').
Proof.
  unfold writeTasksFile, bind, fs_mkdir, fs_writeFile.
  destruct (mkdir_error w); [eauto|].
  destruct (writeFile_error w); [eauto|].
  intros [H|H]; [discriminate | congruence].
Qed.

(** The world a write that succeeds leaves, field by field. *)
Lemma stored_fields text w :
  mkdir_error w = false -> writeFile_error w = None ->
  stored text w
  = {| tasks_file := Content text; mkdir_error := false; writeFile_error := None |}.
Proof. unfold stored, with_file. now intros -> ->. Qed.

(** What [readTasksFile] returns, by the state of the file. *)
Lemma readTasksFile_content text w :
  tasks_file w = Content text ->
  readTasksFile w =
  match JSON_parse text with
  | Some (JArr items) =>
      if forallb isTask items then (Ok items, w)
      else (Throw (Error "Invalid tasks data"), w)
  | Some _ => (Throw (Error "Invalid tasks data"), w)
  | None => (Throw SyntaxError, w)
  end.
Proof.
  intros E. unfold readTasksFile, bind, fs_readFile, parse_json. rewrite E.
  destruct (JSON_parse text) as [[| | | |items|]|]; try reflexivity.
  cbn. rewrite some_not_task. now destruct (forallb isTask items).
Qed.

(** The shape check reads strings only, which are written and read back as
    they are. *)
Lemma is_string_reread x : is_string (option_map reread x) = is_string x.
Proof. destruct x as [[| |[]| | |]|]; reflexivity. Qed.

Lemma isTaskStatus_reread x : isTaskStatus (option_map reread x) = isTaskStatus x.
Proof. destruct x as [[| |[]| | |]|]; reflexivity. Qed.

Lemma isTask_reread v : isTask (reread v) = isTask v.
Proof.
  destruct v as [| |n| | |members]; try reflexivity.
  { destruct n; try reflexivity.
    unfold isTask. cbn [reread typeof jstype_eqb negb]. now rewrite orb_true_r. }
  unfold isTask. cbn [reread truthy typeof jstype_eqb negb orb prop].
  rewrite !lookup_object_of, !lookup_map.
  now rewrite !is_string_reread, isTaskStatus_reread.
Qed.

Lemma is_string_written x : is_string (option_map written x) = is_string x.
Proof. destruct x as [[| |[]| | |]|]; reflexivity. Qed.

Lemma isTaskStatus_written x : isTaskStatus (option_map written x) = isTaskStatus x.
Proof. destruct x as [[| |[]| | |]|]; reflexivity. Qed.

Lemma isTask_written v : isTask (written v) = isTask v.
Proof.
  destruct v as [| |[]| | |members]; try reflexivity.
  unfold isTask. cbn [written truthy typeof jstype_eqb negb orb prop].
  rewrite !lookup_map.
  now rewrite !is_string_written, isTaskStatus_written.
Qed.

Lemma all_isTask_reread items : forallb isTask (map reread items) = forallb isTask items.
Proof.
  induction items as [|x xs IH]; [reflexivity|].
  cbn [map forallb]. now rewrite isTask_reread, IH.
Qed.

Lemma all_isTask_written items : forallb isTask (map written items) = forallb isTask items.
Proof.
  induction items as [|x xs IH]; [reflexivity|].
  cbn [map forallb]. now rewrite isTask_written, IH.
Qed.

(** What is read from the file that [writeTasksFile] wrote. *)
Lemma readTasksFile_stored tasks w :
  forallb isTask tasks = true ->
  readTasksFile (stored (JSON_stringify (JArr tasks) ++ nl) w)
  = (Ok (map reread tasks), stored (JSON_stringify (JArr tasks) ++ nl) w).
Proof.
  intros H. rewrite (readTasksFile_content (JSON_stringify (JArr tasks) ++ nl)) by reflexivity.
  destruct (JSON_parse_stringify (JArr tasks)) as [_ ->]. cbn [reread].
  now rewrite all_isTask_reread, H.
Qed.

Lemma readTasksFile_stored_values tasks w :
  forallb isTask tasks = true -> forallb js_value tasks = true ->
  readTasksFile (stored (JSON_stringify (JArr tasks) ++ nl) w)
  = (Ok (map written tasks), stored (JSON_stringify (JArr tasks) ++ nl) w).
Proof.
  intros H Hv. rewrite readTasksFile_stored by assumption.
  now rewrite map_reread_written.
Qed.

Lemma GET_of_read w :
  GET w =
  match readTasksFile w with
  | (Ok tasks, w') => (Ok (NextResponse_json (tasks_body tasks) 200), w')
  | (Throw _, w') => (Ok (NextResponse_json (tasks_body []) 200), w')
  end.
Proof.
  unfold GET, try_catch, bind, ret.
  destruct (readTasksFile w) as [[tasks|e] w']; reflexivity.
Qed.



(** The body of an answer holds a list as [JSON.stringify] writes it. *)
Lemma tasks_body_written tasks :
  serialize_compact (tasks_body (map written tasks)) = serialize_compact (tasks_body tasks).
Proof. exact (serialize_compact_written (tasks_body tasks)). Qed.

Lemma tasks_body_reread tasks :
  forallb js_value tasks = true ->
  serialize_compact (tasks_body (map reread tasks)) = serialize_compact (tasks_body tasks).
Proof. intros H. rewrite map_reread_written by assumption. apply tasks_body_written. Qed.

Lemma tasks_body_parses tasks :
  JSON_parse (serialize_compact (tasks_body tasks)) = Some (tasks_body (map reread tasks)).
Proof. now rewrite JSON_parse_compact. Qed.

Lemma tasks_body_parses_values tasks :
  forallb js_value tasks = true ->
  JSON_parse (serialize_compact (tasks_body tasks)) = Some (tasks_body (map written tasks)).
Proof. intros H. now rewrite tasks_body_parses, map_reread_written. Qed.

(** [GET] after a list has been stored. *)
Lemma GET_stored tasks w :
  forallb isTask tasks = true ->
  GET (stored (JSON_stringify (JArr tasks) ++ nl) w)
  = (Ok (NextResponse_json (tasks_body (map reread tasks)) 200),
     stored (JSON_stringify (JArr tasks) ++ nl) w).
Proof. intros H. now rewrite GET_of_read, readTasksFile_stored. Qed.

Lemma GET_stored_values tasks w :
  forallb isTask tasks = true -> forallb js_value tasks = true ->
  GET (stored (JSON_stringify (JArr tasks) ++ nl) w)
  = (Ok (NextResponse_json (tasks_body tasks) 200),
     stored (JSON_stringify (JArr tasks) ++ nl) w).
Proof.
  intros H Hv. rewrite GET_stored by assumption.
  unfold NextResponse_json. now rewrite tasks_body_reread.
Qed.

(** What [PUT] does with a body that is well-formed JSON. *)
Lemma PUT_parsed request payload w :
  JSON_parse (text request) = Some payload ->
  PUT request w =
  if negb (truthy payload) || negb (jstype_eqb (typeof payload) TObject)
  then (Ok (NextResponse_json (message_body "Invalid body") 400), w)
  else
    match as_array (prop payload "tasks") with
    | None => (Ok (NextResponse_json (message_body "Invalid tasks") 400), w)
    | Some tasks =>
        if forallb isTask tasks then
          match writeTasksFile tasks w with
          | (Ok _, w') => (Ok (NextResponse_json (tasks_body tasks) 200), w')
          | (Throw _, w') =>
              (Ok (NextResponse_json (message_body "Failed to save tasks") 500), w')
          end
        else (Ok (NextResponse_json (message_body "Invalid tasks") 400), w)
    end.
Proof.
  intros E. unfold PUT, try_catch, bind, request_json, parse_json. rewrite E. cbn.
  destruct (negb (truthy payload) || negb (jstype_eqb (typeof payload) TObject));
    [reflexivity|].
  destruct (as_array (prop payload "tasks")) as [tasks|]; [|reflexivity].
  rewrite some_not_task. destruct (forallb isTask tasks); [|reflexivity]. cbn.
  destruct (writeTasksFile tasks w) as [[[]|e] w']; reflexivity.
Qed.

Lemma PUT_unparsed request w :
  JSON_parse (text request) = None ->
  PUT request w = (Ok (NextResponse_json (message_body "Failed to save tasks") 500), w).
Proof.
  intros E. unfold PUT, try_catch, bind, request_json, parse_json. now rewrite E.
Qed.

Lemma prop_object payload k v :
  prop payload k = Some v ->
  negb (truthy payload) || negb (jstype_eqb (typeof payload) TObject) = false.
Proof. destruct payload; simpl; try discriminate. reflexivity. Qed.

Lemma PUT_accepted request payload tasks w :
  JSON_parse (text request) = Some payload ->
  prop payload "tasks" = Some (JArr tasks) ->
  forallb isTask tasks = true ->
  mkdir_error w = false -> writeFile_error w = None ->
  PUT request w = (Ok (NextResponse_json (tasks_body tasks) 200),
                   stored (JSON_stringify (JArr tasks) ++ nl) w).
Proof.
  intros Hparse Hprop Hall Hm Hw.
  rewrite (PUT_parsed _ _ _ Hparse), (prop_object _ _ _ Hprop), Hprop.
  cbn [as_array]. now rewrite Hall, writeTasksFile_ok.
Qed.

(** The tasks of a request are values of JavaScript. *)
Lemma parsed_tasks_js_value text payload tasks :
  JSON_parse text = Some payload -> prop payload "tasks" = Some (JArr tasks) ->
  forallb js_value tasks = true.
Proof.
  intros Hparse Hprop.
  exact (js_value_prop _ _ _ (JSON_parse_js_value _ _ Hparse) Hprop).
Qed.

Lemma lookup_app k a b :
  lookup k (a ++ b)%list =
  match lookup k b with
  | Some v => Some v
  | None => lookup k a
  end.
Proof.
  induction a as [|[k' v] a IH]; simpl.
  - now destruct (lookup k b).
  - rewrite IH. now destruct (lookup k b).
Qed.

Lemma not_all_tasks items :
  forallb isTask items = false <-> exists item, In item items /\ isTask item = false.
Proof.
  split.
  - induction items as [|x xs IH]; simpl; [discriminate|].
    destruct (isTask x) eqn:E; simpl.
    + intros H. destruct (IH H) as [item [Hin Hno]]. exists item. auto.
    + intros _. exists x. auto.
  - intros [item [Hin Hno]]. destruct (forallb isTask items) eqn:E; [|reflexivity].
    rewrite forallb_forall in E. specialize (E item Hin). congruence.
Qed.

(** C1. Round trip.  A list of shape-valid tasks that [writeTasksFile] has
    written is read by [readTasksFile] as [JSON.stringify] writes it, and is
    read as it is when none of its numbers is infinite or the negative zero.
    A [PUT] of the list that answers 200 echoes the list, and the [GET] that
    follows answers the very same body: the list as it is when none of its
    numbers is infinite or the negative zero. *)
Theorem put_then_get_roundtrip (tasks : list json) :
  forallb isTask tasks = true ->
  (forall w w',
      forallb js_value tasks = true ->
      writeTasksFile tasks w = (Ok tt, w') ->
      tasks_file w' = Content (JSON_stringify (JArr tasks) ++ nl) /\
      readTasksFile w' = (Ok (map written tasks), w') /\
      (forallb storable tasks = true -> readTasksFile w' = (Ok tasks, w')))
  /\
  (forall request payload w response w',
      JSON_parse (text request) = Some payload ->
      prop payload "tasks" = Some (JArr tasks) ->
      PUT request w = (Ok response, w') ->
      status response = 200 ->
      body response = serialize_compact (JObj [("tasks", JArr tasks)]) /\
      GET w' = (Ok {| status := 200; body := body response |}, w') /\
      JSON_parse (body response) = Some (JObj [("tasks", JArr (map written tasks))]) /\
      (forallb storable tasks = true ->
       JSON_parse (body response) = Some (JObj [("tasks", JArr tasks)]))).
Proof.
  intros Hshape. split.
  - intros w w' Hvalues Hwrite.
    destruct (writeTasksFile_inv _ _ _ Hwrite) as [_ [_ ->]].
    split; [reflexivity|].
    rewrite readTasksFile_stored_values by assumption.
    split; [reflexivity|]. intros Hs. now rewrite map_written_storable.
  - intros request payload w response w' Hparse Htasks Hput Hok.
    pose proof (parsed_tasks_js_value _ _ _ Hparse Htasks) as Hvalues.
    rewrite (PUT_parsed _ _ _ Hparse), (prop_object _ _ _ Htasks), Htasks in Hput.
    cbn [as_array] in Hput. rewrite Hshape in Hput.
    destruct (writeTasksFile tasks w) as [[[]|e] w1] eqn:Hwrite;
      inversion Hput; subst; [|discriminate Hok].
    cbn [body NextResponse_json].
    split; [reflexivity|].
    destruct (writeTasksFile_inv _ _ _ Hwrite) as [_ [_ ->]].
    split; [now apply GET_stored_values|].
    pose proof (tasks_body_parses_values tasks Hvalues) as Hbody.
    split; [exact Hbody|].
    intros Hs. rewrite Hbody. now rewrite map_written_storable.
Qed.

Lemma put_then_get_roundtrip_witness :
  JSON_parse (text weighted_request) = Some (JObj [("tasks", JArr [weighted_task])]) /\
  forallb isTask [weighted_task] = true /\
  PUT weighted_request fresh_world
  = (Ok {| status := 200; body := serialize_compact (JObj [("tasks", JArr [weighted_task])]) |},
     holding (JSON_stringify (JArr [weighted_task]) ++ nl)) /\
  GET (holding (JSON_stringify (JArr [weighted_task]) ++ nl))
  = (Ok {| status := 200; body := serialize_compact (JObj [("tasks", JArr [weighted_task])]) |},
     holding (JSON_stringify (JArr [weighted_task]) ++ nl)) /\
  JSON_parse (serialize_compact (JObj [("tasks", JArr [weighted_task])]))
  = Some (JObj [("tasks", JArr [weighted_task])]).
Proof.
  split; [vm_compute; reflexivity|]. split; [reflexivity|].
  split; [vm_compute; reflexivity|].
  destruct (proj2 (put_then_get_roundtrip [weighted_task] eq_refl)
              weighted_request (JObj [("tasks", JArr [weighted_task])]) fresh_world
              {| status := 200;
                 body := serialize_compact (JObj [("tasks", JArr [weighted_task])]) |}
              (holding (JSON_stringify (JArr [weighted_task]) ++ nl)))
    as [_ [Hget [_ Hsame]]].
  - vm_compute; reflexivity.
  - reflexivity.
  - vm_compute; reflexivity.
  - reflexivity.
  - split; [exact Hget | exact (Hsame eq_refl)].
Defined.

(** C1 as stated fails: a task that passes the shape
    check and holds a number too large for a double is accepted with 200, and
    what is read back holds [null] in its place. *)
Lemma roundtrip_loses_infinite_number :
  JSON_parse (text overflowing_request) = Some (JObj [("tasks", JArr [heavy_task])]) /\
  forallb isTask [heavy_task] = true /\
  writeTasksFile [heavy_task] fresh_world
  = (Ok tt, holding (JSON_stringify (JArr [heavy_task]) ++ nl)) /\
  readTasksFile (holding (JSON_stringify (JArr [heavy_task]) ++ nl))
  = (Ok [weightless_task], holding (JSON_stringify (JArr [heavy_task]) ++ nl)) /\
  status (match fst (PUT overflowing_request fresh_world) with
          | Ok response => response
          | Throw _ => {| status := 0; body := "" |}
          end) = 200 /\
  match fst (GET (snd (PUT overflowing_request fresh_world))) with
  | Ok response => JSON_parse (body response)
  | Throw _ => None
  end = Some (JObj [("tasks", JArr [weightless_task])]) /\
  [weightless_task] <> [heavy_task].
Proof.
  split; [vm_compute; reflexivity|]. split; [reflexivity|].
  split; [vm_compute; reflexivity|]. split; [vm_compute; reflexivity|].
  split; [vm_compute; reflexivity|]. split; [vm_compute; reflexivity|].
  discriminate.
Qed.

(** C2. [PUT] with a body that is not well-formed JSON: [request.json()]
    throws inside the [try], and the handler answers 500 with the message of
    a failed save, not 400; the world is untouched.  A body that is JSON but
    not an object, such as [null], is answered with 400. *)
Theorem PUT_malformed_json_is_500 (w : world) :
  JSON_parse (text truncated_request) = None /\
  PUT truncated_request w
  = (Ok {| status := 500;
           body := serialize_compact (JObj [("message", JStr "Failed to save tasks")]) |},
     w) /\
  PUT {| text := "null" |} w
  = (Ok {| status := 400;
           body := serialize_compact (JObj [("message", JStr "Invalid body")]) |},
     w).
Proof.
  split; [reflexivity|]. split; [apply PUT_unparsed; reflexivity|].
  now rewrite (PUT_parsed _ JNull).
Qed.



(** The shape check, in full: [isTask] accepts exactly the objects whose
    [id], [title] and [detail] are strings and whose [status] is the string
    [todo], [doing] or [done]. *)
Theorem isTask_shape (value : json) :
  isTask value = true <->
  exists members i t d s,
    value = JObj members /\
    lookup "id" members = Some (JStr i) /\
    lookup "title" members = Some (JStr t) /\
    lookup "detail" members = Some (JStr d) /\
    lookup "status" members = Some (JStr s) /\
    (s = "todo" \/ s = "doing" \/ s = "done").
Proof.
  split.
  - destruct value as [|b|n|s0|items|members];
      try (unfold isTask; cbn; rewrite ?orb_true_r; discriminate).
    unfold isTask. cbn.
    destruct (lookup "id" members) as [[| | |i| |]|] eqn:Hi; try (cbn; discriminate).
    destruct (lookup "title" members) as [[| | |t| |]|] eqn:Ht; try (cbn; discriminate).
    destruct (lookup "detail" members) as [[| | |d| |]|] eqn:Hd; try (cbn; discriminate).
    destruct (lookup "status" members) as [[| | |s| |]|] eqn:Hs; try (cbn; discriminate).
    cbn. intros H. exists members, i, t, d, s. repeat split; try assumption. revert H.
    destruct (String.eqb_spec s "todo"); [auto|].
    destruct (String.eqb_spec s "doing"); [auto|].
    destruct (String.eqb_spec s "done"); [auto|]. discriminate.
  - intros [members [i [t [d [s [-> [Hi [Ht [Hd [Hs Hstatus]]]]]]]]]].
    unfold isTask. cbn. rewrite Hi, Ht, Hd, Hs. cbn.
    destruct Hstatus as [->|[->| ->]]; reflexivity.
Qed.

Lemma isTask_shape_witness :
  isTask example_task = true /\ isTask task_without_detail = false /\
  isTask (JArr [example_task]) = false /\ isTask JNull = false.
Proof.
  split; [|repeat split].
  apply (proj2 (isTask_shape example_task)).
  exists [("id", JStr "1"); ("title", JStr "A"); ("detail", JStr ""); ("status", JStr "todo")],
    "1", "A", "", "todo".
  repeat split. now left.
Defined.

(** C10. [isTask] looks at four members only: an object whose [id],
    [title] and [detail] are strings and whose [status] is one of the three
    values passes whatever else it holds, members of other names added
    before or after change nothing, and two objects that hold the same under
    the four names get the same answer.  So [PUT] accepts such tasks, stores them
    and echoes them, extra members included, as [JSON.stringify] writes them:
    as they are when no number of theirs is infinite or the negative zero,
    and with [null] and [0] in the place of such numbers otherwise. *)
Theorem isTask_ignores_other_members :
  (forall members,
      is_string (lookup "id" members) = true ->
      is_string (lookup "title" members) = true ->
      is_string (lookup "detail" members) = true ->
      isTaskStatus (lookup "status" members) = true ->
      isTask (JObj members) = true)
  /\
  (forall members extra,
      isTask (JObj members) = true ->
      (forall k v, In (k, v) extra ->
                   k <> "id" /\ k <> "title" /\ k <> "detail" /\ k <> "status") ->
      isTask (JObj (members ++ extra)%list) = true /\
      isTask (JObj (extra ++ members)%list) = true)
  /\
  (forall members members',
      lookup "id" members' = lookup "id" members ->
      lookup "title" members' = lookup "title" members ->
      lookup "detail" members' = lookup "detail" members ->
      lookup "status" members' = lookup "status" members ->
      isTask (JObj members') = isTask (JObj members))
  /\
  (forall request payload tasks w,
      JSON_parse (text request) = Some payload ->
      prop payload "tasks" = Some (JArr tasks) ->
      forallb isTask tasks = true ->
      mkdir_error w = false -> writeFile_error w = None ->
      PUT request w
      = (Ok {| status := 200; body := serialize_compact (JObj [("tasks", JArr tasks)]) |},
         {| tasks_file := Content (JSON_stringify (JArr tasks) ++ nl);
            mkdir_error := false; writeFile_error := None |}) /\
      JSON_parse (serialize_compact (JObj [("tasks", JArr tasks)]))
      = Some (JObj [("tasks", JArr (map written tasks))]) /\
      JSON_parse (JSON_stringify (JArr tasks) ++ nl) = Some (JArr (map written tasks)) /\
      (forall members k,
          In (JObj members) tasks ->
          prop (written (JObj members)) k = option_map written (lookup k members)) /\
      (forallb storable tasks = true -> map written tasks = tasks)).
Proof.
  split; [|split; [|split]].
  - intros members Hid Htitle Hdetail Hstatus.
    unfold isTask. cbn. now rewrite Hid, Htitle, Hdetail, Hstatus.
  - intros members extra Htask Hextra.
    assert (Hnone : forall k, k = "id" \/ k = "title" \/ k = "detail" \/ k = "status" ->
                              lookup k extra = None).
    { intros k Hk. apply lookup_absent. intros k' v Hin E. subst k'.
      destruct (Hextra k v Hin) as [H1 [H2 [H3 H4]]].
      destruct Hk as [->|[->|[->| ->]]]; congruence. }
    unfold isTask in *. cbn in *. rewrite !lookup_app.
    rewrite !Hnone by auto.
    split; [exact Htask|].
    destruct (lookup "id" members), (lookup "title" members),
      (lookup "detail" members), (lookup "status" members); exact Htask.
  - intros members members' Hid Htitle Hdetail Hstatus.
    unfold isTask. cbn. now rewrite Hid, Htitle, Hdetail, Hstatus.
  - intros request payload tasks w Hparse Htasks Hshape Hm Hw.
    pose proof (parsed_tasks_js_value _ _ _ Hparse Htasks) as Hvalues.
    split; [|split; [|split; [|split]]].
    + rewrite (PUT_accepted _ _ _ _ Hparse Htasks Hshape Hm Hw).
      now rewrite stored_fields.
    + now apply tasks_body_parses_values.
    + destruct (JSON_parse_stringify (JArr tasks)) as [_ ->]. cbn [reread].
      now rewrite map_reread_written.
    + intros members k _. cbn [written prop]. apply lookup_map.
    + apply map_written_storable.
Qed.

Lemma isTask_ignores_other_members_witness :
  isTask tagged_task = true /\
  isTask (JObj ([("id", JStr "1"); ("title", JStr "A"); ("detail", JStr "");
                 ("status", JStr "todo")]
                ++ [("priority", JNum (Finite false 3 0)); ("tags", JArr [JStr "x"])])%list)
  = true /\
  JSON_parse (text weighted_request) = Some (JObj [("tasks", JArr [weighted_task])]) /\
  PUT weighted_request fresh_world
  = (Ok {| status := 200; body := serialize_compact (JObj [("tasks", JArr [weighted_task])]) |},
     {| tasks_file := Content (JSON_stringify (JArr [weighted_task]) ++ nl);
        mkdir_error := false; writeFile_error := None |}) /\
  JSON_parse (JSON_stringify (JArr [weighted_task]) ++ nl) = Some (JArr [weighted_task]).
Proof.
  destruct isTask_ignores_other_members as [Hfour [Hextra [_ Hput]]].
  split; [|split; [|split]].
  - apply Hfour; reflexivity.
  - refine (proj1 (Hextra [("id", JStr "1"); ("title", JStr "A"); ("detail", JStr "");
                            ("status", JStr "todo")]
                           [("priority", JNum (Finite false 3 0)); ("tags", JArr [JStr "x"])]
                           eq_refl _)).
    intros k v [E|[E|[]]]; injection E as <- _; repeat split; discriminate.
  - vm_compute; reflexivity.
  - destruct (Hput weighted_request (JObj [("tasks", JArr [weighted_task])]) [weighted_task]
                fresh_world) as [E [_ [Hfile _]]];
      [vm_compute; reflexivity | reflexivity | reflexivity | reflexivity | reflexivity |].
    split; [exact E | exact Hfile].
Defined.

(** C10 as stated fails: a task with two members more,
    a number below every double and the negative zero, is accepted with 200,
    and the body of the answer and the file hold [null] and [0] for them. *)
Lemma PUT_does_not_echo_verbatim :
  JSON_parse (text sinking_request) = Some (JObj [("tasks", JArr [sunk_task])]) /\
  isTask sunk_task = true /\
  PUT sinking_request fresh_world
  = (Ok {| status := 200; body := serialize_compact (JObj [("tasks", JArr [sunk_task])]) |},
     {| tasks_file := Content (JSON_stringify (JArr [sunk_task]) ++ nl);
        mkdir_error := false; writeFile_error := None |}) /\
  JSON_parse (serialize_compact (JObj [("tasks", JArr [sunk_task])]))
  = Some (JObj [("tasks", JArr [surfaced_task])]) /\
  JSON_parse (JSON_stringify (JArr [sunk_task]) ++ nl) = Some (JArr [surfaced_task]) /\
  surfaced_task <> sunk_task.
Proof.
  split; [vm_compute; reflexivity|]. split; [reflexivity|].
  split; [vm_compute; reflexivity|]. split; [vm_compute; reflexivity|].
  split; [vm_compute; reflexivity|]. discriminate.
Qed.

(** What [PUT] answers to a body that is well-formed JSON.  A payload whose
    [tasks] member is an array of values passing [isTask] is written and
    echoed with 200, or answered with 500 when [fs.mkdir] or [fs.writeFile]
    rejects; any other payload is answered with 400 and a message, and the
    world is the one the handler was given. *)
Theorem PUT_on_wellformed_json (request : Request) (payload : json) (w : world) :
  JSON_parse (text request) = Some payload ->
  (forall tasks,
      prop payload "tasks" = Some (JArr tasks) -> forallb isTask tasks = true ->
      (mkdir_error w = false -> writeFile_error w = None ->
       PUT request w
       = (Ok {| status := 200; body := serialize_compact (JObj [("tasks", JArr tasks)]) |},
          {| tasks_file := Content (JSON_stringify (JArr tasks) ++ nl);
             mkdir_error := false; writeFile_error := None |})) /\
      (mkdir_error w = true \/ writeFile_error w <> None ->
       exists w',
         PUT request w
         = (Ok {| status := 500;
                  body := serialize_compact (JObj [("message", JStr "Failed to save tasks")]) |},
            w')))
  /\
  ((forall tasks,
       prop payload "tasks" = Some (JArr tasks) ->
       exists item, In item tasks /\ isTask item = false) ->
   exists message,
     PUT request w
     = (Ok {| status := 400; body := serialize_compact (JObj [("message", JStr message)]) |},
        w)).
Proof.
  intros Hparse. split.
  - intros tasks Htasks Hshape. split.
    + intros Hm Hw. rewrite (PUT_accepted _ _ _ _ Hparse Htasks Hshape Hm Hw).
      now rewrite stored_fields.
    + intros Hfail. rewrite (PUT_parsed _ _ _ Hparse).
      rewrite (prop_object _ _ _ Htasks), Htasks. cbn [as_array]. rewrite Hshape.
      destruct (writeTasksFile_throws tasks w Hfail) as [e [w' ->]].
      eexists. reflexivity.
  - intros Hinvalid. rewrite (PUT_parsed _ _ _ Hparse).
    destruct (negb (truthy payload) || negb (jstype_eqb (typeof payload) TObject));
      [eexists; reflexivity|].
    destruct (prop payload "tasks") as [[| | | |tasks|]|] eqn:Htasks; cbn [as_array];
      try (eexists; reflexivity).
    destruct (Hinvalid tasks eq_refl) as [item Hitem].
    rewrite (proj2 (not_all_tasks tasks)) by eauto. eexists; reflexivity.
Qed.

Lemma PUT_on_wellformed_json_witness :
  (exists message,
      PUT (request_of (tasks_body [task_without_detail])) fresh_world
      = (Ok {| status := 400; body := serialize_compact (JObj [("message", JStr message)]) |},
         fresh_world)) /\
  PUT (request_of (tasks_body [example_task; tagged_task])) fresh_world
  = (Ok {| status := 200;
           body := serialize_compact (JObj [("tasks", JArr [example_task; tagged_task])]) |},
     {| tasks_file := Content (JSON_stringify (JArr [example_task; tagged_task]) ++ nl);
        mkdir_error := false; writeFile_error := None |}).
Proof.
  split.
  - apply (proj2 (PUT_on_wellformed_json (request_of (tasks_body [task_without_detail]))
                    (tasks_body [task_without_detail]) fresh_world eq_refl)).
    intros tasks E. injection E as <-.
    exists task_without_detail. split; [now left | reflexivity].
  - apply (proj1 (PUT_on_wellformed_json (request_of (tasks_body [example_task; tagged_task]))
                    (tasks_body [example_task; tagged_task]) fresh_world
                    ltac:(vm_compute; reflexivity))
             [example_task; tagged_task] eq_refl eq_refl);
      reflexivity.
Defined.

End RouteFacts.

(** ** The board: what the operations do to the task list *)

Module BoardFacts.
Import Board.

Lemma tasks_after_updateTask i patch st :
  tasks (fst (updateTask i patch st)) =
  map (fun task => if (id task =? i)%string then spread_patch task patch else task) (tasks st).
Proof. unfold updateTask. destruct (active_is st i); reflexivity. Qed.

Lemma tasks_after_moveForward i st :
  tasks (fst (moveForward i st)) =
  map (fun task =>
         if negb (id task =? i)%string then task
         else match status task with
              | todo => with_status task doing
              | doing => with_status task done
              | done => task
              end) (tasks st).
Proof. reflexivity. Qed.

Lemma tasks_after_moveBack i st :
  tasks (fst (moveBack i st)) =
  map (fun task =>
         if negb (id task =? i)%string then task
         else match status task with
              | done => with_status task doing
              | doing => with_status task todo
              | todo => task
              end) (tasks st).
Proof. reflexivity. Qed.

Lemma tasks_after_removeTask i st :
  tasks (fst (removeTask i st)) =
  filter (fun task => negb (id task =? i)%string) (tasks st).
Proof. unfold removeTask. destruct (active_is st i); reflexivity. Qed.

Lemma Forall2_map_self {A} (R : A -> A -> Prop) (f : A -> A) l :
  (forall x, In x l -> R x (f x)) -> Forall2 R l (map f l).
Proof.
  induction l as [|x l IH]; intros H; simpl; constructor.
  - apply H. now left.
  - apply IH. intros y Hy. apply H. now right.
Qed.

Lemma map_unmatched (f g : Task -> Task) (i : string) l :
  (forall t, In t l -> id t <> i) ->
  map (fun t => if (id t =? i)%string then f t else g t) l = map g l.
Proof.
  intros H. apply map_ext_in. intros t Ht.
  destruct (String.eqb_spec (id t) i) as [E|_]; [|reflexivity].
  exfalso. exact (H t Ht E).
Qed.

Lemma filter_removed i l :
  removed i l (filter (fun task => negb (id task =? i)%string) l).
Proof.
  induction l as [|t l IH]; simpl; [constructor|].
  destruct (String.eqb_spec (id t) i) as [E|N]; simpl.
  - now apply removed_drop.
  - now apply removed_keep.
Qed.

(** C4. The status machine is linear and moves one step at a time.
    [moveForward] maps, position by position, a task of the given id from
    [todo] to [doing] and from [doing] to [done], leaves it as it is in [done],
    and leaves every other task as it is; [moveBack] is its mirror image.  None
    of the five operations takes a task from [todo] to [done] or from
    [done] to [todo]: the three that map the list change each status by one
    step at most, adding leaves the list behind the new task untouched, and
    removing only drops tasks. *)
Theorem status_machine_is_linear (trim : string -> string) (st : State) :
  (forall i,
      Forall2 (fun t t' =>
                 (id t <> i -> t' = t) /\
                 (id t = i ->
                  id t' = id t /\ title t' = title t /\ detail t' = detail t /\
                  status t' = match status t with
                              | todo => doing
                              | doing => done
                              | done => done
                              end))
              (tasks st) (tasks (fst (moveForward i st))))
  /\
  (forall i,
      Forall2 (fun t t' =>
                 (id t <> i -> t' = t) /\
                 (id t = i ->
                  id t' = id t /\ title t' = title t /\ detail t' = detail t /\
                  status t' = match status t with
                              | done => doing
                              | doing => todo
                              | todo => todo
                              end))
              (tasks st) (tasks (fst (moveBack i st))))
  /\
  (forall a,
      match a with
      | AddTask _ =>
          tasks (fst (run trim a st)) = tasks st \/
          exists t, status t = todo /\ tasks (fst (run trim a st)) = t :: tasks st
      | RemoveTask i => removed i (tasks st) (tasks (fst (run trim a st)))
      | UpdateTask _ _ | MoveForward _ | MoveBack _ =>
          Forall2 (fun t t' => id t' = id t /\ one_step (status t) (status t'))
                  (tasks st) (tasks (fst (run trim a st)))
      end).
Proof.
  split; [|split].
  - intros i. rewrite tasks_after_moveForward. apply Forall2_map_self. intros t _.
    destruct (String.eqb_spec (id t) i) as [E|N]; simpl.
    + split; [congruence|]. intros _. destruct (status t) eqn:S; simpl; auto.
    + split; [reflexivity|]. intros E. contradiction.
  - intros i. rewrite tasks_after_moveBack. apply Forall2_map_self. intros t _.
    destruct (String.eqb_spec (id t) i) as [E|N]; simpl.
    + split; [congruence|]. intros _. destruct (status t) eqn:S; simpl; auto.
    + split; [reflexivity|]. intros E. contradiction.
  - intros [uuid|i patch|i|i|i]; cbn [run].
    + unfold addTask. destruct (trim (newTitle st) =? "")%string; [now left|].
      right. eexists. split; [|reflexivity]. reflexivity.
    + rewrite tasks_after_updateTask. apply Forall2_map_self. intros t _.
      destruct (id t =? i)%string, t as [ti tt td []]; simpl; split; (reflexivity || exact I).
    + rewrite tasks_after_moveForward. apply Forall2_map_self. intros t _.
      destruct (id t =? i)%string, t as [ti tt td []]; simpl; split; (reflexivity || exact I).
    + rewrite tasks_after_moveBack. apply Forall2_map_self. intros t _.
      destruct (id t =? i)%string, t as [ti tt td []]; simpl; split; (reflexivity || exact I).
    + rewrite tasks_after_removeTask. apply filter_removed.
Qed.


Lemma status_machine_is_linear_witness :
  map status (tasks (fst (moveForward "a" (board "" "")))) = [doing; doing; done] /\
  map status (tasks (fst (moveBack "c" (board "" "")))) = [todo; doing; doing] /\
  Forall2 (fun t t' => id t' = id t /\ one_step (status t) (status t'))
          (tasks (board "" "")) (tasks (fst (run ascii_trim (MoveForward "c") (board "" "")))).
Proof.
  destruct (status_machine_is_linear ascii_trim (board "" "")) as [_ [_ H]].
  split; [reflexivity|]. split; [reflexivity|].
  exact (H (MoveForward "c")).
Defined.

(** C5, as the code has it.  When the trimmed title is not empty,
    [addTask] puts exactly one new task in front of the list, with the
    identifier [crypto.randomUUID] has just returned and status [todo]; the
    tasks that were there follow unchanged and in their order; one request
    carries the new list; and identifiers that were distinct stay distinct when
    the new one is not among them. *)
Theorem addTask_prepends_one (trim : string -> string) (uuid : string) (st : State) :
  trim (newTitle st) <> "" ->
  (exists t,
      id t = uuid /\ status t = todo /\
      tasks (fst (addTask trim uuid st)) = t :: tasks st /\
      snd (addTask trim uuid st) = [t :: tasks st]) /\
  (NoDup (map id (tasks st)) -> ~ In uuid (map id (tasks st)) ->
   NoDup (map id (tasks (fst (addTask trim uuid st))))).
Proof.
  intros Htitle. unfold addTask.
  destruct (String.eqb_spec (trim (newTitle st)) "") as [E|_]; [contradiction|].
  split.
  - exists {| id := uuid; title := trim (newTitle st); detail := trim (newDetail st);
              status := todo |}.
    repeat split.
  - intros Hnodup Hfresh. cbn. now constructor.
Qed.

Lemma addTask_prepends_one_witness :
  tasks (fst (addTask ascii_trim "uuid-1" (board " Test it " " soon ")))
  = {| id := "uuid-1"; title := "Test it"; detail := "soon"; status := todo |}
    :: tasks (board " Test it " " soon ") /\
  NoDup (map id (tasks (fst (addTask ascii_trim "uuid-1" (board " Test it " " soon "))))).
Proof.
  destruct (addTask_prepends_one ascii_trim "uuid-1" (board " Test it " " soon "))
    as [_ Hnodup]; [discriminate|].
  split; [reflexivity|].
  apply Hnodup.
  - repeat constructor; simpl; intuition discriminate.
  - simpl; intuition discriminate.
Defined.

(** C5 as stated fails: with only white space typed as the title, [addTask]
    prepends nothing. *)
Lemma addTask_blank_title_prepends_nothing :
  ~ (exists t,
        tasks (fst (addTask ascii_trim "uuid-1" (board "   " "notes")))
        = t :: tasks (board "   " "notes")).
Proof. intros [t E]. discriminate E. Qed.

(** C6. [updateTask] changes titles and details only: position by position,
    a task keeps its id and status; a task of another id is unchanged; a
    task of the given id gets the patch's title and detail where the patch
    has them, whatever its status.  The task open in the dialog keeps its id
    and status as well. *)
Theorem updateTask_changes_title_and_detail_only (i : string) (patch : Patch) (st : State) :
  Forall2 (fun t t' =>
             id t' = id t /\ status t' = status t /\
             (id t <> i -> t' = t) /\
             (id t = i ->
              title t' = match patch_title patch with Some v => v | None => title t end /\
              detail t' = match patch_detail patch with Some v => v | None => detail t end))
          (tasks st) (tasks (fst (updateTask i patch st)))
  /\
  (forall t s, In t (tasks st) -> id t = i -> status t = s ->
               In (spread_patch t patch) (tasks (fst (updateTask i patch st))) /\
               status (spread_patch t patch) = s)
  /\
  (forall a, activeTask st = Some a ->
             exists a', activeTask (fst (updateTask i patch st)) = Some a' /\
                        id a' = id a /\ status a' = status a).
Proof.
  split; [|split].
  - rewrite tasks_after_updateTask. apply Forall2_map_self. intros t _.
    destruct (String.eqb_spec (id t) i) as [E|N]; simpl.
    + repeat split; congruence.
    + repeat split; congruence.
  - intros t s Hin Hid Hs. split; [|exact Hs].
    rewrite tasks_after_updateTask. apply in_map_iff. exists t.
    split; [|exact Hin]. subst i. now rewrite String.eqb_refl.
  - intros a Ha. unfold updateTask, active_is. rewrite Ha.
    destruct (id a =? i)%string; cbn; rewrite Ha; eexists; repeat split.
Qed.

Lemma updateTask_changes_title_and_detail_only_witness :
  tasks (fst (updateTask "b" {| patch_title := Some "Build it"; patch_detail := None |}
                         (board "" "")))
  = [t_design;
     {| id := "b"; title := "Build it"; detail := "api"; status := doing |};
     t_ship] /\
  In {| id := "b"; title := "Build it"; detail := "api"; status := doing |}
     (tasks (fst (updateTask "b" {| patch_title := Some "Build it"; patch_detail := None |}
                             (board "" "")))).
Proof.
  split; [reflexivity|].
  destruct (updateTask_changes_title_and_detail_only
              "b" {| patch_title := Some "Build it"; patch_detail := None |} (board "" ""))
    as [_ [H _]].
  apply (H t_build doing); [simpl; auto | reflexivity | reflexivity].
Defined.

(** C7. [removeTask] drops every task of the given id and keeps the others
    in their order.  When the task open in the dialog has that id the dialog
    is closed and no task is active; otherwise both are as they were. *)
Theorem removeTask_drops_id_and_closes_dialog (i : string) (st : State) :
  removed i (tasks st) (tasks (fst (removeTask i st))) /\
  (forall t, In t (tasks (fst (removeTask i st))) <-> In t (tasks st) /\ id t <> i) /\
  (forall a, activeTask st = Some a -> id a = i ->
             dialogOpen (fst (removeTask i st)) = false /\
             activeTask (fst (removeTask i st)) = None) /\
  ((activeTask st = None \/ exists a, activeTask st = Some a /\ id a <> i) ->
   dialogOpen (fst (removeTask i st)) = dialogOpen st /\
   activeTask (fst (removeTask i st)) = activeTask st).
Proof.
  split; [|split; [|split]].
  - rewrite tasks_after_removeTask. apply filter_removed.
  - intros t. rewrite tasks_after_removeTask, filter_In.
    destruct (String.eqb_spec (id t) i); simpl; intuition congruence.
  - intros a Ha Hid. unfold removeTask, active_is. rewrite Ha.
    subst i. rewrite String.eqb_refl. split; reflexivity.
  - intros H. unfold removeTask, active_is.
    destruct H as [Hnone|[a [Ha Hid]]].
    + rewrite Hnone. split; [reflexivity | exact Hnone].
    + rewrite Ha. destruct (String.eqb_spec (id a) i) as [E|_]; [contradiction|].
      split; [reflexivity | exact Ha].
Qed.

Lemma removeTask_drops_id_and_closes_dialog_witness :
  tasks (fst (removeTask "b" (board "" ""))) = [t_design; t_ship] /\
  dialogOpen (fst (removeTask "b" (board "" ""))) = false /\
  activeTask (fst (removeTask "b" (board "" ""))) = None /\
  dialogOpen (fst (removeTask "a" (board "" ""))) = true /\
  activeTask (fst (removeTask "a" (board "" ""))) = Some t_build.
Proof.
  split; [reflexivity|].
  destruct (removeTask_drops_id_and_closes_dialog "b" (board "" "")) as [_ [_ [Hopen _]]].
  destruct (removeTask_drops_id_and_closes_dialog "a" (board "" "")) as [_ [_ [_ Hother]]].
  destruct (Hopen t_build eq_refl eq_refl) as [H1 H2].
  destruct Hother as [H3 H4].
  - right. exists t_build. split; [reflexivity | discriminate].
  - repeat split; assumption.
Defined.

(** C8. When the title is empty once trimmed, [addTask] does nothing: the
    state is the one it was given and no request is issued.  Otherwise the
    task it adds holds the trimmed title and the trimmed detail. *)
Theorem addTask_trims_and_skips_blank (trim : string -> string) (uuid : string) (st : State) :
  (trim (newTitle st) = "" -> addTask trim uuid st = (st, [])) /\
  (trim (newTitle st) <> "" ->
   exists t,
     tasks (fst (addTask trim uuid st)) = t :: tasks st /\
     title t = trim (newTitle st) /\ detail t = trim (newDetail st)).
Proof.
  unfold addTask. split; intros H.
  - now rewrite H.
  - destruct (String.eqb_spec (trim (newTitle st)) "") as [E|_]; [contradiction|].
    exists {| id := uuid; title := trim (newTitle st); detail := trim (newDetail st);
              status := todo |}.
    repeat split.
Qed.

Lemma addTask_trims_and_skips_blank_witness :
  ascii_trim "   " = "" /\
  addTask ascii_trim "uuid-1" (board "   " "notes") = (board "   " "notes", []) /\
  (exists t,
      tasks (fst (addTask ascii_trim "uuid-1" (board " Test it " " soon ")))
      = t :: tasks (board " Test it " " soon ") /\
      title t = "Test it" /\ detail t = "soon").
Proof.
  split; [reflexivity|]. split.
  - exact (proj1 (addTask_trims_and_skips_blank ascii_trim "uuid-1" (board "   " "notes"))
             eq_refl).
  - apply (proj2 (addTask_trims_and_skips_blank ascii_trim "uuid-1"
                    (board " Test it " " soon "))).
    discriminate.
Defined.

(** C9. On an id that no task of the list has, [updateTask], [moveForward]
    and [moveBack] compute the list they were given. *)
Theorem unknown_id_leaves_list (i : string) (st : State) :
  (forall t, In t (tasks st) -> id t <> i) ->
  (forall patch, tasks (fst (updateTask i patch st)) = tasks st) /\
  tasks (fst (moveForward i st)) = tasks st /\
  tasks (fst (moveBack i st)) = tasks st.
Proof.
  intros Hunknown. split; [|split].
  - intros patch. rewrite tasks_after_updateTask, map_unmatched by assumption.
    apply map_id.
  - rewrite tasks_after_moveForward.
    rewrite <- (map_id (tasks st)) at 2. apply map_ext_in. intros t Ht.
    destruct (String.eqb_spec (id t) i) as [E|_]; [|reflexivity].
    exfalso. exact (Hunknown t Ht E).
  - rewrite tasks_after_moveBack.
    rewrite <- (map_id (tasks st)) at 2. apply map_ext_in. intros t Ht.
    destruct (String.eqb_spec (id t) i) as [E|_]; [|reflexivity].
    exfalso. exact (Hunknown t Ht E).
Qed.

Lemma unknown_id_leaves_list_witness :
  (forall patch, tasks (fst (updateTask "z" patch (board "" ""))) = tasks (board "" "")) /\
  tasks (fst (moveForward "z" (board "" ""))) = tasks (board "" "") /\
  tasks (fst (moveBack "z" (board "" ""))) = tasks (board "" "").
Proof.
  apply (unknown_id_leaves_list "z" (board "" "")).
  intros t [<-|[<-|[<-|[]]]]; discriminate.
Defined.

End BoardFacts.


(** ** The store under any sequence of requests *)

Module StoreFacts.
Import Json NumberFacts JsonFacts Route RouteFacts Store.

Lemma document_stored tasks w :
  forallb isTask tasks = true -> forallb js_value tasks = true ->
  document (stored (JSON_stringify (JArr tasks) ++ nl) w) = Some (map written tasks).
Proof. intros H Hv. unfold document. now rewrite readTasksFile_stored_values. Qed.

(** What a [PUT] can leave behind when [fs.writeFile] does not reject: the
    world it was given, or the list it echoes, stored. *)
Lemma PUT_world request w :
  writeFile_error w = None ->
  (exists message code,
      code <> 200 /\
      PUT request w = (Ok (NextResponse_json (message_body message) code), w))
  \/
  (exists tasks,
      forallb isTask tasks = true /\ forallb js_value tasks = true /\
      PUT request w = (Ok (NextResponse_json (tasks_body tasks) 200),
                       stored (JSON_stringify (JArr tasks) ++ nl) w)).
Proof.
  intros Hw.
  destruct (JSON_parse (text request)) as [payload|] eqn:Hparse.
  - rewrite (PUT_parsed _ _ _ Hparse).
    destruct (negb (truthy payload) || negb (jstype_eqb (typeof payload) TObject)).
    { left. exists "Invalid body", 400. split; [discriminate | reflexivity]. }
    destruct (prop payload "tasks") as [[| | | |tasks|]|] eqn:Hprop; cbn [as_array];
      try (left; exists "Invalid tasks", 400; split; [discriminate | reflexivity]).
    destruct (forallb isTask tasks) eqn:Hall.
    2:{ left. exists "Invalid tasks", 400. split; [discriminate | reflexivity]. }
    destruct (mkdir_error w) eqn:Hm.
    + left. exists "Failed to save tasks", 500. split; [discriminate|].
      unfold writeTasksFile, bind, fs_mkdir. now rewrite Hm.
    + right. exists tasks. split; [assumption|].
      split; [exact (parsed_tasks_js_value _ _ _ Hparse Hprop)|].
      now rewrite writeTasksFile_ok.
  - left. exists "Failed to save tasks", 500. split; [discriminate|].
    now apply PUT_unparsed.
Qed.

(** No request corrupts the document: when [fs.writeFile] does not reject,
    a [PUT] that answers 200 leaves a tasks file that reads back as the list
    it echoes, and a [PUT] that answers anything else leaves the file system
    exactly as it was. *)
Theorem PUT_is_all_or_nothing (request : Request) (w w' : world) (response : Response) :
  writeFile_error w = None ->
  PUT request w = (Ok response, w') ->
  (status response = 200 ->
   exists tasks,
     body response = serialize_compact (JObj [("tasks", JArr tasks)]) /\
     JSON_parse (body response) = Some (JObj [("tasks", JArr tasks)]) /\
     document w' = Some tasks) /\
  (status response <> 200 -> w' = w).
Proof.
  intros Hw Hput.
  destruct (PUT_world request w Hw) as [[message [code [Hcode E]]]|[tasks [Hall [Hv E]]]];
    rewrite E in Hput; injection Hput as <- <-; cbn [status body NextResponse_json].
  - split; [contradiction | reflexivity].
  - split; [|contradiction].
    intros _. exists (map written tasks).
    split; [symmetry; apply tasks_body_written|].
    split; [|now apply document_stored].
    now rewrite tasks_body_parses_values.
Qed.

Lemma PUT_is_all_or_nothing_witness :
  snd (PUT (request_of (tasks_body [task_without_detail]))
           (holding (JSON_stringify (JArr [example_task]))))
  = holding (JSON_stringify (JArr [example_task])) /\
  document (snd (PUT sinking_request (holding (JSON_stringify (JArr [example_task])))))
  = Some [surfaced_task].
Proof.
  split.
  - apply (proj2 (PUT_is_all_or_nothing
                    (request_of (tasks_body [task_without_detail]))
                    (holding (JSON_stringify (JArr [example_task])))
                    (snd (PUT (request_of (tasks_body [task_without_detail]))
                              (holding (JSON_stringify (JArr [example_task])))))
                    (NextResponse_json (message_body "Invalid tasks") 400)
                    eq_refl eq_refl)).
    discriminate.
  - destruct (proj1 (PUT_is_all_or_nothing
                       sinking_request
                       (holding (JSON_stringify (JArr [example_task])))
                       (snd (PUT sinking_request
                                 (holding (JSON_stringify (JArr [example_task])))))
                       (NextResponse_json (tasks_body [sunk_task]) 200)
                       eq_refl ltac:(vm_compute; reflexivity)) eq_refl) as [tasks [_ [E D]]].
    rewrite D. f_equal.
    assert (P : JSON_parse (body (NextResponse_json (tasks_body [sunk_task]) 200))
                = Some (JObj [("tasks", JArr [surfaced_task])])) by (vm_compute; reflexivity).
    rewrite P in E. now injection E as <-.
Defined.

(** Only a body whose [tasks] member is an array of tasks is answered 200. *)
Lemma PUT_200_inv request w response w' :
  PUT request w = (Ok response, w') -> status response = 200 ->
  exists payload tasks,
    JSON_parse (text request) = Some payload /\
    prop payload "tasks" = Some (JArr tasks) /\
    forallb isTask tasks = true /\
    response = NextResponse_json (tasks_body tasks) 200.
Proof.
  intros Hput Hok.
  destruct (JSON_parse (text request)) as [payload|] eqn:Hparse.
  2:{ rewrite PUT_unparsed in Hput by assumption. injection Hput as <- _. discriminate Hok. }
  rewrite (PUT_parsed _ _ _ Hparse) in Hput.
  destruct (negb (truthy payload) || negb (jstype_eqb (typeof payload) TObject));
    [injection Hput as <- _; discriminate Hok|].
  destruct (prop payload "tasks") as [[| | | |tasks|]|] eqn:Hprop; cbn [as_array] in Hput;
    try (injection Hput as <- _; discriminate Hok).
  destruct (forallb isTask tasks) eqn:Hall; [|injection Hput as <- _; discriminate Hok].
  destruct (writeTasksFile tasks w) as [[[]|e] w1];
    injection Hput as <- _; [|discriminate Hok].
  exists payload, tasks. repeat split; assumption.
Qed.

(** The last write wins: when the writes succeed, a [PUT] that is answered
    200 gets the same answer and leaves the same world whatever request came
    before it, and [GET] then answers its list. *)
Theorem last_write_wins (before request : Request) (w : world) (tasks : list json) :
  mkdir_error w = false -> writeFile_error w = None ->
  fst (PUT request w)
  = Ok {| status := 200; body := serialize_compact (JObj [("tasks", JArr tasks)]) |} ->
  PUT request (snd (PUT before w)) = PUT request w /\
  fst (GET (snd (PUT request (snd (PUT before w)))))
  = Ok {| status := 200; body := serialize_compact (JObj [("tasks", JArr tasks)]) |}.
Proof.
  intros Hm Hw Hok.
  destruct (PUT request w) as [r w1] eqn:Hput. cbn [fst] in Hok. subst r.
  destruct (PUT_200_inv _ _ _ _ Hput eq_refl) as [payload [ts [Hparse [Hprop [Hall E]]]]].
  pose proof (parsed_tasks_js_value _ _ _ Hparse Hprop) as Hv.
  pose proof (PUT_accepted _ _ _ w Hparse Hprop Hall Hm Hw) as Hfirst.
  assert (Hafter : PUT request (snd (PUT before w))
                   = (Ok (NextResponse_json (tasks_body ts) 200),
                      stored (JSON_stringify (JArr ts) ++ nl) w)).
  { destruct (PUT_world before w Hw) as [[m [c [_ Eb]]]|[tb [_ [_ Eb]]]];
      rewrite Eb; cbn [snd].
    - exact Hfirst.
    - rewrite (PUT_accepted _ _ _ _ Hparse Hprop Hall) by assumption. reflexivity. }
  split; [rewrite Hafter, <- Hfirst; exact Hput|].
  rewrite Hafter. cbn [snd]. rewrite GET_stored_values by assumption. cbn [fst].
  now rewrite <- E.
Qed.

Lemma last_write_wins_witness :
  PUT (request_of (tasks_body [tagged_task]))
      (snd (PUT (request_of (tasks_body [example_task])) fresh_world))
  = PUT (request_of (tasks_body [tagged_task])) fresh_world /\
  fst (GET (snd (PUT (request_of (tasks_body [tagged_task]))
                     (snd (PUT (request_of (tasks_body [example_task])) fresh_world)))))
  = Ok {| status := 200; body := serialize_compact (JObj [("tasks", JArr [tagged_task])]) |}.
Proof.
  exact (last_write_wins (request_of (tasks_body [example_task]))
           (request_of (tasks_body [tagged_task])) fresh_world [tagged_task]
           eq_refl eq_refl ltac:(vm_compute; reflexivity)).
Defined.

(** The text of a body, by the texts of the elements of its list. *)
Lemma tasks_body_text tasks :
  serialize_compact (tasks_body tasks)
  = ("{" ++ quote "tasks" ++ ":[") ++ joined (map serialize_compact tasks) ++ "]}".
Proof.
  unfold tasks_body. cbn [serialize_compact map wrap_compact join_tail].
  rewrite wrap_compact_joined. now rewrite !append_assoc.
Qed.

Lemma tasks_body_elements a b :
  serialize_compact (tasks_body a) = serialize_compact (tasks_body b) ->
  joined (map serialize_compact a) = joined (map serialize_compact b).
Proof.
  rewrite !tasks_body_text. intros H.
  apply append_cancel_l in H. now apply append_cancel_r in H.
Qed.

(** If two lists are written as they are read back, so is the two together. *)
Lemma tasks_body_app a b :
  serialize_compact (tasks_body (map reread a)) = serialize_compact (tasks_body a) ->
  serialize_compact (tasks_body (map reread b)) = serialize_compact (tasks_body b) ->
  serialize_compact (tasks_body (map reread (a ++ b)%list))
  = serialize_compact (tasks_body (a ++ b)%list).
Proof.
  intros Ha Hb. destruct a as [|x a]; [exact Hb|].
  destruct b as [|y b]; [now rewrite List.app_nil_r|].
  apply tasks_body_elements in Ha, Hb.
  rewrite !tasks_body_text. f_equal. f_equal.
  rewrite !List.map_app. cbn [map] in *.
  now rewrite !joined_app, Ha, Hb.
Qed.

(** What [PUT] answers to a list sent as [JSON.stringify] writes it. *)
Lemma PUT_request_of l w :
  mkdir_error w = false -> writeFile_error w = None ->
  forallb isTask l = true ->
  PUT (request_of (tasks_body l)) w
  = (Ok (NextResponse_json (tasks_body (map reread l)) 200),
     stored (JSON_stringify (JArr (map reread l)) ++ nl) w).
Proof.
  intros Hm Hw Hall.
  apply (PUT_accepted _ (tasks_body (map reread l))); try assumption.
  - unfold request_of. cbn [text].
    now destruct (JSON_parse_stringify (tasks_body l)) as [-> _].
  - reflexivity.
  - now rewrite all_isTask_reread.
Qed.

Lemma PUT_request_of_inv l w :
  fst (PUT (request_of (tasks_body l)) w)
  = Ok {| status := 200; body := serialize_compact (JObj [("tasks", JArr l)]) |} ->
  forallb isTask l = true /\
  serialize_compact (tasks_body (map reread l)) = serialize_compact (tasks_body l).
Proof.
  intros H. destruct (PUT (request_of (tasks_body l)) w) as [r w1] eqn:Hput.
  cbn [fst] in H. subst r.
  destruct (PUT_200_inv _ _ _ _ Hput eq_refl) as [payload [ts [Hp [Hprop [Hts E]]]]].
  unfold request_of in Hp. cbn [text] in Hp.
  destruct (JSON_parse_stringify (tasks_body l)) as [Hparse _].
  rewrite Hparse in Hp. injection Hp as <-. cbn in Hprop. injection Hprop as <-.
  rewrite all_isTask_reread in Hts. split; [exact Hts|].
  apply (f_equal body) in E. symmetry. exact E.
Qed.

(** The route checks each task on its own: it enforces nothing between the
    tasks of a list, so if it accepts two lists it accepts their
    concatenation, and a list that holds the same tasks twice is stored and
    served with both copies. *)
Theorem PUT_checks_each_task_alone (l1 l2 : list json) (w : world) :
  mkdir_error w = false -> writeFile_error w = None ->
  fst (PUT (request_of (tasks_body l1)) w)
  = Ok {| status := 200; body := serialize_compact (JObj [("tasks", JArr l1)]) |} ->
  fst (PUT (request_of (tasks_body l2)) w)
  = Ok {| status := 200; body := serialize_compact (JObj [("tasks", JArr l2)]) |} ->
  fst (PUT (request_of (tasks_body (l1 ++ l2)%list)) w)
  = Ok {| status := 200; body := serialize_compact (JObj [("tasks", JArr (l1 ++ l2)%list)]) |} /\
  fst (GET (snd (PUT (request_of (tasks_body (l1 ++ l1)%list)) w)))
  = Ok {| status := 200; body := serialize_compact (JObj [("tasks", JArr (l1 ++ l1)%list)]) |}.
Proof.
  intros Hm Hw H1 H2.
  destruct (PUT_request_of_inv _ _ H1) as [A1 B1].
  destruct (PUT_request_of_inv _ _ H2) as [A2 B2].
  split.
  - rewrite PUT_request_of by (try assumption; rewrite forallb_app; now rewrite A1, A2).
    cbn [fst]. unfold NextResponse_json. f_equal. f_equal. now apply tasks_body_app.
  - rewrite PUT_request_of by (try assumption; rewrite forallb_app; now rewrite A1).
    cbn [snd]. rewrite GET_stored
      by (rewrite all_isTask_reread, forallb_app; now rewrite A1).
    cbn [fst]. unfold NextResponse_json. f_equal. f_equal.
    transitivity (serialize_compact (tasks_body (map reread (l1 ++ l1)%list)));
      [|now apply tasks_body_app].
    exact (serialize_compact_reread (tasks_body (l1 ++ l1)%list)).
Qed.

Lemma PUT_checks_each_task_alone_witness :
  fst (PUT (request_of (tasks_body ([example_task] ++ [tagged_task])%list)) fresh_world)
  = Ok {| status := 200;
          body := serialize_compact
                    (JObj [("tasks", JArr ([example_task] ++ [tagged_task])%list)]) |} /\
  fst (GET (snd (PUT (request_of (tasks_body ([example_task] ++ [example_task])%list))
                     fresh_world)))
  = Ok {| status := 200;
          body := serialize_compact
                    (JObj [("tasks", JArr ([example_task] ++ [example_task])%list)]) |}.
Proof.
  exact (PUT_checks_each_task_alone [example_task] [tagged_task] fresh_world
           eq_refl eq_refl ltac:(vm_compute; reflexivity) ltac:(vm_compute; reflexivity)).
Defined.

End StoreFacts.

(** ** How the operations of the board compose *)

Module BoardLaws.
Import Board BoardFacts Compose.

Lemma flat_map_singleton {A B} (f : A -> B) l : flat_map (fun x => [f x]) l = map f l.
Proof. induction l as [|x l IH]; simpl; [reflexivity | now rewrite IH]. Qed.

Lemma flat_map_filter {A} (p : A -> bool) l :
  flat_map (fun x => if p x then [x] else []) l = filter p l.
Proof.
  induction l as [|x l IH]; simpl; [reflexivity|].
  rewrite IH. now destruct (p x).
Qed.

Lemma tasks_after_run trim a st :
  target a <> None ->
  tasks (fst (run trim a st)) = flat_map (on_task a) (tasks st).
Proof.
  destruct a as [uuid|i patch|i|i|i]; cbn [target run on_task]; intros H.
  - contradiction.
  - rewrite tasks_after_updateTask. symmetry. apply flat_map_singleton.
  - rewrite tasks_after_moveForward. symmetry. apply (flat_map_singleton (fun t => _)).
  - rewrite tasks_after_moveBack. symmetry. apply (flat_map_singleton (fun t => _)).
  - rewrite tasks_after_removeTask. symmetry.
    apply (flat_map_filter (fun t => negb (id t =? i)%string)).
Qed.

Lemma on_task_other a i t :
  target a = Some i -> id t <> i -> on_task a t = [t].
Proof.
  destruct a as [uuid|j patch|j|j|j]; cbn [target on_task]; intros [= ->] Hid;
    destruct (String.eqb_spec (id t) i); try contradiction; reflexivity.
Qed.

Lemma on_task_id a t t' : In t' (on_task a t) -> id t' = id t.
Proof.
  destruct a as [uuid|j patch|j|j|j]; cbn [on_task].
  - intros [<-|[]]. reflexivity.
  - intros [<-|[]]. now destruct (id t =? j)%string.
  - intros [<-|[]]. destruct (id t =? j)%string, t as [ti tt td []]; reflexivity.
  - intros [<-|[]]. destruct (id t =? j)%string, t as [ti tt td []]; reflexivity.
  - destruct (id t =? j)%string; cbn; [intros [] | intros [<-|[]]; reflexivity].
Qed.

Lemma flat_map_other a i l :
  target a = Some i -> (forall t, In t l -> id t <> i) -> flat_map (on_task a) l = l.
Proof.
  intros Ha. induction l as [|t l IH]; intros H; [reflexivity|].
  cbn [flat_map]. rewrite (on_task_other a i t Ha) by (apply H; now left).
  cbn. f_equal. apply IH. intros t' Ht'. apply H. now right.
Qed.

Lemma on_task_commute a b i j t :
  target a = Some i -> target b = Some j -> i <> j ->
  flat_map (on_task b) (on_task a t) = flat_map (on_task a) (on_task b t).
Proof.
  intros Ha Hb Hij.
  destruct (String.eqb_spec (id t) j) as [Ej|Nj].
  - assert (Ni : id t <> i) by congruence.
    rewrite (on_task_other a i t Ha Ni). cbn [flat_map]. rewrite List.app_nil_r.
    symmetry. apply (flat_map_other a i); [assumption|].
    intros t' Ht'. rewrite (on_task_id b t t' Ht'). exact Ni.
  - rewrite (on_task_other b j t Hb Nj). cbn [flat_map]. rewrite List.app_nil_r.
    apply (flat_map_other b j); [assumption|].
    intros t' Ht'. rewrite (on_task_id a t t' Ht'). exact Nj.
Qed.

Lemma flat_map_twice {A} (f g : A -> list A) l :
  flat_map g (flat_map f l) = flat_map (fun x => flat_map g (f x)) l.
Proof.
  induction l as [|x l IH]; [reflexivity|].
  cbn [flat_map]. now rewrite List.flat_map_app, IH.
Qed.

(** Operations on different tasks commute: for two of [updateTask],
    [moveForward], [moveBack] and [removeTask] given different ids, the list
    is the same whichever runs first. *)
Theorem operations_on_different_tasks_commute
    (trim : string -> string) (a b : action) (i j : string) (st : State) :
  target a = Some i -> target b = Some j -> i <> j ->
  tasks (fst (run trim b (fst (run trim a st))))
  = tasks (fst (run trim a (fst (run trim b st)))).
Proof.
  intros Ha Hb Hij.
  rewrite !tasks_after_run by congruence.
  rewrite !flat_map_twice. apply flat_map_ext. intros t.
  now apply (on_task_commute a b i j).
Qed.


Lemma operations_on_different_tasks_commute_witness :
  tasks (fst (run ascii_trim (RemoveTask "c")
                (fst (run ascii_trim (MoveForward "a") (board "" "")))))
  = tasks (fst (run ascii_trim (MoveForward "a")
                  (fst (run ascii_trim (RemoveTask "c") (board "" ""))))).
Proof.
  apply (operations_on_different_tasks_commute ascii_trim
           (MoveForward "a") (RemoveTask "c") "a" "c" (board "" ""));
    [reflexivity | reflexivity | discriminate].
Defined.

Lemma map_id_preserved (f : Task -> Task) l :
  (forall t, id (f t) = id t) -> map id (map f l) = map id l.
Proof. intros H. rewrite map_map. apply map_ext. exact H. Qed.

Lemma NoDup_map_filter {A B} (f : A -> B) (p : A -> bool) l :
  NoDup (map f l) -> NoDup (map f (filter p l)).
Proof.
  induction l as [|x l IH]; intros H; [constructor|].
  cbn [map] in H. inversion H as [|? ? Hnot Hrest]; subst.
  cbn [filter]. destruct (p x); [|now apply IH].
  cbn [map]. constructor; [|now apply IH].
  intros Hin. apply Hnot. apply in_map_iff in Hin. destruct Hin as [y [E Hy]].
  apply in_map_iff. exists y. split; [exact E|]. apply filter_In in Hy. tauto.
Qed.

(** Identifiers are kept: [updateTask], [moveForward] and [moveBack] leave
    the ids of the list as they are, position by position, and every
    operation keeps distinct ids distinct, [addTask] when the identifier it is
    given is not in the list. *)
Theorem ids_stay_distinct (trim : string -> string) (a : action) (st : State) :
  (match a with
   | UpdateTask _ _ | MoveForward _ | MoveBack _ =>
       map id (tasks (fst (run trim a st))) = map id (tasks st)
   | AddTask _ | RemoveTask _ => True
   end) /\
  (NoDup (map id (tasks st)) ->
   (forall uuid, a = AddTask uuid -> ~ In uuid (map id (tasks st))) ->
   NoDup (map id (tasks (fst (run trim a st))))).
Proof.
  assert (Hmap :
    match a with
    | UpdateTask _ _ | MoveForward _ | MoveBack _ =>
        map id (tasks (fst (run trim a st))) = map id (tasks st)
    | AddTask _ | RemoveTask _ => True
    end).
  { destruct a as [uuid|i patch|i|i|i]; cbn [run]; try exact I.
    - rewrite tasks_after_updateTask. apply map_id_preserved.
      intros t. now destruct (id t =? i)%string.
    - rewrite tasks_after_moveForward. apply (map_id_preserved (fun t => _)).
      intros t. destruct (id t =? i)%string, t as [ti tt td []]; reflexivity.
    - rewrite tasks_after_moveBack. apply (map_id_preserved (fun t => _)).
      intros t. destruct (id t =? i)%string, t as [ti tt td []]; reflexivity. }
  split; [exact Hmap|]. intros Hnodup Hfresh.
  destruct a as [uuid|i patch|i|i|i]; try (rewrite Hmap; exact Hnodup).
  - cbn [run]. unfold addTask.
    destruct (trim (newTitle st) =? "")%string; [exact Hnodup|].
    cbn. constructor; [now apply Hfresh | exact Hnodup].
  - cbn [run]. rewrite tasks_after_removeTask. now apply NoDup_map_filter.
Qed.

Lemma ids_stay_distinct_witness :
  map id (tasks (fst (run ascii_trim (MoveBack "b") (board "" "")))) = ["a"; "b"; "c"] /\
  NoDup (map id (tasks (fst (run ascii_trim (AddTask "d") (board "x" ""))))).
Proof.
  split.
  - exact (proj1 (ids_stay_distinct ascii_trim (MoveBack "b") (board "" ""))).
  - apply (proj2 (ids_stay_distinct ascii_trim (AddTask "d") (board "x" ""))).
    + repeat constructor; simpl; intuition discriminate.
    + intros uuid [= <-]. simpl. intuition discriminate.
Defined.

(** Every operation that changes anything sends one request, and the request
    carries the list the board now shows; the saving flag is raised.  The one
    operation that sends nothing is [addTask] on a title that is empty once
    trimmed, which leaves the state as it was. *)
Lemma operation_sends_the_list_it_shows (trim : string -> string) (a : action) (st : State) :
  (snd (run trim a st) = [tasks (fst (run trim a st))] /\
   saving (fst (run trim a st)) = true)
  \/
  (exists uuid, a = AddTask uuid /\ trim (newTitle st) = "" /\ run trim a st = (st, [])).
Proof.
  destruct a as [uuid|i patch|i|i|i]; cbn [run].
  - unfold addTask. destruct (String.eqb_spec (trim (newTitle st)) "") as [E|_].
    + right. exists uuid. repeat split. exact E.
    + left. split; reflexivity.
  - left. unfold updateTask. destruct (active_is st i); split; reflexivity.
  - left. split; reflexivity.
  - left. split; reflexivity.
  - left. unfold removeTask. destruct (active_is st i); split; reflexivity.
Qed.

(** Forward and back are inverse away from the ends: when no task of the id
    is [done], [moveBack] undoes [moveForward], and when none is [todo],
    [moveForward] undoes [moveBack]. *)
Theorem forward_and_back_are_inverse (i : string) (st : State) :
  ((forall t, In t (tasks st) -> id t = i -> status t <> done) ->
   tasks (fst (moveBack i (fst (moveForward i st)))) = tasks st) /\
  ((forall t, In t (tasks st) -> id t = i -> status t <> todo) ->
   tasks (fst (moveForward i (fst (moveBack i st)))) = tasks st).
Proof.
  split; intros H.
  - rewrite tasks_after_moveBack, tasks_after_moveForward, map_map.
    rewrite <- (map_id (tasks st)) at 2. apply map_ext_in. intros t Ht.
    specialize (H t Ht). destruct t as [ti tt td s]. cbn [id status] in *.
    destruct (String.eqb_spec ti i) as [->|N].
    + destruct s; cbn; rewrite ?String.eqb_refl; cbn; try reflexivity.
      exfalso. now apply H.
    + apply String.eqb_neq in N. cbn. now rewrite N.
  - rewrite tasks_after_moveForward, tasks_after_moveBack, map_map.
    rewrite <- (map_id (tasks st)) at 2. apply map_ext_in. intros t Ht.
    specialize (H t Ht). destruct t as [ti tt td s]. cbn [id status] in *.
    destruct (String.eqb_spec ti i) as [->|N].
    + destruct s; cbn; rewrite ?String.eqb_refl; cbn; try reflexivity.
      exfalso. now apply H.
    + apply String.eqb_neq in N. cbn. now rewrite N.
Qed.


Lemma forward_and_back_are_inverse_witness :
  tasks (fst (moveBack "a" (fst (moveForward "a" (board "" ""))))) = tasks (board "" "") /\
  tasks (fst (moveForward "c" (fst (moveBack "c" (board "" ""))))) = tasks (board "" "").
Proof.
  split.
  - apply (proj1 (forward_and_back_are_inverse "a" (board "" ""))).
    intros t [<-|[<-|[<-|[]]]]; discriminate.
  - apply (proj2 (forward_and_back_are_inverse "c" (board "" ""))).
    intros t [<-|[<-|[<-|[]]]]; discriminate.
Defined.

(** Two steps forward reach the end: after [moveForward] has run twice on
    an id, every task of that id is [done], and further runs change nothing;
    the same holds for [moveBack] and [todo]. *)
Theorem two_steps_reach_the_end (i : string) (st : State) :
  (forall t, In t (tasks (fst (moveForward i (fst (moveForward i st))))) ->
             id t = i -> status t = done) /\
  tasks (fst (moveForward i (fst (moveForward i (fst (moveForward i st))))))
  = tasks (fst (moveForward i (fst (moveForward i st)))) /\
  (forall t, In t (tasks (fst (moveBack i (fst (moveBack i st))))) ->
             id t = i -> status t = todo) /\
  tasks (fst (moveBack i (fst (moveBack i (fst (moveBack i st))))))
  = tasks (fst (moveBack i (fst (moveBack i st)))).
Proof.
  repeat split.
  - intros t. rewrite !tasks_after_moveForward, map_map, in_map_iff.
    intros [u [<- _]]. destruct u as [ui ut ud s]. cbn [id status].
    destruct (String.eqb_spec ui i) as [->|N].
    + destruct s; cbn; rewrite ?String.eqb_refl; cbn; reflexivity.
    + pose proof N as N'. apply String.eqb_neq in N'. cbn. rewrite N'. cbn. contradiction.
  - rewrite !tasks_after_moveForward, !map_map. apply map_ext. intros [ui ut ud s].
    cbn [id status]. destruct (String.eqb_spec ui i) as [->|N].
    + destruct s; cbn; rewrite ?String.eqb_refl; cbn; rewrite ?String.eqb_refl; reflexivity.
    + apply String.eqb_neq in N. cbn. rewrite N. cbn. now rewrite N.
  - intros t. rewrite !tasks_after_moveBack, map_map, in_map_iff.
    intros [u [<- _]]. destruct u as [ui ut ud s]. cbn [id status].
    destruct (String.eqb_spec ui i) as [->|N].
    + destruct s; cbn; rewrite ?String.eqb_refl; cbn; reflexivity.
    + pose proof N as N'. apply String.eqb_neq in N'. cbn. rewrite N'. cbn. contradiction.
  - rewrite !tasks_after_moveBack, !map_map. apply map_ext. intros [ui ut ud s].
    cbn [id status]. destruct (String.eqb_spec ui i) as [->|N].
    + destruct s; cbn; rewrite ?String.eqb_refl; cbn; rewrite ?String.eqb_refl; reflexivity.
    + apply String.eqb_neq in N. cbn. rewrite N. cbn. now rewrite N.
Qed.

Lemma two_steps_reach_the_end_witness :
  map status (tasks (fst (moveForward "a" (fst (moveForward "a" (board "" ""))))))
  = [done; doing; done] /\
  tasks (fst (moveForward "a" (fst (moveForward "a" (fst (moveForward "a" (board "" "")))))))
  = tasks (fst (moveForward "a" (fst (moveForward "a" (board "" ""))))).
Proof.
  split; [reflexivity|].
  exact (proj1 (proj2 (two_steps_reach_the_end "a" (board "" "")))).
Defined.

Lemma filter_other_ids i l :
  ~ In i (map id l) -> filter (fun task => negb (id task =? i)%string) l = l.
Proof.
  induction l as [|t l IH]; intros H; [reflexivity|].
  cbn [filter map] in *. destruct (String.eqb_spec (id t) i) as [E|_].
  - exfalso. apply H. now left.
  - cbn. f_equal. apply IH. intros Hin. apply H. now right.
Qed.

(** Adding and then removing: when the identifier given to [addTask] is not
    in the list, [removeTask] on it gives back the list as it was. *)
Theorem add_then_remove (trim : string -> string) (uuid : string) (st : State) :
  ~ In uuid (map id (tasks st)) ->
  tasks (fst (removeTask uuid (fst (addTask trim uuid st)))) = tasks st.
Proof.
  intros Hfresh. rewrite tasks_after_removeTask. unfold addTask.
  destruct (trim (newTitle st) =? "")%string.
  - now apply filter_other_ids.
  - cbn. rewrite String.eqb_refl. cbn. now apply filter_other_ids.
Qed.

Lemma add_then_remove_witness :
  tasks (fst (removeTask "d" (fst (addTask ascii_trim "d" (board "Deploy" "")))))
  = tasks (board "Deploy" "").
Proof.
  apply (add_then_remove ascii_trim "d" (board "Deploy" "")).
  simpl. intuition discriminate.
Defined.

(** After a task has been added the form is empty, so a second [addTask]
    right after the first adds nothing and sends nothing (for a [trim] that
    maps the empty string to itself). *)
Theorem second_submit_adds_nothing
    (trim : string -> string) (uuid1 uuid2 : string) (st : State) :
  trim "" = "" ->
  (trim (newTitle st) <> "" ->
   newTitle (fst (addTask trim uuid1 st)) = "" /\
   newDetail (fst (addTask trim uuid1 st)) = "") /\
  addTask trim uuid2 (fst (addTask trim uuid1 st)) = (fst (addTask trim uuid1 st), []).
Proof.
  intros Hempty. unfold addTask at 1 2 4 5.
  destruct (String.eqb_spec (trim (newTitle st)) "") as [E|N].
  - split; [contradiction|]. cbn [fst]. unfold addTask. now rewrite E.
  - split; [split; reflexivity|]. unfold addTask. cbn. now rewrite Hempty.
Qed.

Lemma second_submit_adds_nothing_witness :
  addTask ascii_trim "uuid-2" (fst (addTask ascii_trim "uuid-1" (board "Deploy" "")))
  = (fst (addTask ascii_trim "uuid-1" (board "Deploy" "")), []).
Proof.
  exact (proj2 (second_submit_adds_nothing ascii_trim "uuid-1" "uuid-2" (board "Deploy" "")
                  eq_refl)).
Defined.

(** Edits of one task add up: two [updateTask] on the same id give the list
    that one [updateTask] with the merged patch gives, the later title and the
    later detail winning where both patches have one. *)
Theorem updates_merge (i : string) (first second : Patch) (st : State) :
  tasks (fst (updateTask i second (fst (updateTask i first st))))
  = tasks (fst (updateTask i (merge first second) st)).
Proof.
  rewrite !tasks_after_updateTask, map_map. apply map_ext. intros [ti tt td s].
  cbn [id]. destruct (String.eqb_spec ti i) as [->|N].
  - cbn. rewrite String.eqb_refl. unfold spread_patch, merge. cbn.
    destruct (patch_title second), (patch_detail second),
      (patch_title first), (patch_detail first); reflexivity.
  - apply String.eqb_neq in N. cbn [id]. now rewrite N.
Qed.

End BoardLaws.


(** ** The board against the store *)

Module WireFacts.
Import Json JsonFacts Board View Wire RouteFacts BoardLaws.

Lemma isTask_task_to_json t : Route.isTask (task_to_json t) = true.
Proof. destruct t as [i ti d []]; reflexivity. Qed.

Lemma all_isTask_board ts : forallb Route.isTask (map task_to_json ts) = true.
Proof.
  induction ts as [|t ts IH]; [reflexivity|].
  cbn [map forallb]. now rewrite isTask_task_to_json, IH.
Qed.

(** The tasks of the board are read back as they were written: they hold
    strings only, under four names in the order of their creation. *)
Lemma reread_task_to_json t : reread (task_to_json t) = task_to_json t.
Proof. reflexivity. Qed.

Lemma reread_board ts : map reread (map task_to_json ts) = map task_to_json ts.
Proof. rewrite map_map. apply map_ext. intros t. apply reread_task_to_json. Qed.

Lemma as_Task_task_to_json t : as_Task (task_to_json t) = Some t.
Proof. destruct t as [i ti d []]; reflexivity. Qed.

Lemma as_Tasks_board ts : as_Tasks (map task_to_json ts) = Some ts.
Proof.
  induction ts as [|t ts IH]; [reflexivity|].
  cbn [map as_Tasks]. now rewrite as_Task_task_to_json, IH.
Qed.

Lemma status_of_name_inv s st : status_of_name s = Some st -> s = status_name st.
Proof.
  unfold status_of_name.
  destruct (String.eqb_spec s "todo") as [->|_]; [intros [= <-]; reflexivity|].
  destruct (String.eqb_spec s "doing") as [->|_]; [intros [= <-]; reflexivity|].
  destruct (String.eqb_spec s "done") as [->|_]; [intros [= <-]; reflexivity|].
  discriminate.
Qed.

(** [as_Task] reads exactly the objects that [task_to_json] writes. *)
Lemma as_Task_inv v t : as_Task v = Some t -> v = task_to_json t.
Proof.
  destruct v as [| | | | |members]; try discriminate.
  destruct members as [|[k1 [| | |i| |]] [|[k2 [| | |ti| |]] [|[k3 [| | |d| |]]
    [|[k4 [| | |s| |]] [|]]]]]; try discriminate.
  cbn [as_Task].
  destruct (String.eqb_spec k1 "id") as [->|_]; [|discriminate].
  destruct (String.eqb_spec k2 "title") as [->|_]; [|discriminate].
  destruct (String.eqb_spec k3 "detail") as [->|_]; [|discriminate].
  destruct (String.eqb_spec k4 "status") as [->|_]; [|discriminate].
  cbn. destruct (status_of_name s) as [st|] eqn:E; [|discriminate].
  intros [= <-]. apply status_of_name_inv in E. now subst.
Qed.

Lemma put_request_parses ts :
  JSON_parse (Route.text (put_request ts)) = Some (Route.tasks_body (map task_to_json ts)).
Proof.
  unfold put_request. cbn [Route.text].
  now rewrite tasks_body_parses, reread_board.
Qed.

Lemma PUT_board ts w :
  Route.PUT (put_request ts) w =
  match Route.writeTasksFile (map task_to_json ts) w with
  | (Route.Ok _, w') =>
      (Route.Ok (Route.NextResponse_json (Route.tasks_body (map task_to_json ts)) 200), w')
  | (Route.Throw _, w') =>
      (Route.Ok (Route.NextResponse_json (Route.message_body "Failed to save tasks") 500), w')
  end.
Proof.
  rewrite (PUT_parsed _ _ _ (put_request_parses ts)). cbn.
  now rewrite all_isTask_board.
Qed.

Lemma GET_board ts w :
  Route.GET (Route.stored (JSON_stringify (JArr (map task_to_json ts)) ++ nl) w)
  = (Route.Ok (Route.NextResponse_json (Route.tasks_body (map task_to_json ts)) 200),
     Route.stored (JSON_stringify (JArr (map task_to_json ts)) ++ nl) w).
Proof. rewrite GET_stored by apply all_isTask_board. now rewrite reread_board. Qed.

Lemma loadTasks_of_answer ts :
  loadTasks (on_wire (Route.NextResponse_json (Route.tasks_body (map task_to_json ts)) 200))
  = ([SetTasks (map task_to_json ts); SetLoading false], Returned).
Proof.
  unfold on_wire, loadTasks, loadTasks_try.
  cbn [Route.status Route.body Route.NextResponse_json].
  change ((200 <=? 200)%nat && (200 <=? 299)%nat) with true. cbn [negb].
  rewrite tasks_body_parses, reread_board. reflexivity.
Qed.

Lemma apply_calls_board ts st :
  apply_calls [SetTasks (map task_to_json ts); SetLoading false] st
  = Some (fst (setLoading false (fst (setTasks ts st)))).
Proof. cbn [apply_calls apply_call]. now rewrite as_Tasks_board. Qed.

(** The requests of the board always pass the shape check of the route:
    [PUT] answers them with 200 and the list when the write succeeds, with 500
    when it does not, and never with 400. *)
Theorem board_request_is_never_rejected (ts : list Task) (w : Route.world) :
  exists response w',
    Route.PUT (put_request ts) w = (Route.Ok response, w') /\
    Route.status response <> 400 /\
    (Route.mkdir_error w = false -> Route.writeFile_error w = None ->
     response
     = {| Route.status := 200;
          Route.body := serialize_compact (JObj [("tasks", JArr (map task_to_json ts))]) |} /\
     JSON_parse (Route.body response) = Some (JObj [("tasks", JArr (map task_to_json ts))]) /\
     w' = {| Route.tasks_file :=
               Route.Content (JSON_stringify (JArr (map task_to_json ts)) ++ nl);
             Route.mkdir_error := false; Route.writeFile_error := None |}) /\
    (Route.mkdir_error w = true \/ Route.writeFile_error w <> None ->
     response
     = {| Route.status := 500;
          Route.body := serialize_compact (JObj [("message", JStr "Failed to save tasks")]) |}).
Proof.
  rewrite PUT_board.
  destruct (Route.writeTasksFile (map task_to_json ts) w) as [[[]|e] w'] eqn:Hwrite.
  - destruct (writeTasksFile_inv _ _ _ Hwrite) as [Hm [Hw ->]].
    eexists _, _. split; [reflexivity|]. split; [discriminate|]. split.
    + intros _ _. split; [reflexivity|]. split; [|now apply stored_fields].
      cbn [Route.body Route.NextResponse_json].
      now rewrite tasks_body_parses, reread_board.
    + intros [H|H]; congruence.
  - eexists _, _. split; [reflexivity|]. split; [discriminate|]. split; [|auto].
    intros Hm Hw. rewrite writeTasksFile_ok in Hwrite by assumption. discriminate.
Qed.

Lemma board_request_is_never_rejected_witness :
  Route.PUT (put_request [t_design; t_build; t_ship]) Route.fresh_world
  = (Route.Ok
       {| Route.status := 200;
          Route.body :=
            serialize_compact
              (JObj [("tasks", JArr (map task_to_json [t_design; t_build; t_ship]))]) |},
     {| Route.tasks_file :=
          Route.Content
            (JSON_stringify (JArr (map task_to_json [t_design; t_build; t_ship])) ++ nl);
        Route.mkdir_error := false; Route.writeFile_error := None |}).
Proof.
  destruct (board_request_is_never_rejected [t_design; t_build; t_ship] Route.fresh_world)
    as [response [w' [E [_ [Hok _]]]]].
  destruct (Hok eq_refl eq_refl) as [-> [_ ->]]. exact E.
Defined.

Lemma reload_after_save ts w st :
  Route.mkdir_error w = false -> Route.writeFile_error w = None ->
  fst (fetch_PUT ts w)
  = Answered true (serialize_compact (JObj [("tasks", JArr (map task_to_json ts))])) /\
  loadTasks (fetch_GET (snd (fetch_PUT ts w)))
  = ([SetTasks (map task_to_json ts); SetLoading false], Returned) /\
  exists st',
    apply_calls (fst (loadTasks (fetch_GET (snd (fetch_PUT ts w))))) st = Some st' /\
    tasks st' = ts /\ loading st' = false.
Proof.
  intros Hm Hw. unfold fetch_PUT. rewrite PUT_board, writeTasksFile_ok by assumption.
  split; [reflexivity|]. cbn [snd].
  unfold fetch_GET. rewrite GET_board, loadTasks_of_answer.
  split; [reflexivity|]. cbn [fst]. rewrite apply_calls_board.
  eexists. split; [reflexivity|]. split; reflexivity.
Qed.

(** Save and reload: when the write succeeds, the list that [persistTasks]
    sent is the list that [loadTasks] sets from the next [GET], task for task
    and in the same order. *)
Theorem save_then_reload (ts : list Task) (w : Route.world) (st : State) :
  Route.mkdir_error w = false -> Route.writeFile_error w = None ->
  fst (fetch_PUT ts w)
  = Answered true (serialize_compact (JObj [("tasks", JArr (map task_to_json ts))])) /\
  loadTasks (fetch_GET (snd (fetch_PUT ts w)))
  = ([SetTasks (map task_to_json ts); SetLoading false], Returned) /\
  exists st',
    apply_calls (fst (loadTasks (fetch_GET (snd (fetch_PUT ts w))))) st = Some st' /\
    tasks st' = ts /\ loading st' = false.
Proof. apply reload_after_save. Qed.

Lemma save_then_reload_witness :
  exists st',
    apply_calls
      (fst (loadTasks (fetch_GET (snd (fetch_PUT [t_design; t_build; t_ship]
                                                 Route.fresh_world)))))
      mounting = Some st' /\
    tasks st' = [t_design; t_build; t_ship] /\ loading st' = false.
Proof.
  exact (proj2 (proj2 (save_then_reload [t_design; t_build; t_ship] Route.fresh_world mounting
                         eq_refl eq_refl))).
Defined.

(** An operation survives a reload: when the write succeeds, the request
    that one of the five operations sends makes the store hold the list the
    board shows after the operation, so that [loadTasks] on a fresh mount sets
    that very list.  An operation that sends nothing has changed nothing. *)
Theorem operation_survives_reload
    (trim : string -> string) (a : action) (st : State) (w : Route.world) :
  Route.mkdir_error w = false -> Route.writeFile_error w = None ->
  (forall sent, In sent (snd (run trim a st)) ->
     fst (loadTasks (fetch_GET (snd (fetch_PUT sent w))))
     = [SetTasks (map task_to_json (tasks (fst (run trim a st)))); SetLoading false] /\
     exists st',
       apply_calls (fst (loadTasks (fetch_GET (snd (fetch_PUT sent w))))) mounting = Some st' /\
       tasks st' = tasks (fst (run trim a st))) /\
  (snd (run trim a st) = [] -> fst (run trim a st) = st).
Proof.
  intros Hm Hw.
  destruct (operation_sends_the_list_it_shows trim a st)
    as [[Hsent _]|[uuid [_ [_ E]]]].
  - rewrite Hsent. split; [|discriminate].
    intros sent [<-|[]].
    destruct (reload_after_save (tasks (fst (run trim a st))) w mounting Hm Hw)
      as [_ [Hcalls [st' [Hload [Htasks _]]]]].
    split; [now rewrite Hcalls|].
    exists st'. split; assumption.
  - rewrite E. split; [intros sent []|reflexivity].
Qed.

Lemma operation_survives_reload_witness :
  exists st',
    apply_calls
      (fst (loadTasks (fetch_GET (snd (fetch_PUT [t_design; t_ship] Route.fresh_world)))))
      mounting
    = Some st' /\
    tasks st' = tasks (fst (run ascii_trim (RemoveTask "b") (board "" ""))).
Proof.
  apply (proj1 (operation_survives_reload ascii_trim (RemoveTask "b") (board "" "")
                  Route.fresh_world eq_refl eq_refl)).
  now left.
Defined.

Lemma last_loading_finally calls :
  last_loading (calls ++ [SetLoading false])%list = Some false.
Proof. induction calls as [|c calls IH]; [reflexivity|]. cbn [app last_loading]. now rewrite IH. Qed.

(** [loadTasks] clears [loading] on every path: whatever [fetch] came to,
    the last setter it calls is [setLoading(false)], after [setTasks] with the
    array of the answer when the answer is ok and holds one under [tasks], and
    after nothing otherwise, that is when [fetch] rejects, the response is not
    ok, its body is not JSON or not an object, or has no [tasks] array.  On a
    state of the board the calls change the list and [loading] only. *)
Theorem loadTasks_always_clears_loading (response : fetched) :
  (exists calls ending,
      loadTasks response = ((calls ++ [SetLoading false])%list, ending) /\
      (calls = [] \/ exists items, calls = [SetTasks items])) /\
  last_loading (fst (loadTasks response)) = Some false /\
  (forall body data items,
      response = Answered true body -> JSON_parse body = Some data ->
      prop data "tasks" = Some (JArr items) ->
      loadTasks response = ([SetTasks items; SetLoading false], Returned)) /\
  (response = Rejected \/
   (exists body, response = Answered false body) \/
   (exists body, response = Answered true body /\
      (JSON_parse body = None \/
       exists data, JSON_parse body = Some data /\ as_array (prop data "tasks") = None)) ->
   fst (loadTasks response) = [SetLoading false]) /\
  (forall st st',
      apply_calls (fst (loadTasks response)) st = Some st' ->
      loading st' = false /\
      newTitle st' = newTitle st /\ newDetail st' = newDetail st /\
      saving st' = saving st /\ mounted st' = mounted st /\
      activeTask st' = activeTask st /\ dialogOpen st' = dialogOpen st /\
      exists loaded, st' = fst (loadSettled loaded st)).
Proof.
  assert (Hshape : exists calls ending,
             loadTasks response = ((calls ++ [SetLoading false])%list, ending) /\
             (calls = [] \/ exists items, calls = [SetTasks items])).
  { unfold loadTasks. destruct (loadTasks_try response) as [calls ending] eqn:E.
    exists calls, ending. split; [reflexivity|]. revert E. unfold loadTasks_try.
    destruct response as [|[|] body]; cbn [negb]; try (intros [= <- _]; now left).
    destruct (JSON_parse body) as [data|]; [|intros [= <- _]; now left].
    destruct (negb (truthy data) || negb (jstype_eqb (typeof data) TObject));
      [intros [= <- _]; now left|].
    destruct (as_array (prop data "tasks")) as [items|]; intros [= <- _];
      [right; now exists items | now left]. }
  split; [exact Hshape|]. split; [|split; [|split]].
  - destruct Hshape as [calls [ending [-> _]]]. apply last_loading_finally.
  - intros body data items -> Hparse Hprop.
    unfold loadTasks, loadTasks_try. cbn [negb].
    now rewrite Hparse, (prop_object _ _ _ Hprop), Hprop.
  - unfold loadTasks, loadTasks_try.
    intros [->|[[body ->]|[body [-> [Hparse|[data [Hparse Harr]]]]]]]; try reflexivity.
    + cbn [negb]. now rewrite Hparse.
    + cbn [negb]. rewrite Hparse, Harr.
      now destruct (negb (truthy data) || negb (jstype_eqb (typeof data) TObject)).
  - intros st st'. destruct Hshape as [calls [ending [-> [->|[items ->]]]]]; cbn.
    + intros [= <-]. repeat split. now exists None.
    + destruct (as_Tasks items) as [ts|]; [|discriminate].
      intros [= <-]. repeat split. now exists (Some ts).
Qed.

Lemma loadTasks_always_clears_loading_witness :
  loadTasks Rejected = ([SetLoading false], Thrown) /\
  loadTasks (Answered false "Internal Server Error") = ([SetLoading false], Returned) /\
  loadTasks (Answered true "<html>") = ([SetLoading false], Thrown) /\
  loadTasks (Answered true "[]") = ([SetLoading false], Returned) /\
  loadTasks foreign_answer = ([SetTasks [Route.tagged_task]; SetLoading false], Returned) /\
  last_loading (fst (loadTasks foreign_answer)) = Some false.
Proof.
  split; [reflexivity|]. split; [reflexivity|]. split; [reflexivity|].
  split; [reflexivity|]. split.
  - apply (proj1 (proj2 (proj2 (loadTasks_always_clears_loading foreign_answer)))
             (serialize_compact (Route.tasks_body [Route.tagged_task]))
             (Route.tasks_body [Route.tagged_task]));
      [reflexivity | vm_compute; reflexivity | reflexivity].
  - exact (proj1 (proj2 (loadTasks_always_clears_loading foreign_answer))).
Defined.



End WireFacts.

(** ** What the board shows *)

Module ViewFacts.
Import Board BoardFacts View.

Lemma status_eqb_eq a b : status_eqb a b = true <-> a = b.
Proof. destruct a, b; simpl; split; congruence. Qed.

Lemma column_items_In column tasks t :
  In t (column_items column tasks) <-> In t tasks /\ status t = key column.
Proof. unfold column_items. rewrite filter_In, status_eqb_eq. reflexivity. Qed.

Lemma columns_permutation tasks :
  Permutation (concat (map snd (render_columns tasks))) tasks.
Proof.
  unfold render_columns, columns, column_items. cbn [map snd concat key].
  rewrite List.app_nil_r. symmetry.
  induction tasks as [|t l IH]; [reflexivity|].
  cbn [filter]. destruct (status t); cbn [status_eqb].
  - cbn. now constructor.
  - cbn [app]. now apply Permutation_cons_app.
  - rewrite List.app_assoc. apply Permutation_cons_app. now rewrite <- List.app_assoc.
Qed.

Lemma column_items_in_order column tasks : in_order_of (column_items column tasks) tasks.
Proof.
  unfold column_items. induction tasks as [|t l IH]; cbn [filter]; [constructor|].
  destruct (status_eqb (status t) (key column)); now constructor.
Qed.

Lemma column_items_at column before t after :
  status t = key column ->
  column_items column (before ++ t :: after)%list
  = (column_items column before ++ t :: column_items column after)%list.
Proof.
  intros Hs. unfold column_items. rewrite List.filter_app. cbn [filter].
  now rewrite (proj2 (status_eqb_eq _ _) Hs).
Qed.

(** The three columns split the list: every task is shown in the column of
    its status and in no other; each column keeps the order of the list, so
    that a task stands in its column behind the cards of the tasks before it
    and before the cards of the tasks after it; the columns together are the
    list up to order, and the three badges add up to the number of tasks. *)
Theorem columns_split_the_list (tasks : list Task) :
  (forall column t,
      In column columns ->
      (In t (column_items column tasks) <-> In t tasks /\ status t = key column)) /\
  (forall t, In t tasks ->
      exists column,
        In column columns /\ In t (column_items column tasks) /\
        forall other, In other columns -> In t (column_items other tasks) -> other = column) /\
  (forall column, in_order_of (column_items column tasks) tasks) /\
  (forall column before t after,
      tasks = (before ++ t :: after)%list -> status t = key column ->
      column_items column tasks
      = (column_items column before ++ t :: column_items column after)%list) /\
  Permutation (concat (map snd (render_columns tasks))) tasks /\
  list_sum (map (fun shown => length (snd shown)) (render_columns tasks)) = length tasks.
Proof.
  split; [|split; [|split; [|split; [|split]]]].
  - intros column t _. apply column_items_In.
  - intros t Ht.
    assert (Hcol : exists column, In column columns /\ key column = status t).
    { unfold columns. destruct (status t); eexists.
      - split; [left; reflexivity | reflexivity].
      - split; [right; left; reflexivity | reflexivity].
      - split; [right; right; left; reflexivity | reflexivity]. }
    destruct Hcol as [column [Hin Hkey]]. exists column.
    split; [exact Hin|]. split; [apply column_items_In; auto|].
    intros other Hother Hshown. apply column_items_In in Hshown.
    destruct Hshown as [_ Hs]. rewrite <- Hkey in Hs.
    unfold columns in Hin, Hother. simpl in Hin, Hother.
    destruct Hin as [<-|[<-|[<-|[]]]], Hother as [<-|[<-|[<-|[]]]];
      cbn [key] in Hs; congruence.
  - intros column. apply column_items_in_order.
  - intros column before t after -> Hs. now apply column_items_at.
  - apply columns_permutation.
  - pose proof (Permutation_length (columns_permutation tasks)) as H.
    rewrite <- H. unfold render_columns, columns. cbn [map snd concat list_sum fold_right].
    rewrite !List.length_app. cbn [length]. lia.
Qed.

Lemma columns_split_the_list_witness :
  map (fun shown => length (snd shown)) (render_columns (tasks quiet_board)) = [1; 1; 1] /\
  map snd (render_columns [t_ship; t_design; t_build; with_status t_ship todo])
  = [[t_design; with_status t_ship todo]; [t_build]; [t_ship]] /\
  in_order_of [t_design; with_status t_ship todo]
              [t_ship; t_design; t_build; with_status t_ship todo] /\
  Permutation (concat (map snd (render_columns [t_ship; t_design; t_build; t_design])))
              [t_ship; t_design; t_build; t_design].
Proof.
  split; [reflexivity|]. split; [reflexivity|]. split.
  - exact (proj1 (proj2 (proj2 (columns_split_the_list
                                  [t_ship; t_design; t_build; with_status t_ship todo])))
             {| key := todo; label := "" |}).
  - exact (proj1 (proj2 (proj2 (proj2 (proj2
             (columns_split_the_list [t_ship; t_design; t_build; t_design])))))).
Defined.

Lemma map_fixes {A} (f : A -> A) l : map f l = l <-> forall x, In x l -> f x = x.
Proof.
  induction l as [|x l IH]; cbn [map].
  - split; [intros _ y [] | reflexivity].
  - split.
    + intros E. injection E as Ex El. intros y [<-|Hy]; [exact Ex|]. now apply IH.
    + intros H. f_equal; [apply H; now left|]. apply IH. intros y Hy. apply H. now right.
Qed.

(** A button is shown exactly when it does something: [moveForward] leaves
    the list as it is if and only if no task of the id shows the forward
    button, and likewise [moveBack] and the back button; the forward button
    always has a label. *)
Theorem button_shown_iff_operation_changes (i : string) (st : State) :
  (tasks (fst (moveForward i st)) = tasks st <->
   forall t, In t (tasks st) -> id t = i -> shows_forward t = false) /\
  (tasks (fst (moveBack i st)) = tasks st <->
   forall t, In t (tasks st) -> id t = i -> shows_back t = false) /\
  (forall t, shows_forward t = true <-> nextActionLabel (status t) <> None).
Proof.
  split; [|split].
  - rewrite tasks_after_moveForward, map_fixes. split; intros H t Ht.
    + intros <-. specialize (H t Ht). rewrite String.eqb_refl in H. cbn in H.
      destruct t as [ti tt td []]; cbn in *; try discriminate H; reflexivity.
    + destruct (String.eqb_spec (id t) i) as [E|_]; [|reflexivity]. cbn.
      specialize (H t Ht E). destruct t as [ti tt td []]; cbn in *;
        try discriminate H; reflexivity.
  - rewrite tasks_after_moveBack, map_fixes. split; intros H t Ht.
    + intros <-. specialize (H t Ht). rewrite String.eqb_refl in H. cbn in H.
      destruct t as [ti tt td []]; cbn in *; try discriminate H; reflexivity.
    + destruct (String.eqb_spec (id t) i) as [E|_]; [|reflexivity]. cbn.
      specialize (H t Ht E). destruct t as [ti tt td []]; cbn in *;
        try discriminate H; reflexivity.
  - intros [ti tt td []]; cbn; split; congruence.
Qed.

Lemma button_shown_iff_operation_changes_witness :
  tasks (fst (moveForward "c" quiet_board)) = tasks quiet_board /\
  tasks (fst (moveBack "a" quiet_board)) = tasks quiet_board.
Proof.
  destruct (button_shown_iff_operation_changes "c" quiet_board) as [[_ Hf] _].
  destruct (button_shown_iff_operation_changes "a" quiet_board) as [_ [[_ Hb] _]].
  split.
  - apply Hf. intros t [<-|[<-|[<-|[]]]]; (reflexivity || discriminate).
  - apply Hb. intros t [<-|[<-|[<-|[]]]]; (reflexivity || discriminate).
Defined.

Lemma split_at_unique_id t l :
  NoDup (map id l) -> In t l ->
  exists before after,
    l = (before ++ t :: after)%list /\
    (forall u, In u before -> id u <> id t) /\
    (forall u, In u after -> id u <> id t).
Proof.
  intros Hnodup Hin. destruct (in_split t l Hin) as [before [after ->]].
  exists before, after. split; [reflexivity|].
  rewrite List.map_app in Hnodup. cbn [map] in Hnodup.
  pose proof (NoDup_remove_2 _ _ _ Hnodup) as Hnot.
  split; intros u Hu E; apply Hnot; apply List.in_or_app; [left|right];
    rewrite <- E; now apply in_map.
Qed.

Lemma map_at_unique_id (f : Task -> Task) t before after :
  (forall u, id u <> id t -> f u = u) ->
  (forall u, In u before -> id u <> id t) ->
  (forall u, In u after -> id u <> id t) ->
  map f (before ++ t :: after)%list = (before ++ f t :: after)%list.
Proof.
  intros Hf Hb Ha. rewrite List.map_app. cbn [map]. f_equal; [|f_equal].
  - rewrite <- (map_id before) at 2. apply map_ext_in. intros u Hu. apply Hf, Hb, Hu.
  - rewrite <- (map_id after) at 2. apply map_ext_in. intros u Hu. apply Hf, Ha, Hu.
Qed.

Lemma column_items_app column l1 l2 :
  column_items column (l1 ++ l2)%list
  = (column_items column l1 ++ column_items column l2)%list.
Proof. apply List.filter_app. Qed.

Lemma column_length_split column before x after :
  length (column_items column (before ++ x :: after)%list)
  = length (column_items column before)
    + (if status_eqb (status x) (key column) then 1 else 0)
    + length (column_items column after).
Proof.
  rewrite column_items_app, List.length_app.
  change (column_items column (x :: after))
    with (if status_eqb (status x) (key column)
          then x :: column_items column after else column_items column after).
  destruct (status_eqb (status x) (key column)); cbn [length]; lia.
Qed.

(** With distinct ids, moving a card changes that card alone: the list
    after [moveForward] on a task that shows the forward button is the list
    before with that task at its place one status further, so its old column
    has one card less and its new column one card more; [moveBack] is the
    mirror image. *)
Theorem moving_changes_one_card (st : State) (t : Task) :
  NoDup (map id (tasks st)) -> In t (tasks st) ->
  (shows_forward t = true ->
   let moved := with_status t (match status t with todo => doing | _ => done end) in
   status moved <> status t /\
   (exists before after,
       tasks st = (before ++ t :: after)%list /\
       tasks (fst (moveForward (id t) st)) = (before ++ moved :: after)%list) /\
   forall column,
     length (column_items column (tasks (fst (moveForward (id t) st))))
     + (if status_eqb (status t) (key column) then 1 else 0)
     = length (column_items column (tasks st))
       + (if status_eqb (status moved) (key column) then 1 else 0)) /\
  (shows_back t = true ->
   let moved := with_status t (match status t with done => doing | _ => todo end) in
   status moved <> status t /\
   (exists before after,
       tasks st = (before ++ t :: after)%list /\
       tasks (fst (moveBack (id t) st)) = (before ++ moved :: after)%list) /\
   forall column,
     length (column_items column (tasks (fst (moveBack (id t) st))))
     + (if status_eqb (status t) (key column) then 1 else 0)
     = length (column_items column (tasks st))
       + (if status_eqb (status moved) (key column) then 1 else 0)).
Proof.
  intros Hnodup Hin.
  destruct (split_at_unique_id t _ Hnodup Hin) as [before [after [E [Hb Ha]]]].
  split; intros Hshown moved.
  - assert (Hafter : tasks (fst (moveForward (id t) st)) = (before ++ moved :: after)%list).
    { rewrite tasks_after_moveForward, E.
      rewrite (map_at_unique_id _ t before after); try assumption.
      - rewrite String.eqb_refl. cbn [negb]. f_equal. f_equal. subst moved.
        destruct t as [ti tt td []]; reflexivity.
      - intros u Hu. apply String.eqb_neq in Hu. now rewrite Hu. }
    split; [subst moved; destruct t as [ti tt td []]; cbn in *; congruence|].
    split; [exists before, after; auto|].
    intros column. rewrite Hafter, E, !column_length_split. lia.
  - assert (Hafter : tasks (fst (moveBack (id t) st)) = (before ++ moved :: after)%list).
    { rewrite tasks_after_moveBack, E.
      rewrite (map_at_unique_id _ t before after); try assumption.
      - rewrite String.eqb_refl. cbn [negb]. f_equal. f_equal. subst moved.
        destruct t as [ti tt td []]; reflexivity.
      - intros u Hu. apply String.eqb_neq in Hu. now rewrite Hu. }
    split; [subst moved; destruct t as [ti tt td []]; cbn in *; congruence|].
    split; [exists before, after; auto|].
    intros column. rewrite Hafter, E, !column_length_split. lia.
Qed.


Lemma moving_changes_one_card_witness :
  tasks (fst (moveForward "a" quiet_board)) = [with_status t_design doing; t_build; t_ship] /\
  forall column,
    length (column_items column (tasks (fst (moveForward (id t_design) quiet_board))))
    + (if status_eqb todo (key column) then 1 else 0)
    = length (column_items column (tasks quiet_board))
      + (if status_eqb doing (key column) then 1 else 0).
Proof.
  split; [reflexivity|].
  refine (proj2 (proj2 (proj1 (moving_changes_one_card quiet_board t_design _ _) eq_refl))).
  - repeat constructor; simpl; intuition discriminate.
  - simpl. auto.
Defined.

(** A task that [addTask] adds is the first card of the first column, and
    the cards of every column follow as they were. *)
Theorem added_task_tops_its_column (trim : string -> string) (uuid : string) (st : State) :
  trim (newTitle st) <> "" ->
  exists added,
    status added = todo /\ id added = uuid /\
    forall column,
      column_items column (tasks (fst (addTask trim uuid st)))
      = ((if status_eqb todo (key column) then [added] else [])
         ++ column_items column (tasks st))%list.
Proof.
  intros Htitle. unfold addTask.
  destruct (String.eqb_spec (trim (newTitle st)) "") as [E|_]; [contradiction|].
  exists {| id := uuid; title := trim (newTitle st); detail := trim (newDetail st);
            status := todo |}.
  split; [reflexivity|]. split; [reflexivity|]. intros column.
  change (tasks (fst ((persistTasks ?l >> setNewTitle "" >> setNewDetail "") st))) with l.
  unfold column_items. cbn [filter status].
  destruct (status_eqb todo (key column)); reflexivity.
Qed.

Lemma added_task_tops_its_column_witness :
  exists added,
    status added = todo /\ id added = "d" /\
    forall column,
      column_items column (tasks (fst (addTask ascii_trim "d" (board "Deploy" ""))))
      = ((if status_eqb todo (key column) then [added] else [])
         ++ column_items column (tasks (board "Deploy" "")))%list.
Proof.
  apply (added_task_tops_its_column ascii_trim "d" (board "Deploy" "")). discriminate.
Defined.

Lemma in_ids_filter i j l :
  i <> j -> In i (map id l) ->
  In i (map id (filter (fun task => negb (id task =? j)%string) l)).
Proof.
  intros Hij. rewrite !in_map_iff. intros [t [E Ht]]. exists t. split; [exact E|].
  apply filter_In. split; [exact Ht|].
  apply negb_true_iff, String.eqb_neq. congruence.
Qed.

(** Two invariants of the dialog.  An open dialog always has a task to show,
    as long as the dialog does not report that it opened by itself.  The task
    of the dialog has the id of a task of the list as long as the dialog is
    opened on tasks of the list and the list that [loadTasks] sets holds the
    task of the dialog.  Both hold when the component mounts, and every event
    keeps them under these conditions.  The second condition is needed: when a
    task is added and opened before the request of [loadTasks] is answered
    with an empty list, the dialog is left open on a task that the list does
    not hold. *)
Theorem dialog_invariants (trim : string -> string) (e : event) (st : State) :
  (dialog_has_task mounting /\ active_in_list mounting) /\
  (dialog_has_task st -> e <> OpenChange true ->
   dialog_has_task (fst (step trim e st))) /\
  (active_in_list st -> (forall t, e = OpenDetail t -> In t (tasks st)) ->
   (forall items a,
       e = LoadSettled (Some items) -> activeTask st = Some a -> In (id a) (map id items)) ->
   active_in_list (fst (step trim e st))) /\
  (dialogOpen (after ascii_trim late_load mounting) = true /\
   activeTask (after ascii_trim late_load mounting) = Some t_plan /\
   tasks (after ascii_trim late_load mounting) = [] /\
   ~ active_in_list (after ascii_trim late_load mounting)).
Proof.
  split; [split; [discriminate | intros a; discriminate]|]. split; [|split].
  - unfold dialog_has_task. intros Hinv Hnot.
    destruct e as [|[items|]|[uuid|i patch|i|i|i]|t|[|]| |v|v|]; cbn [step run];
      try exact Hinv.
    + unfold addTask. destruct (trim (newTitle st) =? "")%string; exact Hinv.
    + unfold updateTask, active_is.
      destruct (activeTask st) as [a|] eqn:Ha; [|cbn; rewrite Ha; exact Hinv].
      destruct (id a =? i)%string; cbn; rewrite Ha; intros _; discriminate.
    + unfold removeTask, active_is.
      destruct (activeTask st) as [a|] eqn:Ha; [|cbn; rewrite Ha; exact Hinv].
      destruct (id a =? i)%string; cbn; [discriminate|]. rewrite Ha. exact Hinv.
    + intros _. discriminate.
    + contradiction.
    + discriminate.
    + discriminate.
  - unfold active_in_list. intros Hinv Hopen Hload.
    destruct e as [|[items|]|[uuid|i patch|i|i|i]|t|[|]| |v|v|]; cbn [step run];
      try exact Hinv.
    + intros a Ha. exact (Hload items a eq_refl Ha).
    + unfold addTask. destruct (trim (newTitle st) =? "")%string; [exact Hinv|].
      cbn. intros a Ha. right. now apply Hinv.
    + intros a'. rewrite tasks_after_updateTask, map_map.
      rewrite (map_ext (fun x => id (if (id x =? i)%string then spread_patch x patch else x)) id)
        by (intros x; now destruct (id x =? i)%string).
      unfold updateTask, active_is.
      destruct (activeTask st) as [a|] eqn:Ha; [|cbn; rewrite Ha; discriminate].
      destruct (id a =? i)%string; cbn; rewrite Ha; intros [= <-]; exact (Hinv _ eq_refl).
    + intros a. rewrite tasks_after_moveForward, map_map.
      rewrite (map_ext _ id)
        by (intros x; destruct (id x =? i)%string, x as [xi xt xd []]; reflexivity).
      exact (Hinv a).
    + intros a. rewrite tasks_after_moveBack, map_map.
      rewrite (map_ext _ id)
        by (intros x; destruct (id x =? i)%string, x as [xi xt xd []]; reflexivity).
      exact (Hinv a).
    + intros a. rewrite tasks_after_removeTask. unfold removeTask, active_is.
      destruct (activeTask st) as [a0|] eqn:Ha; [|cbn; rewrite Ha; discriminate].
      destruct (String.eqb_spec (id a0) i) as [E|N]; cbn; [discriminate|].
      rewrite Ha. intros [= <-]. apply in_ids_filter; [exact N | exact (Hinv _ eq_refl)].
    + cbn. intros a [= <-]. apply in_map. now apply Hopen.
    + cbn. discriminate.
  - split; [reflexivity|]. split; [reflexivity|]. split; [reflexivity|].
    intros H. exact (H t_plan eq_refl).
Qed.

Lemma dialog_invariants_witness :
  dialog_has_task (fst (step ascii_trim (Operation (RemoveTask "b")) (board "" ""))) /\
  active_in_list (fst (step ascii_trim (OpenDetail t_ship) quiet_board)) /\
  active_in_list (fst (step ascii_trim (LoadSettled (Some [t_ship; t_build])) (board "" ""))).
Proof.
  destruct (dialog_invariants ascii_trim (Operation (RemoveTask "b")) (board "" ""))
    as [_ [Hopen _]].
  destruct (dialog_invariants ascii_trim (OpenDetail t_ship) quiet_board) as [_ [_ [Hlist _]]].
  destruct (dialog_invariants ascii_trim (LoadSettled (Some [t_ship; t_build])) (board "" ""))
    as [_ [_ [Hload _]]].
  split; [|split].
  - apply Hopen; [intros _; discriminate | discriminate].
  - apply Hlist; [intros a; discriminate | | discriminate].
    intros t [= <-]. simpl. auto.
  - apply Hload; [|discriminate|].
    + intros a [= <-]. simpl. auto.
    + intros items a [= <-] [= <-]. simpl. auto.
Defined.

(** The dialog shows what the list holds: when the task of the dialog is a
    task of the list, it still is after [updateTask], on its id or on
    another, after [addTask] and after [removeTask]; [updateTask] on its id
    gives both the same new title and detail. *)
Theorem dialog_copy_follows_edits (trim : string -> string) (a : action) (st : State) :
  active_in_sync st ->
  (forall i, a <> MoveForward i) -> (forall i, a <> MoveBack i) ->
  active_in_sync (fst (run trim a st)) /\
  (forall i patch shown,
      a = UpdateTask i patch -> activeTask st = Some shown -> id shown = i ->
      activeTask (fst (run trim a st)) = Some (spread_patch shown patch)).
Proof.
  unfold active_in_sync. intros Hinv Hf Hb.
  destruct a as [uuid|i patch|i|i|i]; cbn [run];
    try (exfalso; first [now apply (Hf i) | now apply (Hb i)]).
  - split; [|discriminate].
    unfold addTask. destruct (trim (newTitle st) =? "")%string; [exact Hinv|].
    cbn. intros x Hx. right. now apply Hinv.
  - split.
    + intros x. rewrite tasks_after_updateTask. unfold updateTask, active_is.
      destruct (activeTask st) as [shown|] eqn:Ha; [|cbn; rewrite Ha; discriminate].
      destruct (String.eqb_spec (id shown) i) as [E|N]; cbn; rewrite Ha; intros [= <-];
        apply in_map_iff; exists shown; (split; [|exact (Hinv _ eq_refl)]).
      * subst i. now rewrite String.eqb_refl.
      * apply String.eqb_neq in N. now rewrite N.
    + intros i' patch' shown [= <- <-] Ha <-.
      unfold updateTask, active_is. rewrite Ha, String.eqb_refl. cbn. now rewrite Ha.
  - split; [|discriminate].
    intros x. rewrite tasks_after_removeTask. unfold removeTask, active_is.
    destruct (activeTask st) as [shown|] eqn:Ha; [|cbn; rewrite Ha; discriminate].
    destruct (String.eqb_spec (id shown) i) as [E|N]; cbn; [discriminate|].
    rewrite Ha. intros [= <-]. apply filter_In. split; [exact (Hinv _ eq_refl)|].
    apply negb_true_iff, String.eqb_neq. exact N.
Qed.

Lemma dialog_copy_follows_edits_witness :
  active_in_sync
    (fst (run ascii_trim
            (UpdateTask "b" {| patch_title := None; patch_detail := Some "api v2" |})
            (board "" ""))) /\
  activeTask
    (fst (run ascii_trim
            (UpdateTask "b" {| patch_title := None; patch_detail := Some "api v2" |})
            (board "" "")))
  = Some {| id := "b"; title := "Build"; detail := "api v2"; status := doing |}.
Proof.
  destruct (dialog_copy_follows_edits ascii_trim
              (UpdateTask "b" {| patch_title := None; patch_detail := Some "api v2" |})
              (board "" "")) as [Hsync Hcopy].
  - intros a [= <-]. simpl. auto.
  - discriminate.
  - discriminate.
  - split; [exact Hsync|].
    exact (Hcopy "b" _ t_build eq_refl eq_refl eq_refl).
Defined.

End ViewFacts.
